(** * The listing optimizer: response parser, cache and request queue

    A shallow embedding of the analysis parser ([parseAnalysisFromText],
    index.tsx), of the API cache, the request wrappers and the request queue
    (utils/api.ts), with the properties the specification states about them.

    JavaScript strings are sequences of UTF-16 code units; the regular
    expressions of the parser carry no [u] flag, so they work on code units
    too.  A string is a [list N] here, each element a code unit. *)

From stdpp Require Import base list strings gmap fin_maps.
From Stdlib Require Import Ascii NArith ZArith Lia DecimalString.

Local Open Scope N_scope.

(** * Part I: the program *)

(** ** Strings *)

Module JS.

Abbreviation jsstring := (list N).

(** A source literal, character by character (the literals of the parser are
    ASCII). *)
Definition lit (s : string) : jsstring :=
  (fun a => N_of_ascii a) <$> String.list_ascii_of_string s.

Definition LF : N := 10.
Definition CR : N := 13.

(** Several lines joined by line feeds, as a template literal would hold
    them. *)
Fixpoint join_lf (ls : list jsstring) : jsstring :=
  match ls with
  | [] => []
  | [l] => l
  | l :: ls' => l ++ LF :: join_lf ls'
  end.

Definition text_of (ls : list string) : jsstring := join_lf (lit <$> ls).

(** LineTerminator: LF, CR, LS, PS. *)
Definition is_line_terminator (c : N) : bool :=
  (c =? 10) || (c =? 13) || (c =? 8232) || (c =? 8233).

(** WhiteSpace and LineTerminator code units: what [\s] matches and what
    [trim] removes (TAB, VT, FF, SP, NBSP, ZWNBSP, the Zs category, and the
    line terminators). *)
Definition is_space (c : N) : bool :=
  (c =? 9) || (c =? 11) || (c =? 12) || (c =? 32) || (c =? 160)
  || (c =? 5760) || ((8192 <=? c) && (c <=? 8202))
  || (c =? 8239) || (c =? 8287) || (c =? 12288) || (c =? 65279)
  || is_line_terminator c.

(** [[\s\S]]: every code unit. *)
Definition any_char (c : N) : bool := is_space c || negb (is_space c).

(** [.] without the [s] flag: every code unit but a line terminator. *)
Definition dot (c : N) : bool := negb (is_line_terminator c).

Fixpoint skip_space (s : jsstring) : jsstring :=
  match s with
  | c :: s' => if is_space c then skip_space s' else s
  | [] => []
  end.

(** [String.prototype.trim]. *)
Definition trim (s : jsstring) : jsstring :=
  rev (skip_space (rev (skip_space s))).

(** [s.substring(a, b)]: both ends clamped to the length, swapped when
    [a > b]. *)
Definition substring (s : jsstring) (a b : nat) : jsstring :=
  let a' := Nat.min a (length s) in
  let b' := Nat.min b (length s) in
  take (Nat.max a' b' - Nat.min a' b') (drop (Nat.min a' b') s).

(** [s.split('\n')]. *)
Fixpoint split_lf (s : jsstring) : list jsstring :=
  match s with
  | [] => [[]]
  | c :: s' =>
      if c =? LF then [] :: split_lf s'
      else match split_lf s' with
           | l :: ls => (c :: l) :: ls
           | [] => [[c]]
           end
  end.

(** Truthiness of a string: it is not empty. *)
Definition truthy (s : jsstring) : bool :=
  match s with [] => false | _ :: _ => true end.

(** ** Completions

    An expression either yields a value or throws. *)

Inductive completion (A : Type) : Type :=
| Normal (a : A)
| Throw (e : string).
Arguments Normal {A} a.
Arguments Throw {A} e.

#[global] Instance completion_ret : MRet completion := fun A a => Normal a.

#[global] Instance completion_bind : MBind completion := fun A B f c =>
  match c with
  | Normal a => f a
  | Throw e => Throw e
  end.

(** Reading a property of [undefined] is a TypeError. *)
Definition defined {A} (o : option A) : completion A :=
  match o with
  | Some a => Normal a
  | None => Throw "TypeError"
  end.

(** ** Regular expressions

    The fragment the parser uses: literals, a (greedy or lazy) star over a
    character class, sequence, alternation, a positive lookahead, one capture
    group, and the assertions [^] and [$].  Matching follows the backtracking
    semantics of the language specification: a matcher takes the state and a
    continuation, and the first alternative whose continuation succeeds
    wins. *)

Inductive regex : Type :=
| Lit (l : jsstring)
| Star (greedy : bool) (cls : N -> bool)
| Seq (r1 r2 : regex)
| Alt (r1 r2 : regex)
| Lookahead (r : regex)
| Group (r : regex)
| Bol
| Eol.

Record RegExp := {
  pattern : regex;
  global : bool;
  multiline : bool
}.

(** The state of a match: the input before the current position (last code
    unit first), the input after it, and capture group 1. *)
Record mstate := MState {
  before : jsstring;
  after : jsstring;
  group1 : option jsstring
}.

Definition cont := mstate -> option mstate.

Fixpoint eat (l s : jsstring) : option jsstring :=
  match l, s with
  | [], _ => Some s
  | a :: l', b :: s' => if a =? b then eat l' s' else None
  | _ :: _, [] => None
  end.

Fixpoint star_greedy (cls : N -> bool) (bef aft : jsstring)
    (g : option jsstring) (k : cont) : option mstate :=
  match aft with
  | c :: aft' =>
      if cls c then
        match star_greedy cls (c :: bef) aft' g k with
        | Some y => Some y
        | None => k (MState bef aft g)
        end
      else k (MState bef aft g)
  | [] => k (MState bef aft g)
  end.

Fixpoint star_lazy (cls : N -> bool) (bef aft : jsstring)
    (g : option jsstring) (k : cont) : option mstate :=
  match k (MState bef aft g) with
  | Some y => Some y
  | None =>
      match aft with
      | c :: aft' => if cls c then star_lazy cls (c :: bef) aft' g k else None
      | [] => None
      end
  end.

Definition at_line_start (m : bool) (x : mstate) : bool :=
  match before x with
  | [] => true
  | c :: _ => m && is_line_terminator c
  end.

Definition at_line_end (m : bool) (x : mstate) : bool :=
  match after x with
  | [] => true
  | c :: _ => m && is_line_terminator c
  end.

Fixpoint rmatch (m : bool) (r : regex) (x : mstate) (k : cont) : option mstate :=
  match r with
  | Lit l =>
      match eat l (after x) with
      | Some rest => k (MState (rev l ++ before x) rest (group1 x))
      | None => None
      end
  | Star true cls => star_greedy cls (before x) (after x) (group1 x) k
  | Star false cls => star_lazy cls (before x) (after x) (group1 x) k
  | Seq r1 r2 => rmatch m r1 x (fun y => rmatch m r2 y k)
  | Alt r1 r2 =>
      match rmatch m r1 x k with
      | Some y => Some y
      | None => rmatch m r2 x k
      end
  | Lookahead r' =>
      match rmatch m r' x Some with
      | Some y => k (MState (before x) (after x) (group1 y))
      | None => None
      end
  | Group r' =>
      rmatch m r' x (fun y =>
        k (MState (before y) (after y)
             (Some (take (length (before y) - length (before x)) (after x)))))
  | Bol => if at_line_start m x then k x else None
  | Eol => if at_line_end m x then k x else None
  end.

(** A match as [exec] returns it: [index], the matched text [m[0]] and
    [m[1]]. *)
Record jsmatch := {
  index : nat;
  whole : jsstring;
  capture : option jsstring
}.

Definition match_at (re : RegExp) (bef aft : jsstring) : option jsmatch :=
  match rmatch (multiline re) (pattern re) (MState bef aft None) Some with
  | Some y =>
      Some {| index := length bef;
              whole := take (length (before y) - length bef) aft;
              capture := group1 y |}
  | None => None
  end.

(** The first position, from the current one on, at which the pattern
    matches. *)
Fixpoint search (re : RegExp) (bef aft : jsstring) : option jsmatch :=
  match match_at re bef aft with
  | Some mt => Some mt
  | None =>
      match aft with
      | c :: aft' => search re (c :: bef) aft'
      | [] => None
      end
  end.

(** [s.match(re)] for a regular expression without the [g] flag. *)
Definition str_match (s : jsstring) (re : RegExp) : option jsmatch :=
  search re [] s.

(** The matches of a [g] regular expression in order: after a match the scan
    resumes at its end, one code unit further when the match is empty.
    [skip] counts the code units of the last match still to pass. *)
Fixpoint scan_all (re : RegExp) (skip : nat) (bef aft : jsstring) : list jsmatch :=
  match skip with
  | S skip' =>
      match aft with
      | c :: aft' => scan_all re skip' (c :: bef) aft'
      | [] => []
      end
  | O =>
      match match_at re bef aft with
      | Some mt =>
          mt :: match aft with
                | c :: aft' => scan_all re (Nat.pred (length (whole mt))) (c :: bef) aft'
                | [] => []
                end
      | None =>
          match aft with
          | c :: aft' => scan_all re O (c :: bef) aft'
          | [] => []
          end
      end
  end.

(** [[...s.matchAll(re)]]: a TypeError when [re] lacks the [g] flag. *)
Definition matchAll (s : jsstring) (re : RegExp) : completion (list jsmatch) :=
  if global re then Normal (scan_all re O [] s) else Throw "TypeError".

(** [s.replace(re, '')] for a regular expression without the [g] flag: the
    first match is removed. *)
Definition replace_empty (s : jsstring) (re : RegExp) : jsstring :=
  match str_match s re with
  | Some mt => take (index mt) s ++ drop (index mt + length (whole mt)) s
  | None => s
  end.

End JS.

(** ** The analysis parser (index.tsx, [parseAnalysisFromText]) *)

Module Parser.
Import JS.

Record Recommendation := {
  element : jsstring;
  suggestion : jsstring;
  reasoning : jsstring
}.

Record WebSource := {
  uri : jsstring;
  title : jsstring
}.

Record ListingAnalysis := {
  overall_assessment : jsstring;
  recommendations : list Recommendation;
  suggested_keywords : list jsstring;
  sources : option (list WebSource)
}.

Fixpoint seq (rs : list regex) : regex :=
  match rs with
  | [] => Lit []
  | [r] => r
  | r :: rs' => Seq r (seq rs')
  end.

Definition spaces : regex := Star true is_space.

(** The regular expression "/##\s*Overall Assessment\s*([\s\S]*?)(?=\n##|$)/". *)
Definition assessment_re : RegExp :=
  {| pattern := seq [Lit (lit "##"); spaces; Lit (lit "Overall Assessment"); spaces;
                     Group (Star false any_char);
                     Lookahead (Alt (Lit (LF :: lit "##")) Eol)];
     global := false; multiline := false |}.

(** The regular expression "/##\s*Suggested SEO Tags \(13\)\s*([\s\S]*?)(?=\n##|$)/". *)
Definition tags_re : RegExp :=
  {| pattern := seq [Lit (lit "##"); spaces; Lit (lit "Suggested SEO Tags (13)"); spaces;
                     Group (Star false any_char);
                     Lookahead (Alt (Lit (LF :: lit "##")) Eol)];
     global := false; multiline := false |}.

(** The regular expression "/##\s*Actionable Recommendations\s*([\s\S]*?)(?=\n##\s*Suggested SEO Tags|$)/". *)
Definition recommendations_re : RegExp :=
  {| pattern := seq [Lit (lit "##"); spaces; Lit (lit "Actionable Recommendations"); spaces;
                     Group (Star false any_char);
                     Lookahead (Alt (seq [Lit (LF :: lit "##"); spaces;
                                          Lit (lit "Suggested SEO Tags")]) Eol)];
     global := false; multiline := false |}.

(** The regular expression "/^###\s*Element:\s*(.*)/gm". *)
Definition element_re : RegExp :=
  {| pattern := seq [Bol; Lit (lit "###"); spaces; Lit (lit "Element:"); spaces;
                     Group (Star true dot)];
     global := true; multiline := true |}.

(** The regular expression "/####\s*Suggestion:\s*([\s\S]*?)(?=\n####\s*Reasoning:|$)/". *)
Definition suggestion_re : RegExp :=
  {| pattern := seq [Lit (lit "####"); spaces; Lit (lit "Suggestion:"); spaces;
                     Group (Star false any_char);
                     Lookahead (Alt (seq [Lit (LF :: lit "####"); spaces;
                                          Lit (lit "Reasoning:")]) Eol)];
     global := false; multiline := false |}.

(** The regular expression "/####\s*Reasoning:\s*([\s\S]*)/". *)
Definition reasoning_re : RegExp :=
  {| pattern := seq [Lit (lit "####"); spaces; Lit (lit "Reasoning:"); spaces;
                     Group (Star true any_char)];
     global := false; multiline := false |}.

(** The regular expression "/^-/". *)
Definition dash_re : RegExp :=
  {| pattern := seq [Bol; Lit (lit "-")]; global := false; multiline := false |}.

(** [kw => kw.replace(/^-/, '').trim()] *)
Definition clean_keyword (kw : jsstring) : jsstring :=
  trim (replace_empty kw dash_re).

(** The keyword pipeline on the captured section: split, clean, drop the
    empty strings, cut at 20. *)
Definition keywords_of (section : jsstring) : list jsstring :=
  (fun kw => substring kw 0 20)
    <$> List.filter truthy (clean_keyword <$> split_lf section).

(** The [####] fields of one chunk: the text after [Suggestion:] and the
    text after [Reasoning:], an absent field being the empty string. *)
Definition field_of (chunk : jsstring) (re : RegExp) : completion jsstring :=
  match str_match chunk re with
  | Some mt => c ← defined (capture mt); mret (trim c)
  | None => mret []
  end.

(** The body of [elementMatches.forEach]: [rest] holds the matches after
    [mt], so its head is [elementMatches[index + 1]]. *)
Definition element_record (recommendationsText : jsstring) (mt : jsmatch)
    (rest : list jsmatch) : completion (list Recommendation) :=
  name ← defined (capture mt);
  let element := trim name in
  let startIndex := (index mt + length (whole mt))%nat in
  let endIndex :=
    match rest with
    | nextMatch :: _ => index nextMatch
    | [] => length recommendationsText
    end in
  let chunk := substring recommendationsText startIndex endIndex in
  suggestion ← field_of chunk suggestion_re;
  reasoning ← field_of chunk reasoning_re;
  if truthy element && (truthy suggestion || truthy reasoning)
  then mret [ {| element := element; suggestion := suggestion; reasoning := reasoning |} ]
  else mret [].

Fixpoint each_element (recommendationsText : jsstring) (elementMatches : list jsmatch)
    : completion (list Recommendation) :=
  match elementMatches with
  | [] => mret []
  | mt :: rest =>
      r ← element_record recommendationsText mt rest;
      rs ← each_element recommendationsText rest;
      mret (r ++ rs)
  end.

Definition parseAnalysisFromText (text : jsstring) : completion ListingAnalysis :=
  assessment ←
    match str_match text assessment_re with
    | Some assessmentMatch => c ← defined (capture assessmentMatch); mret (trim c)
    | None => mret []
    end;
  keywords ←
    match str_match text tags_re with
    | Some tagsMatch => c ← defined (capture tagsMatch); mret (keywords_of c)
    | None => mret []
    end;
  recs ←
    match str_match text recommendations_re with
    | Some recommendationsBlockMatch =>
        recommendationsText ← defined (capture recommendationsBlockMatch);
        elementMatches ← matchAll recommendationsText element_re;
        each_element recommendationsText elementMatches
    | None => mret []
    end;
  mret {| overall_assessment := assessment;
          recommendations := recs;
          suggested_keywords := keywords;
          sources := None |}.

End Parser.

(** ** The API cache (utils/api.ts, [APICache])

    [Date.now()] is a parameter of each operation, in milliseconds.  A
    value of the cached type can be [null], which is also what [get] returns
    for a key it does not hold. *)

Module Cache.
Import JS.

Section APICache.
Context {V : Type} (null : V).

Record CacheEntry := {
  data : V;
  timestamp : Z;
  expiry : Z
}.

Definition DEFAULT_TTL : Z := 5 * 60 * 1000.

(** [set(key, data, ttl = this.DEFAULT_TTL)] *)
Definition set (now : Z) (cache : gmap jsstring CacheEntry)
    (key : jsstring) (data : V) (ttl : option Z) : gmap jsstring CacheEntry :=
  <[key := {| data := data;
              timestamp := now;
              expiry := now + default DEFAULT_TTL ttl |}]> cache.

(** [get(key)]: the value and the cache it leaves. *)
Definition get (now : Z) (cache : gmap jsstring CacheEntry) (key : jsstring)
    : V * gmap jsstring CacheEntry :=
  match cache !! key with
  | None => (null, cache)
  | Some entry =>
      if (now >? expiry entry)%Z then (null, delete key cache)
      else (data entry, cache)
  end.

Definition clear (cache : gmap jsstring CacheEntry) : gmap jsstring CacheEntry := ∅.

(** [cleanup()]: the loop over the entries, deleting the expired ones. *)
Definition cleanup (now : Z) (cache : gmap jsstring CacheEntry)
    : gmap jsstring CacheEntry :=
  map_fold (λ key entry acc,
              if (now >? expiry entry)%Z then delete key acc else acc)
    cache cache.

(** The sweeps of the interval timer, at the given times in turn. *)
Definition sweeps (times : list Z) (cache : gmap jsstring CacheEntry)
    : gmap jsstring CacheEntry :=
  foldl (λ c s, cleanup s c) cache times.

End APICache.

Arguments CacheEntry V : clear implicits.

End Cache.

(** ** The request queue (utils/api.ts, [RequestQueue])

    The queue runs on one thread; what happens is a sequence of events.
    [Add t]: a call of [add] with the task [t], which pushes the wrapper of
    [t] and calls [processQueue].  [Settle t o]: the promise of the running
    task [t] settles with the outcome [o]; the wrapper passes it to
    [resolve] or [reject] and returns.  [Finally t]: [processQueue] resumes
    after [await request()] for [t], and runs its [finally] block. *)

Module Queue.

Section RequestQueue.
Context {V E : Type}.

Inductive outcome : Type :=
| Fulfilled (value : V)
| Rejected (reason : E).

(** The state of the promise [add] returned. *)
Inductive promise : Type :=
| Pending
| Settled (o : outcome).

Definition task := nat.

Record state := {
  queue : list task;            (* this.queue, by the task each wrapper calls *)
  activeRequests : nat;         (* this.activeRequests *)
  running : list task;          (* tasks called and not yet settled *)
  finishing : list task;        (* settled tasks whose finally block is still to run *)
  returned : gmap task outcome; (* the settled promises that add returned *)
  submitted : list task;        (* every task added, in call order *)
  started : list task           (* every task called, in the order of the calls *)
}.

Definition maxConcurrent : nat := 3.

Definition initial : state :=
  {| queue := []; activeRequests := 0; running := []; finishing := [];
     returned := ∅; submitted := []; started := [] |}.

Fixpoint remove_first (t : task) (l : list task) : list task :=
  match l with
  | [] => []
  | x :: l' => if Nat.eqb x t then l' else x :: remove_first t l'
  end.

(** [processQueue] up to its [await]: when a slot is free and a wrapper
    waits, the first wrapper is shifted off the queue, counted, and called,
    which calls its task. *)
Definition processQueue (s : state) : state :=
  if (maxConcurrent <=? activeRequests s)%nat then s
  else
    match queue s with
    | [] => s
    | request :: rest =>
        {| queue := rest;
           activeRequests := S (activeRequests s);
           running := running s ++ [request];
           finishing := finishing s;
           returned := returned s;
           submitted := submitted s;
           started := started s ++ [request] |}
    end.

(** [add(requestFn)]: push the wrapper, call [processQueue]. *)
Definition add (t : task) (s : state) : state :=
  processQueue
    {| queue := queue s ++ [t];
       activeRequests := activeRequests s;
       running := running s;
       finishing := finishing s;
       returned := returned s;
       submitted := submitted s ++ [t];
       started := started s |}.

(** The wrapper around the task: [resolve(result)] when the task's promise
    fulfils, [reject(error)] when it rejects. *)
Definition wrapper (o : outcome) : outcome :=
  match o with
  | Fulfilled result => Fulfilled result
  | Rejected error => Rejected error
  end.

(** Settling a promise that is settled already changes nothing. *)
Definition settle_promise (t : task) (o : outcome) (r : gmap task outcome)
    : gmap task outcome :=
  match r !! t with
  | Some _ => r
  | None => <[t := o]> r
  end.

Definition settle (t : task) (o : outcome) (s : state) : state :=
  {| queue := queue s;
     activeRequests := activeRequests s;
     running := remove_first t (running s);
     finishing := finishing s ++ [t];
     returned := settle_promise t (wrapper o) (returned s);
     submitted := submitted s;
     started := started s |}.

(** The [finally] block of [processQueue]: count down, call
    [processQueue]. *)
Definition finish (t : task) (s : state) : state :=
  processQueue
    {| queue := queue s;
       activeRequests := Nat.pred (activeRequests s);
       running := running s;
       finishing := remove_first t (finishing s);
       returned := returned s;
       submitted := submitted s;
       started := started s |}.

Inductive event : Type :=
| Add (t : task)
| Settle (t : task) (o : outcome)
| Finally (t : task).

(** An event happens only when it can: a task is added once, a task settles
    while it runs, a finally block runs after its task has settled. *)
Definition step (s : state) (ev : event) : option state :=
  match ev with
  | Add t => if bool_decide (t ∈ submitted s) then None else Some (add t s)
  | Settle t o => if bool_decide (t ∈ running s) then Some (settle t o s) else None
  | Finally t => if bool_decide (t ∈ finishing s) then Some (finish t s) else None
  end.

Fixpoint run (evs : list event) (s : state) : option state :=
  match evs with
  | [] => Some s
  | ev :: evs' =>
      match step s ev with
      | Some s' => run evs' s'
      | None => None
      end
  end.

(** The promise [add] returned for the task [t]. *)
Definition promise_of (s : state) (t : task) : promise :=
  match returned s !! t with
  | Some o => Settled o
  | None => Pending
  end.

End RequestQueue.

Arguments outcome V E : clear implicits.
Arguments promise V E : clear implicits.
Arguments state V E : clear implicits.
Arguments event V E : clear implicits.

End Queue.

(** ** The request wrappers (utils/api.ts, [apiRequest] and
    [generateAnalysis])

    The network is the environment: for one call of [fetch] it answers
    after some milliseconds, fails after some milliseconds, or never
    settles.  A call that carries an abort timer rejects with an AbortError
    when the timer fires first. *)

Module Net.
Import JS Cache.

Record Error := {
  name : jsstring;
  message : jsstring
}.

(** A promise in the end: fulfilled, rejected, or pending for ever. *)
Inductive settled (A : Type) : Type :=
| Resolves (a : A)
| Rejects (e : Error)
| Hangs.
Arguments Resolves {A} a.
Arguments Rejects {A} e.
Arguments Hangs {A}.

Inductive Method := GET | POST | PUT | DELETE.

Definition method_eqb (a b : Method) : bool :=
  match a, b with
  | GET, GET | POST, POST | PUT, PUT | DELETE, DELETE => true
  | _, _ => false
  end.

(** A number in a template literal. *)
Definition decimal (n : N) : jsstring :=
  lit (DecimalString.NilZero.string_of_uint (N.to_uint n)).

Section Requests.
(** JSON values, with the four things the wrappers do to them. *)
Context {J : Type} (null : J) (truthy_value : J → bool)
  (stringify : J → jsstring) (empty_object : J).

Record APIRequestOptions := {
  method : option Method;
  body : option J;
  headers : gmap jsstring jsstring;
  cache : option bool;
  cacheTTL : option Z;
  timeout : option Z
}.

Record Response := {
  ok : bool;
  status : N;
  statusText : jsstring;
  json : settled J;            (* response.json() *)
  text : settled jsstring;     (* response.text() *)
  x_sources : option (option J)
    (* the x-sources header: absent, not decodable, or decoded *)
}.

Inductive network : Type :=
| Responds (ms : Z) (r : Response)
| Fails (ms : Z) (e : Error)
| Silent.

(** What [fetch] is called with; [abort_after] is the delay of the timer
    that aborts the signal, when the call has a signal. *)
Record fetch_call := {
  url : jsstring;
  call_method : Method;
  call_headers : gmap jsstring jsstring;
  call_body : option jsstring;
  abort_after : option Z
}.

Definition AbortError : Error :=
  {| name := lit "AbortError"; message := lit "The operation was aborted." |}.

Definition new_Error (message : jsstring) : Error :=
  {| name := lit "Error"; message := message |}.

(** The promise of [fetch]: with a timer, whatever has not happened before
    the timer fires is aborted. *)
Definition fetch (call : fetch_call) (net : network) : settled Response :=
  match abort_after call, net with
  | Some t, Responds ms r => if (ms <? t)%Z then Resolves r else Rejects AbortError
  | Some t, Fails ms e => if (ms <? t)%Z then Rejects e else Rejects AbortError
  | Some t, Silent => Rejects AbortError
  | None, Responds ms r => Resolves r
  | None, Fails ms e => Rejects e
  | None, Silent => Hangs
  end.

(** The time at which [fetch] settled, for the cache. *)
Definition settled_at (now : Z) (net : network) : Z :=
  match net with
  | Responds ms _ | Fails ms _ => now + ms
  | Silent => now
  end.

(** The object [{ 'Content-Type': 'application/json' }]. *)
Definition content_type : gmap jsstring jsstring :=
  {[ lit "Content-Type" := lit "application/json" ]}.

(** [{ ...defaults, ...headers }]: a property of [headers] replaces the
    property of the same name. *)
Definition spread (defaults headers : gmap jsstring jsstring)
    : gmap jsstring jsstring :=
  headers ∪ defaults.

Definition option_truthy (o : option J) : bool :=
  match o with
  | Some v => truthy_value v
  | None => false
  end.

(** The call [apiRequest] issues. *)
Definition api_call (endpoint : jsstring) (options : APIRequestOptions) : fetch_call :=
  let method := default GET (method options) in
  {| url := endpoint;
     call_method := method;
     call_headers := spread content_type (headers options);
     call_body :=
       if option_truthy (body options) && negb (method_eqb method GET)
       then stringify <$> body options else None;
     abort_after := Some (default 30000%Z (timeout options)) |}.

(** The [catch] block of [apiRequest]. *)
Definition api_catch (error : Error) : Error :=
  if bool_decide (name error = lit "AbortError")
  then new_Error (lit "Request timeout")
  else error.

(** The cache key, whether the call goes through the cache, and whether the
    cache answers it. *)
Definition cache_key (endpoint : jsstring) (options : APIRequestOptions) : jsstring :=
  if method_eqb (default GET (method options)) GET
  then endpoint ++ stringify (if option_truthy (body options)
                             then default empty_object (body options)
                             else empty_object)
  else [].

Definition uses_cache (endpoint : jsstring) (options : APIRequestOptions) : bool :=
  default false (cache options) && truthy (cache_key endpoint options)
  && method_eqb (default GET (method options)) GET.

Definition cache_lookup (now : Z) (store : gmap jsstring (CacheEntry J))
    (endpoint : jsstring) (options : APIRequestOptions)
    : J * gmap jsstring (CacheEntry J) :=
  if uses_cache endpoint options
  then get null now store (cache_key endpoint options)
  else (null, store).

Definition cache_hit (now : Z) (store : gmap jsstring (CacheEntry J))
    (endpoint : jsstring) (options : APIRequestOptions) : bool :=
  uses_cache endpoint options
  && truthy_value (cache_lookup now store endpoint options).1.

Definition apiRequest (now : Z) (store : gmap jsstring (CacheEntry J))
    (endpoint : jsstring) (options : APIRequestOptions) (net : network)
    : settled J * gmap jsstring (CacheEntry J) :=
  let lookup := cache_lookup now store endpoint options in
  if cache_hit now store endpoint options then (Resolves lookup.1, lookup.2)
  else
    let store := lookup.2 in
    match fetch (api_call endpoint options) net with
    | Resolves response =>
        if negb (ok response)
        then (Rejects (api_catch (new_Error
                (lit "HTTP " ++ decimal (status response) ++ lit ": "
                 ++ statusText response))), store)
        else
          match json response with
          | Resolves data =>
              (Resolves data,
               if uses_cache endpoint options
               then set (settled_at now net) store (cache_key endpoint options)
                      data (cacheTTL options)
               else store)
          | Rejects error => (Rejects (api_catch error), store)
          | Hangs => (Hangs, store)
          end
    | Rejects error => (Rejects (api_catch error), store)
    | Hangs => (Hangs, store)
    end.

(** The call [generateAnalysis] issues: no signal. *)
Definition generate_call (request_body : jsstring) : fetch_call :=
  {| url := lit "/api/generate";
     call_method := POST;
     call_headers := content_type;
     call_body := Some request_body;
     abort_after := None |}.

Definition generate_failed : Error :=
  new_Error (lit "Failed to generate analysis. Please try again.").

(** [generateAnalysis]: whatever is thrown in the [try] block is logged and
    replaced by one error.  [request_body] is
    [JSON.stringify({ listing })]; the sources are [[]] without a header. *)
Definition generateAnalysis (empty_array : J) (request_body : jsstring)
    (net : network) : settled (jsstring * J) :=
  match fetch (generate_call request_body) net with
  | Resolves response =>
      if negb (ok response) then Rejects generate_failed
      else
        match text response with
        | Resolves content =>
            match x_sources response with
            | None => Resolves (content, empty_array)
            | Some (Some sources) => Resolves (content, sources)
            | Some None => Rejects generate_failed
            end
        | Rejects _ => Rejects generate_failed
        | Hangs => Hangs
        end
  | Rejects _ => Rejects generate_failed
  | Hangs => Hangs
  end.

(** [generateABTest], [generatePromoContent] and [generateFAQs] by their
    endpoint: a POST through [apiRequest] with a timeout of 15 seconds. *)
Definition follow_up_options (request : J) : APIRequestOptions :=
  {| method := Some POST; body := Some request; headers := ∅;
     cache := None; cacheTTL := None; timeout := Some 15000%Z |}.

Definition generateABTest now store (request : J) :=
  apiRequest now store (lit "/api/ab-test") (follow_up_options request).
Definition generatePromoContent now store (request : J) :=
  apiRequest now store (lit "/api/promo") (follow_up_options request).
Definition generateFAQs now store (request : J) :=
  apiRequest now store (lit "/api/faq") (follow_up_options request).

End Requests.

End Net.

(** ** The response formatter (index.tsx, [formatAIResponseWithAsterisks])

    The pattern of the bold markup has a character class that matches one
    code unit, which the fragment of the parser lacks; [xregex] adds it,
    with a sequence and a capture group over it. *)

Module Format.
Import JS Parser.

Inductive xregex : Type :=
| Re (r : regex)
| Class (cls : N → bool)
| Then (r1 r2 : xregex)
| Capture (r : xregex).

Fixpoint xmatch (m : bool) (r : xregex) (x : mstate) (k : cont) : option mstate :=
  match r with
  | Re r' => rmatch m r' x k
  | Class cls =>
      match after x with
      | c :: aft => if cls c then k (MState (c :: before x) aft (group1 x)) else None
      | [] => None
      end
  | Then r1 r2 => xmatch m r1 x (fun y => xmatch m r2 y k)
  | Capture r' =>
      xmatch m r' x (fun y =>
        k (MState (before y) (after y)
             (Some (take (length (before y) - length (before x)) (after x)))))
  end.

(** A match attempt at one position of the input, which is given by the
    code units before the position (last one first) and after it. *)
Definition exec : Type := jsstring → jsstring → option jsmatch.

Definition xmatch_at (m : bool) (r : xregex) : exec := fun bef aft =>
  match xmatch m r (MState bef aft None) Some with
  | Some y =>
      Some {| index := length bef;
              whole := take (length (before y) - length bef) aft;
              capture := group1 y |}
  | None => None
  end.

(** The successive matches of a [g] expression, as [scan_all] finds them. *)
Fixpoint scan (e : exec) (skip : nat) (bef aft : jsstring) : list jsmatch :=
  match skip with
  | S skip' =>
      match aft with
      | c :: aft' => scan e skip' (c :: bef) aft'
      | [] => []
      end
  | O =>
      match e bef aft with
      | Some mt =>
          mt :: match aft with
                | c :: aft' => scan e (Nat.pred (length (whole mt))) (c :: bef) aft'
                | [] => []
                end
      | None =>
          match aft with
          | c :: aft' => scan e O (c :: bef) aft'
          | [] => []
          end
      end
  end.

(** [s.replace(re, replacement)] for a [g] expression: the text between the
    matches is kept, each match gives way to its replacement, and a match
    that begins before the end of the last one is passed over. *)
Fixpoint splice (s : jsstring) (nextSourcePosition : nat) (results : list jsmatch)
    (replacement : jsmatch → jsstring) : jsstring :=
  match results with
  | [] => substring s nextSourcePosition (length s)
  | result :: results' =>
      if (nextSourcePosition <=? index result)%nat
      then substring s nextSourcePosition (index result) ++ replacement result
           ++ splice s (index result + length (whole result)) results' replacement
      else splice s nextSourcePosition results' replacement
  end.

Definition replace_all (s : jsstring) (e : exec) (replacement : jsmatch → jsstring)
    : jsstring :=
  splice s 0 (scan e O [] s) replacement.

(** [s.split(re)] for an expression without capture groups and no limit.
    [piece] holds the code units since the end of the last separator, last
    one first; a match is tried at each position; an empty match right at
    the end of the last separator is passed over. *)
Fixpoint split_scan (e : exec) (skip : nat) (piece bef aft : jsstring)
    : list jsstring :=
  match aft with
  | [] => [rev piece]
  | c :: aft' =>
      match skip with
      | S skip' => split_scan e skip' [] (c :: bef) aft'
      | O =>
          match e bef aft with
          | None => split_scan e O (c :: piece) (c :: bef) aft'
          | Some z =>
              match length (whole z), piece with
              | O, [] => split_scan e O [c] (c :: bef) aft'
              | O, _ :: _ => rev piece :: split_scan e O [c] (c :: bef) aft'
              | S n, _ => rev piece :: split_scan e n [] (c :: bef) aft'
              end
          end
      end
  end.

Definition split_re (s : jsstring) (e : exec) : list jsstring :=
  match s with
  | [] => match e [] [] with Some _ => [] | None => [[]] end
  | _ :: _ => split_scan e O [] [] s
  end.

Definition not_star (c : N) : bool := negb (c =? 42).

(** The regular expression "/\*\*([^*]+)\*\*/g". *)
Definition bold_re : xregex :=
  Then (Re (Lit (lit "**")))
    (Then (Capture (Then (Class not_star) (Re (Star true not_star))))
       (Re (Lit (lit "**")))).

(** The replacement "<strong>$1</strong>". *)
Definition strong (result : jsmatch) : jsstring :=
  lit "<strong>" ++ default [] (capture result) ++ lit "</strong>".

(** The regular expression "/\n\s*(?=\*)/". *)
Definition paragraph_re : RegExp :=
  {| pattern := seq [Lit [LF]; spaces; Lookahead (Lit (lit "*"))];
     global := false; multiline := false |}.

(** The regular expression "/\n/g". *)
Definition line_feed_re : RegExp :=
  {| pattern := Lit [LF]; global := true; multiline := false |}.

Definition startsWith (s l : jsstring) : bool := bool_decide (is_Some (eat l s)).

(** [p => { ... }]: one paragraph. *)
Definition html_paragraph (p : jsstring) : jsstring :=
  let content := trim p in
  let content :=
    if startsWith content (lit "*")
    then trim (substring content 1 (length content))
    else content in
  lit "<p>" ++ replace_all content (match_at line_feed_re) (fun _ => lit "<br>")
  ++ lit "</p>".

Definition formatAIResponseWithAsterisks (rawText : jsstring) : jsstring :=
  if negb (truthy rawText) then []
  else
    let withBold := replace_all rawText (xmatch_at false bold_re) strong in
    let paragraphs := split_re withBold (match_at paragraph_re) in
    let htmlParagraphs := html_paragraph <$> paragraphs in
    concat htmlParagraphs.

End Format.

(** ** The debounced function (utils/dom.ts, [debounce])

    What happens to the function [debounce] returns is a sequence of events:
    it is called, or the runtime runs the callback of a timer that is due.
    The state holds the timers that are set, by their id, each with the time
    at which it is due and the arguments its callback passes to [func]; the
    variable [timeout] of the closure; and the calls of [func] so far. *)

Module Debounce.

Section Debounce.
Context {A : Type}.

Record state := {
  timers : gmap nat (Z * A);
  next_id : nat;
  timeout : option nat;
  invoked : list (Z * A)
}.

Definition initial : state :=
  {| timers := ∅; next_id := 1; timeout := None; invoked := [] |}.

(** [clearTimeout(id)]: nothing happens for [undefined] and for the id of a
    timer that is not set. *)
Definition clearTimeout (id : option nat) (ts : gmap nat (Z * A)) : gmap nat (Z * A) :=
  match id with
  | Some i => delete i ts
  | None => ts
  end.

(** [(...args) => { clearTimeout(timeout); timeout = setTimeout(..., wait) }]
    at the time [now]; a negative delay counts as zero. *)
Definition call (wait now : Z) (args : A) (s : state) : state :=
  let ts := clearTimeout (timeout s) (timers s) in
  let id := next_id s in
  {| timers := <[id := ((now + Z.max 0 wait)%Z, args)]> ts;
     next_id := S id;
     timeout := Some id;
     invoked := invoked s |}.

(** The runtime runs the callback of the timer [id], which is set and due:
    [func.apply(null, args)]. *)
Definition fire (now : Z) (id : nat) (s : state) : option state :=
  match timers s !! id with
  | Some (due, args) =>
      if (due <=? now)%Z
      then Some {| timers := delete id (timers s);
                   next_id := next_id s;
                   timeout := timeout s;
                   invoked := invoked s ++ [(now, args)] |}
      else None
  | None => None
  end.

Inductive event : Type :=
| Call (now : Z) (args : A)
| Fire (now : Z) (id : nat).

Definition step (wait : Z) (s : state) (ev : event) : option state :=
  match ev with
  | Call now args => Some (call wait now args s)
  | Fire now id => fire now id s
  end.

Fixpoint run (wait : Z) (evs : list event) (s : state) : option state :=
  match evs with
  | [] => Some s
  | ev :: evs' =>
      match step wait s ev with
      | Some s' => run wait evs' s'
      | None => None
      end
  end.

End Debounce.

Arguments state A : clear implicits.
Arguments event A : clear implicits.

End Debounce.

(** ** Copying to the clipboard (the optimized main module,
    [copyToClipboard])

    What happens to one copy button is a sequence of events: the promise
    of [navigator.clipboard.writeText] of a call settles and the call goes
    on, or the runtime runs the callback of a timer that is due.  The
    state holds the text of the button and whether it has the class
    [copied], the timers set, each with the time at which it is due and the
    text its callback writes back, and the time of the last event. *)

Module Clipboard.
Import JS.

Record copy_button := {
  textContent : jsstring;
  copied : bool
}.

Record state := {
  button : copy_button;
  timers : gmap nat (Z * jsstring);
  next_id : nat;
  clock : Z
}.

(** How [writeText] settled; when it was rejected, whether
    [document.execCommand] throws. *)
Inductive written : Type :=
| Fulfilled
| Rejected (fallback_throws : bool).

(** The button shows [Copied!], and a timer of two seconds is set whose
    callback writes [restore] back. *)
Definition show_copied (restore : jsstring) (now : Z) (s : state) : state :=
  {| button := {| textContent := lit "Copied!"; copied := true |};
     timers := <[next_id s := ((now + 2000)%Z, restore)]> (timers s);
     next_id := S (next_id s);
     clock := now |}.

(** [copyToClipboard(text, button)] from its [await] on: in the [try] block
    the text the button has is what the timer restores, in the fallback it
    is [Copy]. *)
Definition copyToClipboard (w : written) (now : Z) (s : state) : state :=
  match w with
  | Fulfilled => show_copied (textContent (button s)) now s
  | Rejected false => show_copied (lit "Copy") now s
  | Rejected true =>
      {| button := button s; timers := timers s; next_id := next_id s;
         clock := now |}
  end.

(** The callback of the timer [id], which is set and due. *)
Definition timer (now : Z) (id : nat) (s : state) : option state :=
  match timers s !! id with
  | Some (due, restore) =>
      if (due <=? now)%Z
      then Some {| button := {| textContent := restore; copied := false |};
                   timers := delete id (timers s);
                   next_id := next_id s;
                   clock := now |}
      else None
  | None => None
  end.

Inductive event : Type :=
| Copy (now : Z) (w : written)
| Timer (now : Z) (id : nat).

Definition time_of (ev : event) : Z :=
  match ev with
  | Copy now _ | Timer now _ => now
  end.

(** Time does not go back. *)
Definition step (s : state) (ev : event) : option state :=
  if (time_of ev <? clock s)%Z then None
  else
    match ev with
    | Copy now w => Some (copyToClipboard w now s)
    | Timer now id => timer now id s
    end.

Fixpoint run (evs : list event) (s : state) : option state :=
  match evs with
  | [] => Some s
  | ev :: evs' =>
      match step s ev with
      | Some s' => run evs' s'
      | None => None
      end
  end.

End Clipboard.

(** ** The handlers of the page (the optimized main module)

    A button is what [renderApp] and [displayResults] create: its text in
    an element of class [btn-text], before which [setButtonLoading] puts the
    loader.  The results container, without which [initializeApp] sets up
    no handler, holds what the last assignment to its [innerHTML] wrote:
    nothing, an error message, or the analysis, whose markup has the
    element [extra-tools-results] that the results of the follow-up tools
    are appended to.  JSON values are of a type [J]; what the code does
    with them beyond what [apiRequest] does is a parameter. *)

Module App.
Import JS Parser Cache Net.

Record button := {
  disabled : bool;
  loaders : nat;
  btn_text : jsstring;
  hidden : bool
}.

(** [setButtonLoading(button, isLoading, defaultText)] (utils/dom.ts): a
    loader is added when there is none, and the first one is removed. *)
Definition setButtonLoading (b : button) (isLoading : bool) (defaultText : jsstring)
    : button :=
  if isLoading
  then {| disabled := isLoading;
          loaders := match loaders b with O => 1 | S _ => loaders b end;
          btn_text := lit "Generating...";
          hidden := hidden b |}
  else {| disabled := isLoading;
          loaders := Nat.pred (loaders b);
          btn_text := defaultText;
          hidden := hidden b |}.

(** The callback of [validateInput], which [debounce] runs 300 ms after the
    last input event, with [listingInput.value] as it is then: the one
    other place that writes to the generate button. *)
Definition validateInput (listingInput_value : jsstring) (generateBtn : button)
    : button :=
  let value := trim listingInput_value in
  {| disabled := negb (truthy value);
     loaders := loaders generateBtn;
     btn_text := btn_text generateBtn;
     hidden := hidden generateBtn |}.

Inductive tool := ABTest | Promo | FAQ.

Section Page.
Context {J : Type} (null : J) (truthy_value : J → bool)
  (stringify : J → jsstring) (empty_object empty_array : J).

(** The analysis the page works with: the fields the parser found, and the
    sources that the handler adds. *)
Record shown_analysis := {
  fields : ListingAnalysis;
  web_sources : J
}.

(** [JSON.stringify({ listing })], the value [{ analysis }], [result.faqs]
    (nothing when reading the property throws), and whether the templates
    of [displayResults] and of the display function of a tool can be built
    from a value, or building them throws. *)
Context (listing_request : jsstring → jsstring)
  (analysis_request : shown_analysis → J)
  (faqs_of : J → option J)
  (renders_sources : J → bool)
  (renders : tool → J → bool).

Inductive results : Type :=
| Cleared
| ErrorMessage (message : jsstring)
| Results (analysis : shown_analysis) (extra : list (tool * J)).

Record page := {
  results_container : results;
  currentAnalysis : option shown_analysis;
  originalListing : option jsstring;
  currentFAQs : option J
}.

(** [displayError(message)] (utils/dom.ts) *)
Definition displayError (message : jsstring) (p : page) : page :=
  {| results_container := ErrorMessage message;
     currentAnalysis := currentAnalysis p;
     originalListing := originalListing p;
     currentFAQs := currentFAQs p |}.

(** What a display function leaves, and whether it threw. *)
Definition displayed : Type := page * bool.

(** [displayResults(analysis)]: the state is set first, then the templates
    are built, then the container is written. *)
Definition displayResults (analysis : shown_analysis) (p : page) : displayed :=
  let p :=
    {| results_container := results_container p;
       currentAnalysis := Some analysis;
       originalListing := originalListing p;
       currentFAQs := currentFAQs p |} in
  if renders_sources (web_sources analysis)
  then ({| results_container := Results analysis [];
           currentAnalysis := currentAnalysis p;
           originalListing := originalListing p;
           currentFAQs := currentFAQs p |}, false)
  else (p, true).

(** [displayABTestVariations], [displayPromoContent] and [displayFAQs]:
    without the element [extra-tools-results] they return at once;
    [displayFAQs] sets the state before it builds its template. *)
Definition display_tool (t : tool) (value : J) (p : page) : displayed :=
  match results_container p with
  | Results analysis extra =>
      let p :=
        {| results_container := results_container p;
           currentAnalysis := currentAnalysis p;
           originalListing := originalListing p;
           currentFAQs := match t with
                          | FAQ => Some value
                          | _ => currentFAQs p
                          end |} in
      if renders t value
      then ({| results_container := Results analysis (extra ++ [(t, value)]);
               currentAnalysis := currentAnalysis p;
               originalListing := originalListing p;
               currentFAQs := currentFAQs p |}, false)
      else (p, true)
  | _ => (p, false)
  end.

Definition please_paste : jsstring :=
  lit "Please paste your product listing to get started.".

Definition empty_response : jsstring :=
  lit "The AI returned an empty response. Please try again.".

Definition communication_error : jsstring :=
  lit "An error occurred while communicating with the server. "
  ++ lit "Please check your connection and try again.".

(** What a handler leaves: its promise, the button it was given, the page. *)
Record handled := {
  promise : settled unit;
  its_button : button;
  its_page : page
}.

(** [handleInitialGeneration], with [listingInput.value]. *)
Definition handleInitialGeneration (value : jsstring) (net : network (J := J))
    (generateBtn : button) (p : page) : handled :=
  let listing := trim value in
  if negb (truthy listing)
  then {| promise := Resolves ();
          its_button := generateBtn;
          its_page := displayError please_paste p |}
  else
    let p :=
      {| results_container := Cleared;
         currentAnalysis := currentAnalysis p;
         originalListing := Some listing;
         currentFAQs := currentFAQs p |} in
    let loading := setButtonLoading generateBtn true (lit "Analyze Listing") in
    let finally := setButtonLoading loading false (lit "Analyze Listing") in
    let caught (p : page) :=
      {| promise := Resolves ();
         its_button := finally;
         its_page := displayError communication_error p |} in
    match generateAnalysis empty_array (listing_request listing) net with
    | Hangs => {| promise := Hangs; its_button := loading; its_page := p |}
    | Rejects error => caught p
    | Resolves (content, sources) =>
        if truthy content
        then
          match parseAnalysisFromText content with
          | Throw _ => caught p
          | Normal analysis =>
              let shown :=
                displayResults {| fields := analysis; web_sources := sources |} p in
              if shown.2 then caught shown.1
              else {| promise := Resolves ();
                      its_button := finally;
                      its_page := shown.1 |}
          end
        else {| promise := Resolves ();
                its_button := finally;
                its_page := displayError empty_response p |}
    end.

Definition default_text (t : tool) : jsstring :=
  match t with
  | ABTest => lit "Generate A/B Tests"
  | Promo => lit "Draft Promo Content"
  | FAQ => lit "Generate FAQs"
  end.

Definition failure_message (t : tool) : jsstring :=
  match t with
  | ABTest => lit "Sorry, there was an error generating A/B tests."
  | Promo => lit "Sorry, there was an error generating promotional content."
  | FAQ => lit "Sorry, there was an error generating FAQs."
  end.

Definition generate (t : tool) (now : Z) (store : gmap jsstring (CacheEntry J))
    (request : J) (net : network (J := J))
    : settled J * gmap jsstring (CacheEntry J) :=
  match t with
  | ABTest =>
      generateABTest null truthy_value stringify empty_object now store request net
  | Promo =>
      generatePromoContent null truthy_value stringify empty_object now store
        request net
  | FAQ =>
      generateFAQs null truthy_value stringify empty_object now store request net
  end.

(** The [try] block after the [await]: [displayFAQs(result.faqs)] for the
    FAQs, the display function on the result for the others. *)
Definition display_result (t : tool) (result : J) (p : page) : displayed :=
  match t with
  | FAQ =>
      match faqs_of result with
      | Some faqs => display_tool FAQ faqs p
      | None => (p, true)
      end
  | _ => display_tool t result p
  end.

(** [handleABTestGeneration], [handlePromoGeneration] and
    [handleFAQGeneration], by their tool. *)
Definition handle_follow_up (t : tool) (now : Z)
    (store : gmap jsstring (CacheEntry J)) (net : network (J := J))
    (button : button) (p : page) : handled :=
  match currentAnalysis p with
  | None => {| promise := Resolves (); its_button := button; its_page := p |}
  | Some analysis =>
      let loading := setButtonLoading button true (default_text t) in
      match (generate t now store (analysis_request analysis) net).1 with
      | Hangs => {| promise := Hangs; its_button := loading; its_page := p |}
      | Rejects error =>
          {| promise := Resolves ();
             its_button := setButtonLoading loading false (default_text t);
             its_page := displayError (failure_message t) p |}
      | Resolves result =>
          let shown := display_result t result p in
          if shown.2
          then {| promise := Resolves ();
                  its_button := setButtonLoading loading false (default_text t);
                  its_page := displayError (failure_message t) shown.1 |}
          else {| promise := Resolves ();
                  its_button :=
                    setButtonLoading
                      {| disabled := disabled loading; loaders := loaders loading;
                         btn_text := btn_text loading; hidden := true |}
                      false (default_text t);
                  its_page := shown.1 |}
      end
  end.

Definition handleABTestGeneration := handle_follow_up ABTest.
Definition handlePromoGeneration := handle_follow_up Promo.
Definition handleFAQGeneration := handle_follow_up FAQ.

End Page.

Arguments page J : clear implicits.
Arguments results J : clear implicits.
Arguments handled J : clear implicits.
Arguments shown_analysis J : clear implicits.

End App.

(** [setButtonLoading] as index.tsx has it: a loader is added at each call
    that sets the button loading. *)

Module FirstBuild.
Import JS App.

Definition setButtonLoading (b : button) (isLoading : bool) (defaultText : jsstring)
    : button :=
  if isLoading
  then {| disabled := isLoading;
          loaders := S (loaders b);
          btn_text := lit "Generating...";
          hidden := hidden b |}
  else {| disabled := isLoading;
          loaders := Nat.pred (loaders b);
          btn_text := defaultText;
          hidden := hidden b |}.

End FirstBuild.

(** * Part II: the terms of the statements *)

(** ** What a pattern matches *)

Module Semantics.
Import JS.

(** The declarative reading of a pattern: [reaches m r x x'] when [r] can
    take the state [x] to the state [x']. *)
Fixpoint reaches (m : bool) (r : regex) (x x' : mstate) : Prop :=
  match r with
  | Lit l =>
      after x = l ++ after x' ∧ before x' = rev l ++ before x
      ∧ group1 x' = group1 x
  | Star _ cls =>
      ∃ w, Forall (λ c, cls c = true) w ∧ after x = w ++ after x'
           ∧ before x' = rev w ++ before x ∧ group1 x' = group1 x
  | Seq r1 r2 => ∃ mid, reaches m r1 x mid ∧ reaches m r2 mid x'
  | Alt r1 r2 => reaches m r1 x x' ∨ reaches m r2 x x'
  | Lookahead r' =>
      ∃ y, reaches m r' x y ∧ x' = MState (before x) (after x) (group1 y)
  | Group r' =>
      ∃ y, reaches m r' x y
           ∧ x' = MState (before y) (after y)
                    (Some (take (length (before y) - length (before x)) (after x)))
  | Bol => x' = x ∧ at_line_start m x = true
  | Eol => x' = x ∧ at_line_end m x = true
  end.

(** A pattern sets capture group 1 on every path. *)
Fixpoint sets_group (r : regex) : bool :=
  match r with
  | Group _ => true
  | Seq r1 r2 => sets_group r1 || sets_group r2
  | Alt r1 r2 => sets_group r1 && sets_group r2
  | _ => false
  end.

(** A pattern without a capture group leaves group 1 as it was. *)
Fixpoint no_group (r : regex) : bool :=
  match r with
  | Group _ => false
  | Seq r1 r2 | Alt r1 r2 => no_group r1 && no_group r2
  | Lookahead r' => no_group r'
  | _ => true
  end.

End Semantics.

(** ** The section patterns of the parser *)

Module Shapes.
Import JS Parser Semantics.

(** The shape shared by the section patterns: the hashes, spaces, the
    title, spaces, the lazily captured body, and a lookahead for the stop
    pattern or the end of the text. *)
Definition section_pattern (hashes title : jsstring) (stop : regex) : regex :=
  seq [Lit hashes; spaces; Lit title; spaces; Group (Star false any_char);
       Lookahead (Alt stop Eol)].

Definition all_space (w : jsstring) : Prop := Forall (λ c, is_space c = true) w.

Definition starts_nonspace (s : jsstring) : Prop :=
  match s with
  | c :: _ => is_space c = false
  | [] => False
  end.

(** [s] begins with the header: the hashes, any white space, the title. *)
Definition header_here (hashes title s : jsstring) : Prop :=
  ∃ w q, all_space w ∧ s = hashes ++ w ++ title ++ q.

(** [l] occurs in [s]. *)
Definition occurs_in (l s : jsstring) : Prop := ∃ p q, s = p ++ l ++ q.

(** No header begins at a position inside [pre], in the text [pre ++ s]. *)
Definition no_header_in (hashes title pre s : jsstring) : Prop :=
  ∀ p1 p2, pre = p1 ++ p2 → p2 ≠ [] → ¬ header_here hashes title (p2 ++ s).

(** *** The stop literal of the assessment and tags patterns *)

Definition next_header : jsstring := LF :: lit "##".

End Shapes.

(** ** The fields of an analysis *)

Module Fields.
Import JS Parser Semantics Shapes.

(** The assessment and the keywords as the parser computes them. *)
Definition assessment_of (text : jsstring) : jsstring :=
  match str_match text assessment_re with
  | Some mt => from_option trim [] (capture mt)
  | None => []
  end.

Definition tags_of (text : jsstring) : list jsstring :=
  match str_match text tags_re with
  | Some mt => from_option keywords_of [] (capture mt)
  | None => []
  end.

(** *** Deciding the side conditions on a concrete text *)

Fixpoint occursb (l s : jsstring) : bool :=
  match eat l s with
  | Some _ => true
  | None =>
      match s with
      | [] => false
      | _ :: s' => occursb l s'
      end
  end.

Definition headerb (hashes title s : jsstring) : bool :=
  match eat hashes s with
  | Some r => bool_decide (is_Some (eat title (skip_space r)))
  | None => false
  end.

Fixpoint no_header_inb (hashes title pre s : jsstring) : bool :=
  match pre with
  | [] => true
  | _ :: pre' =>
      negb (headerb hashes title (pre ++ s)) && no_header_inb hashes title pre' s
  end.

(** A header occurs somewhere in the text. *)
Definition header_occurs (hashes title text : jsstring) : Prop :=
  ∃ p s, text = p ++ s ∧ header_here hashes title s.

End Fields.

(** ** The sections as the specification reads them *)

Module Readings.
Import JS Parser Semantics Shapes Fields.

Definition hashes : jsstring := lit "##".
Definition assessment_title : jsstring := lit "Overall Assessment".
Definition tags_title : jsstring := lit "Suggested SEO Tags (13)".
Definition recommendations_title : jsstring := lit "Actionable Recommendations".

(** The reading of the assessment the specification gives: the text after
    the first header up to the next top-level header, a line that begins
    with two hashes and no third, or up to the end of the text; trimmed. *)
Definition top_level_header_here (s : jsstring) : bool :=
  match s with
  | 10 :: 35 :: 35 :: 35 :: _ => false
  | 10 :: 35 :: 35 :: _ => true
  | _ => false
  end.

Fixpoint upto_top_level_header (s : jsstring) : jsstring :=
  match s with
  | [] => []
  | c :: s' => if top_level_header_here s then [] else c :: upto_top_level_header s'
  end.

Fixpoint after_header (title s : jsstring) : option jsstring :=
  match eat hashes s with
  | Some r =>
      match eat title (skip_space r) with
      | Some body => Some body
      | None => match s with [] => None | _ :: s' => after_header title s' end
      end
  | None => match s with [] => None | _ :: s' => after_header title s' end
  end.

Definition spec_overall_assessment (text : jsstring) : jsstring :=
  match after_header assessment_title text with
  | Some body => trim (upto_top_level_header body)
  | None => []
  end.

Definition deeper_header_text : jsstring := text_of
  [ "## Overall Assessment"; "Good."; "### Details"; "More.";
    "## Actionable Recommendations" ].

(** *** The keyword lines *)

(** What the parser does to one line, said directly: one dash at the very
    start of the line is removed, then the line is trimmed. *)
Definition strip_bullet (line : jsstring) : jsstring :=
  trim (match line with
        | 45 :: line' => line'
        | _ => line
        end).

(** *** The recommendations, read line by line

    The reference reading of the specification: in the recommendations
    section every line "### Element: name" opens a candidate; its body is
    the lines up to the next such line or the end of the section; the
    suggestion is the text after "#### Suggestion:" up to the
    "#### Reasoning:" line or the end of the body, the reasoning the text
    after "#### Reasoning:" to the end of the body; a candidate is kept when
    its name is not empty and its suggestion or its reasoning is not
    empty. *)

Definition labelled (marks label line : jsstring) : option jsstring :=
  match eat marks line with
  | Some r => eat label (skip_space r)
  | None => None
  end.

Definition element_line (line : jsstring) : option jsstring :=
  trim <$> labelled (lit "###") (lit "Element:") line.

Definition suggestion_line : jsstring → option jsstring :=
  labelled (lit "####") (lit "Suggestion:").

Definition reasoning_line : jsstring → option jsstring :=
  labelled (lit "####") (lit "Reasoning:").

Fixpoint lines_before {A} (stop : jsstring → option A) (ls : list jsstring)
    : list jsstring :=
  match ls with
  | [] => []
  | l :: ls' =>
      match stop l with
      | Some _ => []
      | None => l :: lines_before stop ls'
      end
  end.

Fixpoint spec_suggestion (body : list jsstring) : jsstring :=
  match body with
  | [] => []
  | l :: body' =>
      match suggestion_line l with
      | Some t => trim (join_lf (t :: lines_before reasoning_line body'))
      | None => spec_suggestion body'
      end
  end.

Fixpoint spec_reasoning (body : list jsstring) : jsstring :=
  match body with
  | [] => []
  | l :: body' =>
      match reasoning_line l with
      | Some t => trim (join_lf (t :: body'))
      | None => spec_reasoning body'
      end
  end.

Fixpoint spec_candidates (ls : list jsstring) : list Recommendation :=
  match ls with
  | [] => []
  | l :: ls' =>
      match element_line l with
      | Some name =>
          let body := lines_before element_line ls' in
          {| element := name;
             suggestion := spec_suggestion body;
             reasoning := spec_reasoning body |} :: spec_candidates ls'
      | None => spec_candidates ls'
      end
  end.

Definition spec_keep (r : Recommendation) : bool :=
  truthy (element r) && (truthy (suggestion r) || truthy (reasoning r)).

Definition spec_recommendations (text : jsstring) : list Recommendation :=
  match str_match text recommendations_re with
  | Some mt =>
      from_option (λ section, List.filter spec_keep (spec_candidates (split_lf section)))
        [] (capture mt)
  | None => []
  end.

Definition two_recommendations : jsstring := text_of
  [ "## Overall Assessment";
    "The listing is **good** but short.";
    "";
    "## Actionable Recommendations";
    "### Element: Title";
    "#### Suggestion: Add the material.";
    "#### Reasoning: Buyers search by material.";
    "### Element: Description";
    "#### Suggestion: Mention the size.";
    "#### Reasoning: Size matters.";
    "";
    "## Suggested SEO Tags (13)";
    "- rustic decor" ].

Definition unnamed_element : jsstring := text_of
  [ "## Actionable Recommendations";
    "### Element:";
    "#### Suggestion: Add the material.";
    "#### Reasoning: Buyers search by material." ].

Definition unnamed_then_named : jsstring := text_of
  [ "## Actionable Recommendations";
    "### Element:";
    "### Element: Title";
    "#### Suggestion: Add the material." ].

Definition empty_fields : jsstring := text_of
  [ "## Actionable Recommendations";
    "### Element: Title";
    "#### Suggestion:";
    "#### Reasoning:";
    "" ].

(** *** A section that is absent

    The reading of the specification: a section is there when a line of the
    text is its header line, that is, begins with two hashes, white space
    or none, and the title; otherwise it is absent. *)

Definition spec_header_line (title line : jsstring) : bool :=
  bool_decide (is_Some (labelled hashes title line)).

Definition spec_section_absent (title text : jsstring) : bool :=
  forallb (λ line, negb (spec_header_line title line)) (split_lf text).





(** A tags section with the count 10, and a remark that names the header
    the parser looks for. *)
Definition other_count_title : jsstring := lit "Suggested SEO Tags (10)".

Definition other_count_with_remark : jsstring := text_of
  [ "## Suggested SEO Tags (10)";
    "- wood sign";
    "- rustic decor";
    "";
    "Note: the ## Suggested SEO Tags (13) are weak." ].

(** A tags section with the count 10, after a line that has the literal of
    the header without the hashes. *)
Definition other_count_text : jsstring := text_of
  [ "The Suggested SEO Tags (13) follow.";
    "## Suggested SEO Tags (10)";
    "- wood sign";
    "- rustic decor" ].

End Readings.

(** ** The invariant of the request queue *)

Module QueueInvariant.
Import Queue.

Section Facts.
Context {V E : Type}.
Implicit Types (s : state V E) (t : task) (o : outcome V E) (ev : event V E).

(** The invariant of the queue: tasks are submitted once; the submitted
    tasks are the started ones followed by the waiting ones; a started task
    runs or has settled; the counter counts the tasks that run or await
    their finally block, and stays within the ceiling. *)
Record wf s : Prop := {
  wf_nodup : NoDup (started s ++ queue s);
  wf_fifo : submitted s = started s ++ queue s;
  wf_running : ∀ t, t ∈ running s → t ∈ started s;
  wf_running_nodup : NoDup (running s);
  wf_returned : ∀ t, is_Some (returned s !! t) → t ∈ started s ∧ t ∉ running s;
  wf_count : activeRequests s = (length (running s) + length (finishing s))%nat;
  wf_ceiling : (activeRequests s ≤ maxConcurrent)%nat
}.

(** No task waits while a slot is free. *)
Definition busy s : Prop := queue s = [] ∨ activeRequests s = maxConcurrent.

End Facts.

End QueueInvariant.

(** ** Five tasks added at once *)

Module QueueScenario.
Import Queue QueueInvariant.

(** Five tasks added to the fresh queue: three run, two wait. *)
Definition five_added {V E} : state V E :=
  {| queue := [4; 5]; activeRequests := 3; running := [1; 2; 3];
     finishing := []; returned := ∅; submitted := [1; 2; 3; 4; 5];
     started := [1; 2; 3] |}%nat.

End QueueScenario.

(** ** Networks and error messages *)

Module NetTerms.
Import JS Cache Net.

(** The call did not settle before [t] milliseconds had passed. *)
Definition late {J} (t : Z) (net : network (J := J)) : Prop :=
  match net with
  | Responds ms _ | Fails ms _ => (t ≤ ms)%Z
  | Silent => True
  end.

Definition server_error (st : N) (txt : jsstring) : Error :=
  new_Error (lit "HTTP " ++ decimal st ++ lit ": " ++ txt).

Definition request_timeout : Error := new_Error (lit "Request timeout").


Definition failed_to_fetch : Error :=
  {| name := lit "TypeError"; message := lit "Failed to fetch" |}.

End NetTerms.

(** ** Well-formed recommendation entries *)

Module Entries.
Import JS Parser Semantics Shapes Fields Readings.

(** An entry as the generation endpoint is asked to write it: three lines,
    each field on its own line. *)
Record entry := {
  entry_name : jsstring;
  entry_suggestion : jsstring;
  entry_reasoning : jsstring
}.

Definition element_mark : jsstring := lit "### Element: ".
Definition suggestion_mark : jsstring := lit "#### Suggestion: ".
Definition reasoning_mark : jsstring := lit "#### Reasoning: ".

Definition entry_lines (e : entry) : list jsstring :=
  [ element_mark ++ entry_name e;
    suggestion_mark ++ entry_suggestion e;
    reasoning_mark ++ entry_reasoning e ].

Definition entries_text (es : list entry) : jsstring :=
  join_lf (es ≫= entry_lines).

Definition single_line (s : jsstring) : Prop :=
  Forall (λ c, is_line_terminator c = false) s.

(** Each field begins with a character that is not white space and stays
    on its line; the suggestion holds no run of four hashes. *)
Record well_formed (e : entry) : Prop := {
  wf_name : starts_nonspace (entry_name e) ∧ single_line (entry_name e);
  wf_suggestion :
    starts_nonspace (entry_suggestion e) ∧ single_line (entry_suggestion e)
    ∧ ¬ occurs_in (lit "####") (entry_suggestion e);
  wf_reasoning :
    starts_nonspace (entry_reasoning e) ∧ single_line (entry_reasoning e)
}.

Definition record_of (e : entry) : Recommendation :=
  {| element := trim (entry_name e);
     suggestion := trim (entry_suggestion e);
     reasoning := trim (entry_reasoning e) |}.

(** *** The element pattern on an element line *)

Definition line_start (bef : jsstring) : Prop :=
  match bef with
  | [] => True
  | c :: _ => is_line_terminator c = true
  end.

Definition line_end (aft : jsstring) : Prop :=
  match aft with
  | [] => True
  | c :: _ => is_line_terminator c = true
  end.

(** *** Scanning the lines of an entry *)

Definition entry_text (e : entry) : jsstring := join_lf (entry_lines e).

Definition element_match (i : nat) (e : entry) : jsmatch :=
  {| index := i; whole := element_mark ++ entry_name e;
     capture := Some (entry_name e) |}.

Definition element_tail : regex :=
  seq [Lit (lit "###"); spaces; Lit (lit "Element:"); spaces; Group (Star true dot)].

(** The matches of the element pattern in the text of the entries. *)
Fixpoint matches_of (i : nat) (es : list entry) : list jsmatch :=
  match es with
  | [] => []
  | e :: es' => element_match i e :: matches_of (i + length (entry_text e) + 1) es'
  end.

(** *** The fields of one entry *)

Definition reasoning_stop : regex :=
  seq [Lit (LF :: lit "####"); spaces; Lit (lit "Reasoning:")].

Definition reasoning_body : regex :=
  seq [spaces; Group (Star true any_char)].

Definition fields_text (e : entry) : jsstring :=
  LF :: suggestion_mark ++ entry_suggestion e ++ LF
     :: reasoning_mark ++ entry_reasoning e.

(** *** The recommendations section of well-formed entries *)

Definition tags_stop : regex :=
  seq [Lit next_header; spaces; Lit (lit "Suggested SEO Tags")].

End Entries.

(** ** The answer in the layout asked for *)

Module ResponseTerms.
Import JS Parser Shapes Readings Entries.

(** A text without two hashes in a row. *)
Definition no_hashes (s : jsstring) : Prop := ¬ occurs_in hashes s.

Definition plain_entry (e : entry) : Prop :=
  no_hashes (entry_name e) ∧ no_hashes (entry_suggestion e)
  ∧ no_hashes (entry_reasoning e).

(** The answer the generation endpoint is asked to write: the three
    sections in their order, each header on a line of its own. *)
Definition response (assessment : jsstring) (es : list entry)
    (tags : list jsstring) : jsstring :=
  lit "## Overall Assessment" ++ LF :: assessment ++ LF
  :: lit "## Actionable Recommendations" ++ LF :: entries_text es ++ LF
  :: lit "## Suggested SEO Tags (13)" ++ LF :: join_lf tags.

End ResponseTerms.

(** ** The formatter: texts and their pieces *)

Module FormatTerms.
Import JS Parser Format.

(** Every line feed replaced by a [<br>] element. *)
Definition line_breaks (s : jsstring) : jsstring :=
  s ≫= (fun c => if c =? LF then lit "<br>" else [c]).

Definition star_free (s : jsstring) : Prop := Forall (fun c => not_star c = true) s.

(** A match attempt of [e] yields its own position as index, and what it
    matched is read off the input. *)
Definition positional (e : exec) : Prop :=
  ∀ bef aft mt, e bef aft = Some mt →
    index mt = length bef ∧ ∃ rest, aft = whole mt ++ rest.

(** What [replace] makes of the text after a position. *)
Definition replace_from (e : exec) (replacement : jsmatch → jsstring)
    (bef aft : jsstring) : jsstring :=
  splice (rev bef ++ aft) (length bef) (scan e O bef aft) replacement.

(** [e] matches at no position of [pre], in the text [pre ++ aft]. *)
Definition fails_inside (e : exec) (bef pre aft : jsstring) : Prop :=
  ∀ p1 p2, pre = p1 ++ p2 → p2 ≠ [] → e (rev p1 ++ bef) (p2 ++ aft) = None.

(** A text in pieces: plain text, and text between two pairs of
    asterisks. *)
Inductive segment : Type :=
| Plain (s : jsstring)
| Bold (s : jsstring).

Definition source (g : segment) : jsstring :=
  match g with
  | Plain s => s
  | Bold s => lit "**" ++ s ++ lit "**"
  end.

Definition html (g : segment) : jsstring :=
  match g with
  | Plain s => s
  | Bold s => lit "<strong>" ++ s ++ lit "</strong>"
  end.

(** No asterisk inside a piece, and something between the asterisks of a
    bold one. *)
Definition segment_ok (g : segment) : Prop :=
  match g with
  | Plain s => star_free s
  | Bold s => star_free s ∧ s ≠ []
  end.

(** A line of a bullet list. *)
Definition bullet (item : jsstring) : jsstring := 42 :: item.

Definition paragraph_of (content : jsstring) : jsstring :=
  lit "<p>" ++ content ++ lit "</p>".

End FormatTerms.

(** ** Cached requests *)

Module CacheUseTerms.
Import JS Cache Net NetTerms.

(** The options of a cached GET request with a time to live of one minute. *)
Definition cached_get : APIRequestOptions (J := jsstring) :=
  {| method := None; body := None; headers := ∅; cache := Some true;
     cacheTTL := Some 60000%Z; timeout := None |}.

Definition answer (value : jsstring) : Response (J := jsstring) :=
  {| ok := true; status := 200; statusText := lit "OK";
     json := Resolves value; text := Hangs; x_sources := None |}.

End CacheUseTerms.

(** ** The queue once nothing more is added *)

Module QueueProgressTerms.
Import Queue.

(** An event other than a call of [add]. *)
Definition no_add {V E} (ev : event V E) : Prop :=
  match ev with
  | Add _ => False
  | _ => True
  end.

(** The number of finally blocks among the events. *)
Fixpoint completions {V E} (evs : list (event V E)) : nat :=
  match evs with
  | [] => 0
  | Finally _ :: evs' => S (completions evs')
  | _ :: evs' => completions evs'
  end.

(** Three tasks run and two wait; then the first two settle. *)
Definition two_completions : list (event nat nat) :=
  [Settle 1 (Fulfilled 10); Finally 1; Settle 2 (Rejected 20); Finally 2]%nat.

End QueueProgressTerms.

(** ** The timer of the debounced function *)

Module DebounceTerms.
Import Debounce.

(** The timer the last event left: the one of a call, none after a
    callback ran and before the first call. *)
Definition pending {A} (wait : Z) (evs : list (event A)) (s : state A) : Prop :=
  match last evs with
  | Some (Call now args) =>
      ∃ id, timeout s = Some id
            ∧ timers s = {[ id := ((now + Z.max 0 wait)%Z, args) ]}
  | _ => timers s = ∅
  end.

(** Three calls within 300 ms of each other. *)
Definition burst : list (event JS.jsstring) :=
  [Call 0 (JS.lit "a"); Call 100 (JS.lit "ab"); Call 250 (JS.lit "abc")].

End DebounceTerms.

(** ** A copy button *)

Module ClipboardTerms.
Import JS Clipboard.

(** A button with its text, and no timer set. *)
Definition fresh (text : jsstring) (now : Z) : state :=
  {| button := {| textContent := text; copied := false |};
     timers := ∅; next_id := 1; clock := now |}.

End ClipboardTerms.

(** ** Buttons and pages *)

Module AppTerms.
Import JS Parser Cache Net NetTerms App.

(** A button that is enabled again: no loader, its own text. *)
Definition released (defaultText : jsstring) (b : button) : Prop :=
  disabled b = false ∧ loaders b = O ∧ btn_text b = defaultText.

(** A button that waits: disabled, with one loader. *)
Definition waiting (b : button) : Prop :=
  disabled b = true ∧ loaders b = 1%nat ∧ btn_text b = lit "Generating...".

(** Calls of [setButtonLoading] on one button, one after the other, each
    with its [isLoading] and its [defaultText]. *)
Definition set_loading_each (set : button → bool → jsstring → button)
    (calls : list (bool * jsstring)) (b : button) : button :=
  foldl (fun b c => set b c.1 c.2) b calls.

Definition fresh_button (text : jsstring) : button :=
  {| disabled := false; loaders := 0; btn_text := text; hidden := false |}.

Definition fresh_page : page jsstring :=
  {| results_container := Cleared; currentAnalysis := None;
     originalListing := None; currentFAQs := None |}.

(** A response with the given text and no sources header. *)
Definition answer_text (content : jsstring) : Response (J := jsstring) :=
  {| ok := true; status := 200; statusText := lit "OK";
     json := Hangs; text := Resolves content; x_sources := None |}.

(** A page on which an analysis is shown. *)
Definition page_with (a : shown_analysis jsstring) : page jsstring :=
  {| results_container := Results a []; currentAnalysis := Some a;
     originalListing := Some (lit "Oak sign"); currentFAQs := None |}.

Definition sample_analysis : shown_analysis jsstring :=
  {| fields := {| overall_assessment := lit "Good."; recommendations := [];
                  suggested_keywords := []; sources := None |};
     web_sources := lit "[]" |}.

End AppTerms.

(** * Part III: lemmas and theorems *)

(** ** Facts about the matcher *)

Module MatchFacts.
Import JS Semantics.

Lemma eat_Some l s r : eat l s = Some r ↔ s = l ++ r.
Proof.
  revert s. induction l as [|a l IH]; intros [|b s]; simpl.
  - split; congruence.
  - split; congruence.
  - split; [discriminate | intros H; discriminate].
  - destruct (N.eqb_spec a b) as [->|Hne].
    + rewrite IH. split; congruence.
    + split; [discriminate | intros H; congruence].
Qed.

Lemma eat_app l r : eat l (l ++ r) = Some r.
Proof. by apply eat_Some. Qed.

Lemma star_greedy_unfold cls bef aft g k :
  star_greedy cls bef aft g k =
  match aft with
  | c :: aft' =>
      if cls c then
        match star_greedy cls (c :: bef) aft' g k with
        | Some y => Some y
        | None => k (MState bef aft g)
        end
      else k (MState bef aft g)
  | [] => k (MState bef aft g)
  end.
Proof. by destruct aft. Qed.

Lemma star_lazy_unfold cls bef aft g k :
  star_lazy cls bef aft g k =
  match k (MState bef aft g) with
  | Some y => Some y
  | None =>
      match aft with
      | c :: aft' => if cls c then star_lazy cls (c :: bef) aft' g k else None
      | [] => None
      end
  end.
Proof. by destruct aft. Qed.

Lemma rev_cons_app {A} (c : A) w b : rev (c :: w) ++ b = rev w ++ c :: b.
Proof. simpl. by rewrite <- app_assoc. Qed.

Lemma star_greedy_sound cls k y : ∀ aft bef g,
  star_greedy cls bef aft g k = Some y →
  ∃ w aft', Forall (λ c, cls c = true) w ∧ aft = w ++ aft'
            ∧ k (MState (rev w ++ bef) aft' g) = Some y.
Proof.
  induction aft as [|c aft IH]; intros bef g; simpl.
  - intros H. by exists [], [].
  - destruct (cls c) eqn:Hc.
    + destruct (star_greedy cls (c :: bef) aft g k) eqn:Hs.
      * intros [= ->]. destruct (IH _ _ Hs) as (w & aft' & Hw & -> & Hk).
        exists (c :: w), aft'. rewrite rev_cons_app. auto.
      * intros H. by exists [], (c :: aft).
    + intros H. by exists [], (c :: aft).
Qed.

Lemma star_lazy_sound cls k y : ∀ aft bef g,
  star_lazy cls bef aft g k = Some y →
  ∃ w aft', Forall (λ c, cls c = true) w ∧ aft = w ++ aft'
            ∧ k (MState (rev w ++ bef) aft' g) = Some y.
Proof.
  induction aft as [|c aft IH]; intros bef g; simpl.
  - destruct (k (MState bef [] g)) eqn:Hk; [|discriminate].
    intros [= ->]. by exists [], [].
  - destruct (k (MState bef (c :: aft) g)) eqn:Hk.
    + intros [= ->]. by exists [], (c :: aft).
    + destruct (cls c) eqn:Hc; [|discriminate].
      intros Hs. destruct (IH _ _ Hs) as (w & aft' & Hw & -> & Hk').
      exists (c :: w), aft'. rewrite rev_cons_app. auto.
Qed.

(** Soundness: a successful match went through a state the pattern reaches,
    and the continuation succeeded there. *)
Lemma rmatch_sound m r : ∀ x k y,
  rmatch m r x k = Some y → ∃ x', reaches m r x x' ∧ k x' = Some y.
Proof.
  induction r as [l|gr cls|r1 IH1 r2 IH2|r1 IH1 r2 IH2|r IH|r IH| |];
    intros x k y; simpl.
  - destruct (eat l (after x)) as [rest|] eqn:He; [|discriminate].
    apply eat_Some in He. intros Hk. eexists. split; [|exact Hk]. by simpl.
  - destruct gr; intros Hs.
    + apply star_greedy_sound in Hs as (w & aft' & Hw & Ha & Hk).
      eexists. split; [|exact Hk]. exists w. by simpl.
    + apply star_lazy_sound in Hs as (w & aft' & Hw & Ha & Hk).
      eexists. split; [|exact Hk]. exists w. by simpl.
  - intros H. apply IH1 in H as (mid & H1 & H).
    apply IH2 in H as (x' & H2 & Hk). eauto.
  - destruct (rmatch m r1 x k) eqn:H1.
    + intros [= ->]. apply IH1 in H1 as (x' & ? & ?). eauto.
    + intros H2. apply IH2 in H2 as (x' & ? & ?). eauto.
  - destruct (rmatch m r x Some) as [z|] eqn:Hr; [|discriminate].
    apply IH in Hr as (x' & Hx' & [= ->]). intros Hk. eauto.
  - intros H. apply IH in H as (x' & Hx' & Hk). eauto.
  - destruct (at_line_start m x) eqn:Hb; [|discriminate]. eauto.
  - destruct (at_line_end m x) eqn:Hb; [|discriminate]. eauto.
Qed.

Lemma reaches_group_mono m r : ∀ x x',
  reaches m r x x' → is_Some (group1 x) → is_Some (group1 x').
Proof.
  induction r as [l|gr cls|r1 IH1 r2 IH2|r1 IH1 r2 IH2|r IH|r IH| |];
    intros x x'; simpl.
  - intros (_ & _ & ->). auto.
  - intros (w & _ & _ & _ & ->). auto.
  - intros (mid & H1 & H2) Hx. eauto.
  - intros [H|H]; eauto.
  - intros (y & Hy & ->) Hx. simpl. eauto.
  - intros (y & Hy & ->) _. simpl. eauto.
  - intros [-> _]. auto.
  - intros [-> _]. auto.
Qed.

Lemma reaches_sets_group m r : ∀ x x',
  sets_group r = true → reaches m r x x' → is_Some (group1 x').
Proof.
  induction r as [l|gr cls|r1 IH1 r2 IH2|r1 IH1 r2 IH2|r IH|r IH| |];
    intros x x'; simpl; try discriminate.
  - intros Hs (mid & H1 & H2). apply orb_true_iff in Hs as [Hs|Hs].
    + eapply reaches_group_mono; eauto.
    + eauto.
  - intros Hs [H|H]; apply andb_true_iff in Hs as [? ?]; eauto.
  - intros _ (y & _ & ->). simpl. eauto.
Qed.

Lemma match_at_capture re bef aft mt :
  sets_group (pattern re) = true →
  match_at re bef aft = Some mt → is_Some (capture mt).
Proof.
  unfold match_at. intros Hg.
  destruct (rmatch _ _ _ _) as [y|] eqn:Hm; [|discriminate].
  intros [= <-]. simpl.
  apply rmatch_sound in Hm as (x' & Hr & [= ->]).
  eapply reaches_sets_group; eauto.
Qed.

Lemma search_capture re : ∀ aft bef mt,
  sets_group (pattern re) = true →
  search re bef aft = Some mt → is_Some (capture mt).
Proof.
  induction aft as [|c aft IH]; intros bef mt Hg; simpl;
    destruct (match_at re bef _) eqn:Hm.
  - intros [= <-]. eapply match_at_capture; eauto.
  - discriminate.
  - intros [= <-]. eapply match_at_capture; eauto.
  - eauto.
Qed.

Lemma scan_all_capture re : ∀ aft skip bef,
  sets_group (pattern re) = true →
  Forall (λ mt, is_Some (capture mt)) (scan_all re skip bef aft).
Proof.
  induction aft as [|c aft IH]; intros skip bef Hg; destruct skip; simpl; auto.
  - destruct (match_at re bef []) eqn:Hm; auto.
    constructor; auto. eapply match_at_capture; eauto.
  - destruct (match_at re bef (c :: aft)) eqn:Hm; auto.
    constructor; auto. eapply match_at_capture; eauto.
Qed.

Lemma reaches_no_group m r : ∀ x x',
  no_group r = true → reaches m r x x' → group1 x' = group1 x.
Proof.
  induction r as [l|gr cls|r1 IH1 r2 IH2|r1 IH1 r2 IH2|r IH|r IH| |];
    intros x x'; simpl; try discriminate.
  - intros _ (_ & _ & ->). auto.
  - intros _ (w & _ & _ & _ & ->). auto.
  - intros Hg (mid & H1 & H2). apply andb_true_iff in Hg as [Hg1 Hg2].
    rewrite (IH2 _ _ Hg2 H2). eauto.
  - intros Hg [H|H]; apply andb_true_iff in Hg as [? ?]; eauto.
  - intros Hg (y & Hy & ->). simpl. eauto.
  - intros _ [-> _]. auto.
  - intros _ [-> _]. auto.
Qed.

(** The greedy star takes the whole run when the continuation succeeds
    after it. *)
Lemma star_greedy_max cls k y : ∀ w bef aft g,
  Forall (λ c, cls c = true) w →
  match aft with [] => True | c :: _ => cls c = false end →
  k (MState (rev w ++ bef) aft g) = Some y →
  star_greedy cls bef (w ++ aft) g k = Some y.
Proof.
  induction w as [|c w IH]; intros bef aft g Hw Ha Hk.
  - simpl in *. rewrite star_greedy_unfold. destruct aft as [|c aft]; [done|].
    by rewrite Ha.
  - apply Forall_cons in Hw as [Hc Hw]. simpl. rewrite Hc.
    rewrite (IH (c :: bef) aft g); auto. by rewrite <- rev_cons_app.
Qed.

(** The lazy star stops at the first position where the continuation
    succeeds. *)
Lemma star_lazy_first cls k y : ∀ w bef aft g,
  Forall (λ c, cls c = true) w →
  (∀ w1 w2, w = w1 ++ w2 → w2 ≠ [] →
     k (MState (rev w1 ++ bef) (w2 ++ aft) g) = None) →
  k (MState (rev w ++ bef) aft g) = Some y →
  star_lazy cls bef (w ++ aft) g k = Some y.
Proof.
  induction w as [|c w IH]; intros bef aft g Hw Hno Hk.
  - simpl in *. rewrite star_lazy_unfold. by rewrite Hk.
  - apply Forall_cons in Hw as [Hc Hw].
    pose proof (Hno [] (c :: w) eq_refl ltac:(done)) as Hhere.
    simpl in *. rewrite Hhere, Hc.
    apply IH; auto.
    + intros w1 w2 -> Hw2. rewrite <- rev_cons_app. by apply (Hno (c :: w1) w2).
    + by rewrite <- rev_cons_app.
Qed.

Lemma any_char_true c : any_char c = true.
Proof. unfold any_char. by destruct (is_space c). Qed.

Lemma Forall_any_char w : Forall (λ c, any_char c = true) w.
Proof. apply Forall_forall. intros. apply any_char_true. Qed.

(** *** Searching *)

Lemma search_here re bef aft mt :
  match_at re bef aft = Some mt → search re bef aft = Some mt.
Proof. intros H. destruct aft; simpl; by rewrite H. Qed.

Lemma search_skip re : ∀ pre bef aft,
  (∀ p1 p2, pre = p1 ++ p2 → p2 ≠ [] →
     match_at re (rev p1 ++ bef) (p2 ++ aft) = None) →
  search re bef (pre ++ aft) = search re (rev pre ++ bef) aft.
Proof.
  induction pre as [|c pre IH]; intros bef aft Hno; [done|].
  pose proof (Hno [] (c :: pre) eq_refl ltac:(done)) as Hhere.
  simpl in *. rewrite Hhere.
  rewrite IH; [by rewrite <- app_assoc|].
  intros p1 p2 -> Hp2. rewrite <- rev_cons_app. by apply (Hno (c :: p1) p2).
Qed.

Lemma search_None re : ∀ aft bef,
  (∀ p1 p2, aft = p1 ++ p2 → match_at re (rev p1 ++ bef) p2 = None) →
  search re bef aft = None.
Proof.
  induction aft as [|c aft IH]; intros bef Hno; simpl.
  - pose proof (Hno [] [] eq_refl) as Hhere. simpl in Hhere. by rewrite Hhere.
  - pose proof (Hno [] (c :: aft) eq_refl) as Hhere. simpl in Hhere.
    rewrite Hhere. apply IH.
    intros p1 p2 ->. rewrite <- rev_cons_app. by apply (Hno (c :: p1) p2).
Qed.

End MatchFacts.

(** ** Facts about the section patterns *)

Module SectionFacts.
Import JS Parser Semantics MatchFacts Shapes.

Lemma header_sound m hashes title rest x k y :
  rmatch m (Seq (Lit hashes) (Seq spaces (Seq (Lit title) rest))) x k = Some y →
  header_here hashes title (after x).
Proof.
  intros H. apply rmatch_sound in H as (x' & Hr & _). simpl in Hr.
  destruct Hr as (m1 & (H1 & _) & m2 & (w & Hw & H2 & _) & m3 & (H3 & _) & _).
  exists w, (after m3). split; [done|]. by rewrite H1, H2, H3.
Qed.

Lemma match_at_header re hashes title rest bef aft mt :
  pattern re = Seq (Lit hashes) (Seq spaces (Seq (Lit title) rest)) →
  match_at re bef aft = Some mt → header_here hashes title aft.
Proof.
  unfold match_at. intros ->.
  destruct (rmatch _ _ _ _) eqn:Hm; [|discriminate]. intros _.
  by apply header_sound in Hm.
Qed.

(** Without a header anywhere in the text there is no match. *)
Lemma str_match_no_header re hashes title rest text :
  pattern re = Seq (Lit hashes) (Seq spaces (Seq (Lit title) rest)) →
  (∀ p s, text = p ++ s → ¬ header_here hashes title s) →
  str_match text re = None.
Proof.
  intros Hp Hno. apply search_None. intros p1 p2 Ht.
  destruct (match_at re _ p2) eqn:Hm; [|done].
  eapply match_at_header in Hm; [|done]. by apply Hno in Ht.
Qed.

Lemma header_here_occurs hashes title s :
  header_here hashes title s → occurs_in title s.
Proof.
  intros (w & q & _ & ->). exists (hashes ++ w), q. by rewrite <- app_assoc.
Qed.

Lemma str_match_no_title re hashes title rest text :
  pattern re = Seq (Lit hashes) (Seq spaces (Seq (Lit title) rest)) →
  ¬ occurs_in title text → str_match text re = None.
Proof.
  intros Hp Hno. eapply str_match_no_header; [done|].
  intros p s -> Hh. apply Hno. apply header_here_occurs in Hh as (p' & q & ->).
  exists (p ++ p'), q. by rewrite <- app_assoc.
Qed.

(** *** The match of a section pattern on a text of the expected shape *)

Lemma starts_nonspace_head s rest :
  starts_nonspace s →
  match s ++ rest with [] => True | c :: _ => is_space c = false end.
Proof. by destruct s. Qed.

Lemma section_rmatch hashes title stop bef w1 w2 cap rest :
  all_space w1 → all_space w2 →
  starts_nonspace title →
  match cap ++ rest with [] => True | c :: _ => is_space c = false end →
  (∀ c1 c2 b g, cap = c1 ++ c2 → c2 ≠ [] →
     rmatch false stop (MState b (c2 ++ rest) g) Some = None) →
  (rest = [] ∨ ∀ b g, is_Some (rmatch false stop (MState b rest g) Some)) →
  no_group stop = true →
  rmatch false (section_pattern hashes title stop)
    (MState bef (hashes ++ w1 ++ title ++ w2 ++ cap ++ rest) None) Some
  = Some (MState (rev cap ++ rev w2 ++ rev title ++ rev w1 ++ rev hashes ++ bef)
            rest (Some cap)).
Proof.
  intros Hw1 Hw2 Ht Hc Hfail Hstop Hng.
  unfold section_pattern, spaces. cbn [seq rmatch before after group1].
  rewrite eat_app. apply star_greedy_max; [done|by apply starts_nonspace_head|].
  cbn [rmatch before after group1]. rewrite eat_app.
  apply star_greedy_max; [done..|].
  cbn [rmatch before after group1].
  set (B := rev w2 ++ rev title ++ rev w1 ++ rev hashes ++ bef).
  assert (Hlook : ∀ x, group1 x = Some cap →
    (after x = [] ∨ ∀ b g, is_Some (rmatch false stop (MState b (after x) g) Some)) →
    match rmatch false stop x Some with
    | Some y => Some y
    | None => if at_line_end false x then Some x else None
    end = Some (MState (before x) (after x) (group1 x)) ∨
    ∃ y, match rmatch false stop x Some with
         | Some y => Some y
         | None => if at_line_end false x then Some x else None
         end = Some y ∧ group1 y = Some cap).
  { intros x Hg Hx. right. destruct (rmatch false stop x Some) as [y|] eqn:Hs.
    - exists y. split; [done|]. apply rmatch_sound in Hs as (x' & Hr & [= ->]).
      erewrite reaches_no_group; eauto.
    - destruct Hx as [Hx|Hx].
      + exists x. unfold at_line_end. by rewrite Hx.
      + destruct x as [b a g]. simpl in *. specialize (Hx b g).
        rewrite Hs in Hx. by destruct Hx. }
  apply star_lazy_first; [apply Forall_any_char|..].
  - intros c1 c2 -> Hc2. cbn [before after group1].
    rewrite Hfail with (c1 := c1); [|done|done].
    unfold at_line_end. cbn [after]. by destruct c2.
  - cbn [before after group1].
    assert (Htake : take (length (rev cap ++ B) - length B) (cap ++ rest) = cap).
    { rewrite length_app, length_rev.
      replace (length cap + length B - length B)%nat with (length cap) by lia.
      apply take_app_length. }
    rewrite Htake.
    destruct (Hlook (MState (rev cap ++ B) rest (Some cap)) eq_refl Hstop)
      as [Heq|(y & Heq & Hy)]; cbn [before after group1] in *.
    + by rewrite Heq.
    + by rewrite Heq, Hy.
Qed.

Lemma section_pattern_header hashes title stop :
  section_pattern hashes title stop =
  Seq (Lit hashes) (Seq spaces (Seq (Lit title)
    (seq [spaces; Group (Star false any_char); Lookahead (Alt stop Eol)]))).
Proof. reflexivity. Qed.

Lemma section_str_match re hashes title stop pre w1 w2 cap rest :
  pattern re = section_pattern hashes title stop → multiline re = false →
  no_header_in hashes title pre (hashes ++ w1 ++ title ++ w2 ++ cap ++ rest) →
  all_space w1 → all_space w2 →
  starts_nonspace title →
  match cap ++ rest with [] => True | c :: _ => is_space c = false end →
  (∀ c1 c2 b g, cap = c1 ++ c2 → c2 ≠ [] →
     rmatch false stop (MState b (c2 ++ rest) g) Some = None) →
  (rest = [] ∨ ∀ b g, is_Some (rmatch false stop (MState b rest g) Some)) →
  no_group stop = true →
  ∃ mt, str_match (pre ++ hashes ++ w1 ++ title ++ w2 ++ cap ++ rest) re = Some mt
        ∧ capture mt = Some cap.
Proof.
  intros Hp Hm Hno Hw1 Hw2 Ht Hc Hfail Hstop Hng.
  unfold str_match. rewrite search_skip.
  - eexists. split.
    + apply search_here. unfold match_at. rewrite Hp, Hm.
      rewrite section_rmatch by done. reflexivity.
    + reflexivity.
  - intros p1 p2 Hpre Hp2.
    destruct (match_at re _ _) eqn:Hma; [|done].
    eapply match_at_header in Hma;
      [|by rewrite Hp, section_pattern_header].
    by apply (Hno p1 p2) in Hma.
Qed.

(** *** White space *)

Lemma skip_space_split s : ∃ w, all_space w ∧ s = w ++ skip_space s.
Proof.
  unfold all_space. induction s as [|c s (w & Hw & IH)]; simpl.
  - exists []. by split; [constructor|].
  - destruct (is_space c) eqn:Hc.
    + exists (c :: w). split; [by constructor|]. simpl. by rewrite <- IH.
    + exists []. by split; [constructor|].
Qed.

Lemma skip_space_head s :
  match skip_space s with [] => True | c :: _ => is_space c = false end.
Proof.
  induction s as [|c s IH]; simpl; [done|].
  destruct (is_space c) eqn:Hc; [done|]. by simpl.
Qed.

Lemma skip_space_idem s : skip_space (skip_space s) = skip_space s.
Proof.
  pose proof (skip_space_head s) as H.
  destruct (skip_space s) as [|c s']; [done|]. simpl. by rewrite H.
Qed.

Lemma skip_space_app w s : all_space w → skip_space (w ++ s) = skip_space s.
Proof.
  induction 1 as [|c w Hc _ IH]; simpl; [done|]. by rewrite Hc.
Qed.

Lemma skip_space_nonspace s : starts_nonspace s → skip_space s = s.
Proof. destruct s as [|c s]; simpl; [done|]. by intros ->. Qed.

Lemma trim_skip_space s : trim (skip_space s) = trim s.
Proof. unfold trim. by rewrite skip_space_idem. Qed.

Lemma trim_app_space w s : all_space w → trim (w ++ s) = trim s.
Proof. intros Hw. unfold trim. by rewrite skip_space_app. Qed.

Lemma lit_stop_fail l b s g :
  (∀ q, s ≠ l ++ q) → rmatch false (Lit l) (MState b s g) Some = None.
Proof.
  intros Hno. simpl. destruct (eat l s) as [r|] eqn:He; [|done].
  apply eat_Some in He. by apply Hno in He.
Qed.

Lemma lit_stop_ok l b q g :
  is_Some (rmatch false (Lit l) (MState b (l ++ q) g) Some).
Proof. simpl. rewrite eat_app. eauto. Qed.

Lemma no_stop_inside body rest c1 c2 q :
  ¬ occurs_in next_header body →
  (rest = [] ∨ ∃ q', rest = next_header ++ q') →
  body = c1 ++ c2 → c2 ≠ [] → c2 ++ rest ≠ next_header ++ q.
Proof.
  intros Hno Hrest -> Hc2 Heq. unfold next_header in *.
  change (lit "##") with [35; 35] in *.
  destruct c2 as [|a [|b [|c c2]]]; [done|..]; simpl in Heq.
  - destruct Hrest as [->|(q' & ->)]; simpl in Heq; discriminate.
  - destruct Hrest as [->|(q' & ->)]; simpl in Heq; discriminate.
  - injection Heq as -> -> -> _. apply Hno. by exists c1, c2.
Qed.

Lemma occurs_in_suffix l w s : occurs_in l s → occurs_in l (w ++ s).
Proof. intros (p & q & ->). exists (w ++ p), q. by rewrite <- app_assoc. Qed.

Lemma occurs_in_skip_space l s : occurs_in l (skip_space s) → occurs_in l s.
Proof.
  intros H. destruct (skip_space_split s) as (w & _ & Hs).
  rewrite Hs. by apply occurs_in_suffix.
Qed.

(** The captured section: the text after the header, less its leading white
    space, up to the next line that begins with [##]. *)
Lemma section_capture re hashes title pre w1 body rest :
  pattern re = section_pattern hashes title (Lit next_header) →
  multiline re = false →
  starts_nonspace title → all_space w1 →
  no_header_in hashes title pre (hashes ++ w1 ++ title ++ body ++ rest) →
  ¬ occurs_in next_header (skip_space body) →
  (rest = [] ∨ ∃ q, rest = next_header ++ q) →
  (skip_space body ≠ [] ∨ rest = []) →
  ∃ mt, str_match (pre ++ hashes ++ w1 ++ title ++ body ++ rest) re = Some mt
        ∧ capture mt = Some (skip_space body).
Proof.
  intros Hp Hm Ht Hw1 Hno Hocc' Hrest Hne.
  destruct (skip_space_split body) as (w2 & Hw2 & Hb).
  assert (Hbr : body ++ rest = w2 ++ skip_space body ++ rest).
  { rewrite Hb at 1. by rewrite <- app_assoc. }
  rewrite Hbr in Hno |- *.
  eapply section_str_match; try done.
  - pose proof (skip_space_head body) as Hh.
    destruct (skip_space body) as [|c s] eqn:Hs; [|done].
    destruct Hne as [?| ->]; done.
  - intros c1 c2 b g Hc Hc2. apply lit_stop_fail. intros q.
    by eapply no_stop_inside.
  - destruct Hrest as [->|(q & ->)]; [by left|right]. intros. apply lit_stop_ok.
Qed.

End SectionFacts.

(** ** The parser returns, and what its fields are *)

Module ParserFacts.
Import JS Parser Semantics MatchFacts Shapes SectionFacts Fields.

Lemma field_of_total chunk re :
  sets_group (pattern re) = true → ∃ s, field_of chunk re = Normal s.
Proof.
  intros Hg. unfold field_of, str_match.
  destruct (search re [] chunk) as [mt|] eqn:Hs; [|by eexists].
  apply search_capture in Hs as [c Hc]; [|done]. rewrite Hc. by eexists.
Qed.

Lemma element_record_total text mt rest :
  is_Some (capture mt) → ∃ l, element_record text mt rest = Normal l.
Proof.
  intros [name Hn]. unfold element_record. rewrite Hn. simpl.
  destruct (field_of_total
    (substring text (index mt + length (whole mt))
       match rest with nextMatch :: _ => index nextMatch | [] => length text end)
    suggestion_re eq_refl) as [s ->].
  destruct (field_of_total
    (substring text (index mt + length (whole mt))
       match rest with nextMatch :: _ => index nextMatch | [] => length text end)
    reasoning_re eq_refl) as [r ->].
  simpl. destruct (truthy (trim name) && (truthy s || truthy r)); by eexists.
Qed.

Lemma each_element_total text ms :
  Forall (λ mt, is_Some (capture mt)) ms → ∃ l, each_element text ms = Normal l.
Proof.
  induction 1 as [|mt ms Hmt _ [l IH]]; simpl; [by eexists|].
  destruct (element_record_total text mt ms Hmt) as [r ->]. simpl.
  rewrite IH. by eexists.
Qed.

Lemma parse_fields text :
  ∃ a, parseAnalysisFromText text = Normal a
       ∧ overall_assessment a = assessment_of text
       ∧ suggested_keywords a = tags_of text
       ∧ (str_match text recommendations_re = None → recommendations a = [])
       ∧ (∀ mt, str_match text recommendations_re = Some mt →
            ∃ c, capture mt = Some c
                 ∧ each_element c (scan_all element_re 0 [] c)
                   = Normal (recommendations a)).
Proof.
  unfold parseAnalysisFromText, assessment_of, tags_of.
  assert (∃ s, match str_match text assessment_re with
               | Some m => c ← defined (capture m); mret (trim c)
               | None => mret []
               end = Normal s
               ∧ s = match str_match text assessment_re with
                     | Some mt => from_option trim [] (capture mt)
                     | None => []
                     end) as (s & -> & <-).
  { destruct (str_match text assessment_re) as [mt|] eqn:Hs; [|by eexists].
    apply search_capture in Hs as [c Hc]; [|done]. rewrite Hc. by eexists. }
  assert (∃ ks, match str_match text tags_re with
                | Some m => c ← defined (capture m); mret (keywords_of c)
                | None => mret []
                end = Normal ks
                ∧ ks = match str_match text tags_re with
                       | Some mt => from_option keywords_of [] (capture mt)
                       | None => []
                       end) as (ks & -> & <-).
  { destruct (str_match text tags_re) as [mt|] eqn:Hs; [|by eexists].
    apply search_capture in Hs as [c Hc]; [|done]. rewrite Hc. by eexists. }
  simpl.
  destruct (str_match text recommendations_re) as [mt|] eqn:Hs.
  - apply search_capture in Hs as [c Hc]; [|done]. rewrite Hc. simpl.
    destruct (each_element_total c (scan_all element_re 0 [] c)) as [l Hl].
    { by apply scan_all_capture. }
    unfold matchAll. simpl. rewrite Hl. simpl. eexists.
    repeat split; try done. intros mt' [= <-]. by exists c.
  - simpl. eexists. repeat split; done.
Qed.

Lemma occursb_false l s : occursb l s = false → ¬ occurs_in l s.
Proof.
  induction s as [|c s IH]; simpl; destruct (eat l _) eqn:He; try discriminate;
    intros Hb (p & q & Heq).
  - destruct p; [|done]. simpl in Heq.
    apply eat_Some in Heq. congruence.
  - destruct p as [|c' p]; simpl in Heq.
    + apply eat_Some in Heq. congruence.
    + injection Heq as _ ->. apply (IH Hb). by exists p, q.
Qed.

Lemma header_here_headerb hashes title s :
  starts_nonspace title → header_here hashes title s →
  headerb hashes title s = true.
Proof.
  intros Ht (w & q & Hw & ->). unfold headerb. rewrite eat_app.
  rewrite skip_space_app by done.
  rewrite skip_space_nonspace by (by destruct title).
  rewrite eat_app. by apply bool_decide_eq_true.
Qed.

Lemma no_header_inb_true hashes title pre s :
  starts_nonspace title → no_header_inb hashes title pre s = true →
  no_header_in hashes title pre s.
Proof.
  intros Ht. induction pre as [|c pre IH]; intros Hb p1 p2 Heq Hp2 Hh.
  - by destruct p1, p2.
  - simpl in Hb. apply andb_true_iff in Hb as [Hb1 Hb2].
    destruct p1 as [|c' p1]; simpl in Heq.
    + subst p2. apply header_here_headerb in Hh; [|done].
      simpl in Hh. by rewrite Hh in Hb1.
    + injection Heq as _ ->. by apply (IH Hb2 p1 p2).
Qed.

Lemma no_header_in_nil hashes title s : no_header_in hashes title [] s.
Proof. intros p1 p2 Heq Hp2. by destruct p1, p2. Qed.

Lemma header_occurs_title hashes title text :
  header_occurs hashes title text → occurs_in title text.
Proof.
  intros (p & s & -> & Hh). apply occurs_in_suffix.
  by apply header_here_occurs in Hh.
Qed.

Lemma str_match_no_header_occurs re hashes title stop text :
  pattern re = section_pattern hashes title stop →
  ¬ header_occurs hashes title text → str_match text re = None.
Proof.
  intros Hp Hno. eapply str_match_no_header.
  - by rewrite Hp, section_pattern_header.
  - intros p s Heq Hh. apply Hno. by exists p, s.
Qed.

Lemma trim_nonempty s : skip_space s ≠ [] → trim s ≠ [].
Proof.
  intros Hne. unfold trim. pose proof (skip_space_head s) as Hh.
  destruct (skip_space s) as [|c s'] eqn:Hs; [done|].
  intros Hr. apply (f_equal (@rev N)) in Hr. rewrite rev_involutive in Hr.
  simpl in Hr.
  assert (Hin : ∀ l, skip_space (l ++ [c]) ≠ []).
  { induction l as [|d l IH]; simpl; [by rewrite Hh|].
    by destruct (is_space d). }
  by apply (Hin (rev s')).
Qed.

End ParserFacts.

(** ** The parser: the properties of the specification *)

Module ParserSpec.
Import JS Parser Semantics MatchFacts Shapes SectionFacts Fields ParserFacts
  Readings.


Lemma tags_without_header (text : jsstring) :
  ¬ header_occurs hashes tags_title text → tags_of text = [].
Proof.
  intros Hno. unfold tags_of.
  by rewrite (str_match_no_header_occurs tags_re hashes tags_title
                (Lit next_header) text eq_refl Hno).
Qed.

(** The assessment of a text whose first assessment header is followed by a
    body that is not blank and runs to the end of the text or to a line
    beginning with [##]. *)
Lemma assessment_of_section (pre w body rest : jsstring) :
  all_space w →
  no_header_in hashes assessment_title pre
    (hashes ++ w ++ assessment_title ++ body ++ rest) →
  ¬ occurs_in next_header body →
  (rest = [] ∨ ∃ q, rest = next_header ++ q) →
  skip_space body ≠ [] →
  assessment_of (pre ++ hashes ++ w ++ assessment_title ++ body ++ rest)
  = trim body.
Proof.
  intros Hw Hno Hocc Hrest Hne. unfold assessment_of.
  destruct (section_capture assessment_re hashes assessment_title pre w body rest)
    as (mt & -> & ->); try done;
    [by intros H; apply Hocc, occurs_in_skip_space|by left|].
  simpl. apply trim_skip_space.
Qed.

(** A text in which no header begins, by computation. *)
Lemma header_absent (title text : jsstring) :
  starts_nonspace title → no_header_inb hashes title text [] = true →
  ¬ header_occurs hashes title text.
Proof.
  intros Ht Hb (p & s & -> & Hh). apply no_header_inb_true in Hb; [|done].
  destruct s as [|c s].
  - destruct Hh as (w & q & _ & Heq). discriminate.
  - apply (Hb p (c :: s)); [done|done|]. by rewrite app_nil_r.
Qed.




(** C8, as stated, fails: a text whose tags section carries the count 10
    gets a keyword all the same when the header with the count 13 is
    written somewhere else in it, here in a remark. *)
Lemma other_count_section_with_keywords :
  spec_section_absent other_count_title other_count_with_remark = false
  ∧ spec_section_absent tags_title other_count_with_remark = true
  ∧ ∃ a, parseAnalysisFromText other_count_with_remark = Normal a
         ∧ suggested_keywords a = [lit "are weak."]
         ∧ suggested_keywords a ≠ [].
Proof.
  split; [vm_compute; reflexivity|]. split; [vm_compute; reflexivity|].
  eexists. split; [vm_compute; reflexivity|]. by vm_compute.
Qed.

(** C8, amended: a text that holds nowhere, at the start of a line or
    inside one, two hashes, white space or none, and the literal
    "Suggested SEO Tags (13)" has no suggested keywords, whatever else it
    holds: a tags section with another count, or the literal without the
    hashes.  The count is part of the header the parser looks for. *)
Theorem tags_header_is_literal (text : jsstring) :
  ¬ header_occurs hashes tags_title text →
  ∃ a, parseAnalysisFromText text = Normal a ∧ suggested_keywords a = [].
Proof.
  intros Hno. destruct (parse_fields text) as (a & Hp & _ & Hk & _).
  exists a. split; [done|]. rewrite Hk. by apply tags_without_header.
Qed.

(** A tags section with the count 10 yields no keyword, the literal with
    the count 13 being in the text without hashes before it. *)
Lemma tags_header_is_literal_witness :
  ∃ a, parseAnalysisFromText other_count_text = Normal a
       ∧ suggested_keywords a = [].
Proof.
  apply (tags_header_is_literal other_count_text).
  apply header_absent; [done|]. vm_compute. reflexivity.
Defined.

(** C7, as stated, fails: a [###] line inside the assessment section ends the
    extraction, where the reading up to the next top-level header goes on to
    "## Actionable Recommendations". *)
Lemma assessment_stops_at_deeper_header :
  ∃ a, parseAnalysisFromText deeper_header_text = Normal a
       ∧ overall_assessment a = lit "Good."
       ∧ spec_overall_assessment deeper_header_text
         = text_of ["Good."; "### Details"; "More."]
       ∧ overall_assessment a ≠ spec_overall_assessment deeper_header_text.
Proof.
  eexists. split; [vm_compute; reflexivity|]. by vm_compute.
Qed.

(** C7, amended: for a text whose first assessment header is followed by a
    body that is not blank and by the end of the text or a line that begins
    with [##] (a [###] or [####] line too), no earlier line of the body
    beginning with [##], the assessment is the body, trimmed. *)
Theorem assessment_section_extracted (pre w body rest : jsstring) :
  all_space w →
  no_header_in hashes assessment_title pre
    (hashes ++ w ++ assessment_title ++ body ++ rest) →
  ¬ occurs_in next_header body →
  (rest = [] ∨ ∃ q, rest = next_header ++ q) →
  skip_space body ≠ [] →
  ∃ a, parseAnalysisFromText (pre ++ hashes ++ w ++ assessment_title ++ body ++ rest)
       = Normal a
       ∧ overall_assessment a = trim body.
Proof.
  intros Hw Hno Hocc Hrest Hne.
  destruct (parse_fields (pre ++ hashes ++ w ++ assessment_title ++ body ++ rest))
    as (a & Hp & Ha & _).
  exists a. split; [done|]. rewrite Ha. by apply assessment_of_section.
Qed.

(** The sample of the counterexample, read up to its [###] line. *)
Lemma assessment_section_extracted_witness :
  ∃ a, parseAnalysisFromText deeper_header_text = Normal a
       ∧ overall_assessment a = lit "Good.".
Proof.
  apply (assessment_section_extracted [] (lit " ") (LF :: lit "Good.")
           (next_header ++ text_of ["# Details"; "More.";
                                    "## Actionable Recommendations"])).
  - repeat constructor.
  - apply no_header_in_nil.
  - apply occursb_false. vm_compute. reflexivity.
  - right. eexists. reflexivity.
  - vm_compute. discriminate.
Defined.

(** C10: the header match is not anchored to a line start.  Whatever
    precedes the first [##] followed by the title, be it text on the same
    line or further hashes as in "#### Overall Assessment", the parser takes
    the text after it as the section: a body that is not blank gives an
    assessment that is not empty, and a tags body gives its keywords. *)
Theorem header_match_is_unanchored :
  (∀ pre w body : jsstring,
     all_space w →
     no_header_in hashes assessment_title pre (hashes ++ w ++ assessment_title ++ body) →
     ¬ occurs_in next_header body →
     skip_space body ≠ [] →
     ∃ a, parseAnalysisFromText (pre ++ hashes ++ w ++ assessment_title ++ body)
          = Normal a
          ∧ overall_assessment a = trim body ∧ overall_assessment a ≠ [])
  ∧ (∀ pre w body : jsstring,
     all_space w →
     no_header_in hashes tags_title pre (hashes ++ w ++ tags_title ++ body) →
     ¬ occurs_in next_header body →
     ∃ a, parseAnalysisFromText (pre ++ hashes ++ w ++ tags_title ++ body)
          = Normal a
          ∧ suggested_keywords a = keywords_of (skip_space body)).
Proof.
  split.
  - intros pre w body Hw Hno Hocc Hne.
    destruct (parse_fields (pre ++ hashes ++ w ++ assessment_title ++ body))
      as (a & Hp & Ha & _).
    exists a. split; [done|].
    assert (overall_assessment a = trim body) as Hv.
    { rewrite Ha. rewrite <- (app_nil_r body) at 1.
      apply assessment_of_section; try done; [by rewrite app_nil_r|by left]. }
    split; [done|]. rewrite Hv. by apply trim_nonempty.
  - intros pre w body Hw Hno Hocc.
    destruct (parse_fields (pre ++ hashes ++ w ++ tags_title ++ body))
      as (a & Hp & _ & Hk & _).
    exists a. split; [done|]. rewrite Hk. unfold tags_of.
    destruct (section_capture tags_re hashes tags_title pre w body [])
      as (mt & Hm & Hc); try done;
      [by rewrite app_nil_r|by intros H; apply Hocc, occurs_in_skip_space
      |by left|by right|].
    rewrite app_nil_r in Hm. by rewrite Hm, Hc.
Qed.

(** A header of four hashes, a title in the middle of a line, and a tags
    header after other text on its line. *)
Lemma header_match_is_unanchored_witness :
  (∃ a, parseAnalysisFromText (text_of ["#### Overall Assessment"; "Looks fine."])
        = Normal a
        ∧ overall_assessment a = lit "Looks fine.")
  ∧ (∃ a, parseAnalysisFromText (lit "See the ## Overall Assessment below")
          = Normal a
          ∧ overall_assessment a = lit "below")
  ∧ (∃ a, parseAnalysisFromText (text_of ["Tags: ## Suggested SEO Tags (13)"; "- oak"])
          = Normal a
          ∧ suggested_keywords a = [lit "oak"]).
Proof.
  destruct header_match_is_unanchored as [Ha Ht].
  split; [|split].
  - destruct (Ha (lit "##") (lit " ") (LF :: lit "Looks fine."))
      as (a & Hp & Hv & _).
    + repeat constructor.
    + apply no_header_inb_true; [done|]. vm_compute. reflexivity.
    + apply occursb_false. vm_compute. reflexivity.
    + vm_compute. discriminate.
    + exists a. split; [exact Hp|]. rewrite Hv. vm_compute. reflexivity.
  - destruct (Ha (lit "See the ") (lit " ") (lit " below"))
      as (a & Hp & Hv & _).
    + repeat constructor.
    + apply no_header_inb_true; [done|]. vm_compute. reflexivity.
    + apply occursb_false. vm_compute. reflexivity.
    + vm_compute. discriminate.
    + exists a. split; [exact Hp|]. rewrite Hv. vm_compute. reflexivity.
  - destruct (Ht (lit "Tags: ") (lit " ") (LF :: lit "- oak"))
      as (a & Hp & Hv).
    + repeat constructor.
    + apply no_header_inb_true; [done|]. vm_compute. reflexivity.
    + apply occursb_false. vm_compute. reflexivity.
    + exists a. split; [exact Hp|]. rewrite Hv. vm_compute. reflexivity.
Defined.

Lemma search_dash_later : ∀ aft c bef, search dash_re (c :: bef) aft = None.
Proof. induction aft as [|d aft IH]; intros c bef; simpl; [done|apply IH]. Qed.

Lemma match_at_dash c kw :
  match_at dash_re [] (c :: kw) =
  if 45 =? c then Some {| index := 0; whole := [45]; capture := None |} else None.
Proof.
  unfold match_at.
  change (pattern dash_re) with (Seq Bol (Lit [45])).
  change (multiline dash_re) with false.
  cbn [rmatch at_line_start before after group1 eat].
  destruct (N.eqb_spec 45 c) as [<-|Hne]; reflexivity.
Qed.

Lemma clean_keyword_strip_bullet kw : clean_keyword kw = strip_bullet kw.
Proof.
  unfold clean_keyword, strip_bullet, replace_empty, str_match.
  destruct kw as [|c kw]; [done|].
  cbn [search]. rewrite match_at_dash.
  destruct (N.eqb_spec 45 c) as [<-|Hne].
  - reflexivity.
  - rewrite search_dash_later. f_equal.
    destruct c as [|p]; [done|].
    do 6 (destruct p as [p|p|]; try done).
Qed.

Lemma substring_0 s n : substring s 0 n = take n s.
Proof.
  unfold substring. rewrite Nat.min_0_l, Nat.max_0_l, Nat.sub_0_r. simpl.
  destruct (Nat.min_spec n (length s)) as [[_ ->]|[Hle ->]]; [done|].
  by rewrite firstn_all, take_ge.
Qed.

Lemma split_lf_no_lf l : LF ∉ l → split_lf l = [l].
Proof.
  induction l as [|c l IH]; [done|]. intros [Hc Hl]%not_elem_of_cons.
  simpl. destruct (N.eqb_spec c LF) as [->|_]; [done|]. by rewrite IH.
Qed.

Lemma split_lf_app l r : LF ∉ l → split_lf (l ++ LF :: r) = l :: split_lf r.
Proof.
  induction l as [|c l IH]; [done|]. intros [Hc Hl]%not_elem_of_cons.
  simpl. destruct (N.eqb_spec c LF) as [->|_]; [done|]. by rewrite IH.
Qed.

Lemma split_join_lf lines :
  lines ≠ [] → Forall (λ l, LF ∉ l) lines → split_lf (join_lf lines) = lines.
Proof.
  intros Hne Hall. induction Hall as [|l ls Hl Hls IH]; [done|].
  destruct ls as [|l2 ls]; [by apply split_lf_no_lf|].
  change (join_lf (l :: l2 :: ls)) with (l ++ LF :: join_lf (l2 :: ls)).
  rewrite split_lf_app by done. by rewrite IH.
Qed.

Lemma app_lf_split l r p q :
  LF ∉ l → l ++ LF :: r = p ++ LF :: q →
  (p = l ∧ r = q) ∨ ∃ p', p = l ++ LF :: p' ∧ r = p' ++ LF :: q.
Proof.
  revert p. induction l as [|c l IH]; intros p Hl Heq.
  - destruct p as [|c p]; simpl in Heq.
    + left. by injection Heq.
    + right. injection Heq as <- ->. by exists p.
  - apply not_elem_of_cons in Hl as [Hc Hl].
    destruct p as [|c' p]; simpl in Heq.
    + injection Heq as -> _. done.
    + injection Heq as <- Heq. destruct (IH p Hl Heq) as [[-> ->]|(p' & -> & ->)].
      * by left.
      * right. by exists p'.
Qed.

Lemma join_lf_cons l l2 ls : join_lf (l :: l2 :: ls) = l ++ LF :: join_lf (l2 :: ls).
Proof. reflexivity. Qed.

Lemma join_lf_hashes l ls q :
  LF ∉ l → join_lf (l :: ls) = hashes ++ q → hashes `prefix_of` l.
Proof.
  intros Hl. change hashes with [35; 35]. destruct ls as [|l2 ls].
  - simpl. intros ->. by exists q.
  - rewrite join_lf_cons. destruct l as [|a [|b l]]; simpl; intros Heq.
    + discriminate.
    + injection Heq as _ Heq. discriminate.
    + injection Heq as -> -> _. by exists l.
Qed.

(** No line after the first begins with two hashes: the joined lines hold
    no line feed followed by two hashes. *)
Lemma join_lf_no_next_header lines :
  Forall (λ l, LF ∉ l) lines →
  Forall (λ l, ¬ hashes `prefix_of` l) (tail lines) →
  ¬ occurs_in next_header (join_lf lines).
Proof.
  intros Hall. induction Hall as [|l ls Hl Hls IH]; intros Ht (p & q & Heq).
  - by destruct p.
  - destruct ls as [|l2 ls].
    + simpl in Heq. apply Hl. rewrite Heq. set_solver.
    + rewrite join_lf_cons in Heq. simpl in Ht.
      apply Forall_cons in Ht as [Ht2 Ht]. apply Forall_cons in Hls as [Hl2 Hls'].
      change (next_header ++ q) with (LF :: hashes ++ q) in Heq.
      apply app_lf_split in Heq as [[-> Heq]|(p' & -> & Heq)]; [| |exact Hl].
      * apply Ht2. by eapply join_lf_hashes.
      * apply IH; [done|]. by exists p', q.
Qed.

(** C1, as stated, fails on its example: the line is cut after twenty code
    units, which leaves "Handmade Wood Sign F", not the twenty-two of
    "Handmade Wood Sign For". *)
Lemma keyword_example_is_cut_at_twenty :
  ∃ a, parseAnalysisFromText
         (text_of ["## Suggested SEO Tags (13)";
                   "- Handmade Wood Sign For Wedding Welcome"])
       = Normal a
       ∧ suggested_keywords a = [lit "Handmade Wood Sign F"]
       ∧ suggested_keywords a ≠ [lit "Handmade Wood Sign For"].
Proof.
  eexists. split; [vm_compute; reflexivity|]. by vm_compute.
Qed.

(** C1, amended: for the lines of the matched tags section, the parser
    removes a dash that is the first character of the line, trims the line,
    drops the lines that are then empty and keeps the first twenty code
    units of each other line, in line order; the line
    "- Handmade Wood Sign For Wedding Welcome" yields
    "Handmade Wood Sign F". *)
Theorem keywords_line_by_line :
  (∀ pre w1 w2 lines rest,
     all_space w1 → all_space w2 →
     no_header_in hashes tags_title pre
       (hashes ++ w1 ++ tags_title ++ (w2 ++ join_lf lines) ++ rest) →
     Forall (λ l, LF ∉ l) lines →
     match lines with l :: _ => starts_nonspace l | [] => False end →
     Forall (λ l, ¬ hashes `prefix_of` l) (tail lines) →
     (rest = [] ∨ ∃ q, rest = next_header ++ q) →
     ∃ a, parseAnalysisFromText
            (pre ++ hashes ++ w1 ++ tags_title ++ (w2 ++ join_lf lines) ++ rest)
          = Normal a
          ∧ suggested_keywords a
            = take 20 <$> List.filter truthy (strip_bullet <$> lines))
  ∧ (∃ a, parseAnalysisFromText
            (text_of ["## Suggested SEO Tags (13)";
                      "- Handmade Wood Sign For Wedding Welcome"])
          = Normal a
          ∧ suggested_keywords a = [lit "Handmade Wood Sign F"]).
Proof.
  split.
  - intros pre w1 w2 lines rest Hw1 Hw2 Hno Hlf Hfirst Htail Hrest.
    set (body := w2 ++ join_lf lines) in *.
    destruct (parse_fields (pre ++ hashes ++ w1 ++ tags_title ++ body ++ rest))
      as (a & Hp & _ & Hk & _).
    exists a. split; [done|]. rewrite Hk. unfold tags_of.
    assert (Hbody : skip_space body = join_lf lines).
    { unfold body. rewrite skip_space_app by done. apply skip_space_nonspace.
      destruct lines as [|[|c l] [|l2 ls]]; done. }
    destruct (section_capture tags_re hashes tags_title pre w1 body rest)
      as (mt & -> & ->); try done.
    + rewrite Hbody. by apply join_lf_no_next_header.
    + left. rewrite Hbody. destruct lines as [|[|c l] [|l2 ls]]; done.
    + simpl. rewrite Hbody. unfold keywords_of.
      rewrite split_join_lf; [|by destruct lines|done].
      rewrite (list_fmap_ext clean_keyword strip_bullet lines)
        by (intros; apply clean_keyword_strip_bullet).
      apply list_fmap_ext. intros. apply substring_0.
  - eexists. split; vm_compute; reflexivity.
Qed.

(** Lines of 19, 20 and 21 characters after their dash, a blank line and an
    indented bullet, followed by another section. *)
Lemma keywords_line_by_line_witness :
  ∃ a, parseAnalysisFromText
         (text_of ["## Suggested SEO Tags (13)";
                   "- abcdefghijklmnopqrs";
                   "- abcdefghijklmnopqrst";
                   "-abcdefghijklmnopqrstu";
                   "   ";
                   "  - oak";
                   "## Notes"])
       = Normal a
       ∧ suggested_keywords a
         = [lit "abcdefghijklmnopqrs"; lit "abcdefghijklmnopqrst";
            lit "abcdefghijklmnopqrst"; lit "- oak"].
Proof.
  destruct keywords_line_by_line as [Hlines _].
  destruct (Hlines [] (lit " ") [LF]
           (lit <$> ["- abcdefghijklmnopqrs"; "- abcdefghijklmnopqrst";
                     "-abcdefghijklmnopqrstu"; "   "; "  - oak"])
           (next_header ++ lit " Notes")) as (a & Hp & Hk).
  - repeat constructor.
  - repeat constructor.
  - apply no_header_in_nil.
  - repeat constructor; apply (bool_decide_unpack _); vm_compute; exact I.
  - vm_compute. reflexivity.
  - repeat constructor; intros [q Hq]; vm_compute in Hq; discriminate.
  - right. eexists. reflexivity.
  - exists a. split.
    + rewrite <- Hp. f_equal.
    + rewrite Hk. vm_compute. reflexivity.
Defined.

(** On a block of two well-formed entries the parser and the reference
    reading agree: two records, in source order, each with its own text. *)
Lemma two_recommendations_parsed :
  ∃ a, parseAnalysisFromText two_recommendations = Normal a
       ∧ recommendations a
         = [ {| element := lit "Title";
                suggestion := lit "Add the material.";
                reasoning := lit "Buyers search by material." |};
             {| element := lit "Description";
                suggestion := lit "Mention the size.";
                reasoning := lit "Size matters." |} ]
       ∧ recommendations a = spec_recommendations two_recommendations.
Proof.
  eexists. split; [vm_compute; reflexivity|]. split; vm_compute; reflexivity.
Qed.

(** C6: the parser departs from the reference reading where a name or a
    field is empty, because the white space the patterns skip after
    "Element:" and "Suggestion:" runs over the line end.  An entry without
    a name takes its suggestion line as its name and is kept; an entry
    without a name swallows the header of the entry after it; an entry
    whose two fields are empty takes the "#### Reasoning:" line as its
    suggestion and is kept. *)
Theorem recommendations_depart_from_reference :
  (∃ a, parseAnalysisFromText unnamed_element = Normal a
        ∧ recommendations a
          = [ {| element := lit "#### Suggestion: Add the material.";
                 suggestion := [];
                 reasoning := lit "Buyers search by material." |} ]
        ∧ spec_recommendations unnamed_element = [])
  ∧ (∃ a, parseAnalysisFromText unnamed_then_named = Normal a
          ∧ recommendations a
            = [ {| element := lit "### Element: Title";
                   suggestion := lit "Add the material.";
                   reasoning := [] |} ]
          ∧ spec_recommendations unnamed_then_named
            = [ {| element := lit "Title";
                   suggestion := lit "Add the material.";
                   reasoning := [] |} ])
  ∧ (∃ a, parseAnalysisFromText empty_fields = Normal a
          ∧ recommendations a
            = [ {| element := lit "Title";
                   suggestion := lit "#### Reasoning:";
                   reasoning := [] |} ]
          ∧ spec_recommendations empty_fields = []).
Proof.
  repeat split; eexists; (split; [vm_compute; reflexivity|]);
    split; vm_compute; reflexivity.
Qed.

(** *** What every analysis satisfies *)

Lemma skip_space_starts s : skip_space s ≠ [] → starts_nonspace (skip_space s).
Proof.
  intros Hne. pose proof (skip_space_head s) as Hh.
  by destruct (skip_space s).
Qed.

Lemma rev_skip_space_head l c s :
  rev (skip_space (rev l)) = c :: s → ∃ l', l = c :: l'.
Proof.
  destruct (skip_space_split (rev l)) as (w & _ & Hw).
  intros Hr. apply (f_equal (@rev N)) in Hw.
  rewrite rev_involutive, rev_app_distr, Hr in Hw. simpl in Hw. eauto.
Qed.

Lemma trim_starts s : trim s ≠ [] → starts_nonspace (trim s).
Proof.
  unfold trim. intros Hne.
  destruct (rev (skip_space (rev (skip_space s)))) as [|c t] eqn:Hr; [done|].
  apply rev_skip_space_head in Hr as [l' Hl]. simpl.
  pose proof (skip_space_head s) as Hh. by rewrite Hl in Hh.
Qed.

Lemma keywords_of_short section :
  Forall (λ kw, starts_nonspace kw ∧ (length kw ≤ 20)%nat) (keywords_of section).
Proof.
  unfold keywords_of. apply Forall_fmap, Forall_forall. intros kw Hin.
  apply list_elem_of_In, filter_In in Hin as [Hin Hkw].
  apply list_elem_of_In, list_elem_of_fmap in Hin as (line & -> & _).
  simpl. rewrite substring_0. split.
  - rewrite clean_keyword_strip_bullet in *. unfold strip_bullet in *.
    set (l := match line with 45 :: line' => line' | _ => line end) in *.
    assert (Hs : starts_nonspace (trim l)).
    { apply trim_starts. by destruct (trim l). }
    by destruct (trim l).
  - rewrite length_take. lia.
Qed.

Lemma each_element_kept text ms l :
  each_element text ms = Normal l → Forall (λ r, spec_keep r = true) l.
Proof.
  revert l. induction ms as [|mt ms IH]; intros l; simpl.
  - by intros [= <-].
  - unfold element_record.
    destruct (defined (capture mt)) as [name|] eqn:Hn; simpl; [|done].
    destruct (field_of _ suggestion_re) as [sg|]; simpl; [|done].
    destruct (field_of _ reasoning_re) as [rs|]; simpl; [|done].
    destruct (truthy (trim name) && (truthy sg || truthy rs)) eqn:Hkeep; simpl;
      destruct (each_element text ms) as [rsl|]; simpl; try done;
      intros [= <-]; [constructor; [exact Hkeep|]|]; by apply IH.
Qed.

(** Every suggested keyword begins with a character that is not white
    space and has at most twenty code units; every recommendation has a
    name, and a suggestion or a reasoning. *)
Theorem analysis_is_well_formed (text : jsstring) :
  ∃ a, parseAnalysisFromText text = Normal a
       ∧ Forall (λ kw, starts_nonspace kw ∧ (length kw ≤ 20)%nat)
           (suggested_keywords a)
       ∧ Forall (λ r, element r ≠ [] ∧ (suggestion r ≠ [] ∨ reasoning r ≠ []))
           (recommendations a).
Proof.
  destruct (parse_fields text) as (a & Hp & _ & Hk & Hnone & Hsome).
  exists a. split; [done|]. split.
  - rewrite Hk. unfold tags_of.
    destruct (str_match text tags_re) as [mt|]; [|constructor].
    destruct (capture mt); [apply keywords_of_short|constructor].
  - destruct (str_match text recommendations_re) as [mt|] eqn:Hm.
    + destruct (Hsome mt eq_refl) as (c & _ & Hc).
      apply each_element_kept in Hc. eapply Forall_impl; [exact Hc|].
      intros [e sg rs]. unfold spec_keep. simpl.
      intros [He Hf]%andb_true_iff. split; [by destruct e|].
      apply orb_true_iff in Hf as [?|?]; [left; by destruct sg|right; by destruct rs].
    + rewrite Hnone by done. constructor.
Qed.

End ParserSpec.

(** ** Facts about the cache *)

Module CacheFacts.
Import JS Cache.

Section Facts.
Context {V : Type} (null : V).

Lemma cleanup_fold_lookup (now : Z) (c0 m : gmap jsstring (CacheEntry V)) k :
  map_fold (λ key entry acc,
              if (now >? expiry entry)%Z then delete key acc else acc) c0 m !! k
  = match m !! k with
    | Some e => if (now >? expiry e)%Z then None else c0 !! k
    | None => c0 !! k
    end.
Proof.
  revert k.
  apply (map_fold_weak_ind (λ r m, ∀ k,
           r !! k = match m !! k with
                    | Some e => if (now >? expiry e)%Z then None else c0 !! k
                    | None => c0 !! k
                    end)).
  - intros k. by rewrite lookup_empty.
  - intros i x m' r Hi IH k. destruct (decide (i = k)) as [->|Hne].
    + rewrite lookup_insert_eq. destruct (now >? expiry x)%Z.
      * by rewrite lookup_delete_eq.
      * by rewrite IH, Hi.
    + rewrite lookup_insert_ne by done. destruct (now >? expiry x)%Z.
      * rewrite lookup_delete_ne by done. apply IH.
      * apply IH.
Qed.

(** [cleanup] keeps exactly the entries that have not expired. *)
Lemma cleanup_lookup (now : Z) (c : gmap jsstring (CacheEntry V)) k :
  cleanup now c !! k
  = match c !! k with
    | Some e => if (now >? expiry e)%Z then None else Some e
    | None => None
    end.
Proof.
  unfold cleanup. rewrite cleanup_fold_lookup.
  destruct (c !! k) as [e|] eqn:Hk; [|done]. by destruct (now >? expiry e)%Z.
Qed.

Lemma sweeps_lookup times : ∀ (c : gmap jsstring (CacheEntry V)) k e t,
  c !! k = Some e →
  Forall (λ s, (s ≤ t)%Z) times →
  sweeps times c !! k = Some e
  ∨ (sweeps times c !! k = None ∧ (t > expiry e)%Z).
Proof.
  unfold sweeps. induction times as [|s times IH]; intros c k e t Hk Hle; simpl.
  - by left.
  - apply Forall_cons in Hle as [Hs Hle].
    destruct (s >? expiry e)%Z eqn:Hx.
    + right. split; [|apply Z.gtb_lt in Hx; lia].
      assert (Hnone : cleanup s c !! k = None).
      { rewrite cleanup_lookup, Hk. by rewrite Hx. }
      clear -Hnone. revert Hnone. generalize (cleanup s c).
      induction times as [|s' times IH]; intros c' Hc'; simpl; [done|].
      apply IH. rewrite cleanup_lookup. by rewrite Hc'.
    + apply IH; [|done]. rewrite cleanup_lookup, Hk. by rewrite Hx.
Qed.

End Facts.
End CacheFacts.

(** ** The cache: the properties of the specification *)

Module CacheSpec.
Import JS Cache CacheFacts.

(** C4: after [set(k, v, ttl)] at time [t], [get(k)] at a time up to the
    expiry [t + ttl] returns [v] and leaves the cache as it is; at a later
    time it returns [null] and removes the entry.  What [get] returns does
    not depend on the sweeps that ran in between.  [cleanup] removes the
    entries whose expiry has passed and no other.  The time to live is five
    minutes when none is given.  With a time to live of 1000, [get] returns
    [v] 500 ms after the [set] and [null] 1500 ms after it. *)
Theorem cache_entry_lifetime {V : Type} (null : V) :
  (∀ (c : gmap jsstring (CacheEntry V)) k v ttl t t',
     (t' ≤ t + ttl)%Z →
     get null t' (set t c k v (Some ttl)) k = (v, set t c k v (Some ttl)))
  ∧ (∀ (c : gmap jsstring (CacheEntry V)) k v ttl t t',
     (t' > t + ttl)%Z →
     get null t' (set t c k v (Some ttl)) k = (null, delete k c))
  ∧ (∀ (c : gmap jsstring (CacheEntry V)) k v ttl t t' times,
     Forall (λ s, (s ≤ t')%Z) times →
     (get null t' (sweeps times (set t c k v (Some ttl))) k).1
     = if (t' >? t + ttl)%Z then null else v)
  ∧ (∀ (c : gmap jsstring (CacheEntry V)) now k,
     cleanup now c !! k
     = match c !! k with
       | Some e => if (now >? expiry e)%Z then None else Some e
       | None => None
       end)
  ∧ (∀ (c : gmap jsstring (CacheEntry V)) k v t,
     set t c k v None = set t c k v (Some 300000%Z))
  ∧ (∀ (c : gmap jsstring (CacheEntry V)) v t,
     (get null (t + 500) (set t c (lit "k") v (Some 1000%Z)) (lit "k")).1 = v
     ∧ (get null (t + 1500) (set t c (lit "k") v (Some 1000%Z)) (lit "k")).1 = null).
Proof.
  assert (Hfresh : ∀ (c : gmap jsstring (CacheEntry V)) k v ttl t t',
    (t' ≤ t + ttl)%Z →
    get null t' (set t c k v (Some ttl)) k = (v, set t c k v (Some ttl))).
  { intros c k v ttl t t' Hle. unfold get, set. rewrite lookup_insert_eq. simpl.
    destruct (Z.gtb_spec t' (t + ttl)) as [Hgt|_]; [lia|done]. }
  assert (Hstale : ∀ (c : gmap jsstring (CacheEntry V)) k v ttl t t',
    (t' > t + ttl)%Z →
    get null t' (set t c k v (Some ttl)) k = (null, delete k c)).
  { intros c k v ttl t t' Hgt. unfold get, set. rewrite lookup_insert_eq. simpl.
    destruct (Z.gtb_spec t' (t + ttl)) as [_|Hle]; [|lia].
    by rewrite delete_insert_eq. }
  split; [exact Hfresh|]. split; [exact Hstale|]. split; [|split; [|split]].
  - intros c k v ttl t t' times Hle.
    destruct (sweeps_lookup times (set t c k v (Some ttl)) k
                {| data := v; timestamp := t; expiry := t + ttl |} t')
      as [Hk|[Hk Hgt]]; [apply lookup_insert_eq|done|..];
      unfold get; rewrite Hk; simpl in *.
    + by destruct (t' >? t + ttl)%Z.
    + destruct (Z.gtb_spec t' (t + ttl)) as [_|Hle']; [done|lia].
  - intros c now k. apply cleanup_lookup.
  - reflexivity.
  - intros c v t. rewrite Hfresh by lia. rewrite Hstale by lia. done.
Qed.

(** A cache of strings: the entry is read back within its second, not after
    it, and a sweep in between changes nothing. *)
Lemma cache_entry_lifetime_witness :
  get [] 1500 (set 1000 (∅ : gmap jsstring (CacheEntry jsstring))
                 (lit "k") (lit "v") (Some 1000%Z)) (lit "k")
  = (lit "v", set 1000 ∅ (lit "k") (lit "v") (Some 1000%Z))
  ∧ get [] 2500 (set 1000 (∅ : gmap jsstring (CacheEntry jsstring))
                   (lit "k") (lit "v") (Some 1000%Z)) (lit "k")
    = ([], delete (lit "k") ∅)
  ∧ (get [] 1500 (sweeps [1200%Z]
                    (set 1000 (∅ : gmap jsstring (CacheEntry jsstring))
                       (lit "k") (lit "v") (Some 1000%Z))) (lit "k")).1
    = lit "v".
Proof.
  destruct (cache_entry_lifetime (V := jsstring) []) as (Hfresh & Hstale & Hsweep & _).
  split; [apply Hfresh; lia|]. split; [apply Hstale; lia|].
  rewrite Hsweep; [reflexivity|]. repeat constructor. lia.
Defined.

End CacheSpec.

(** ** The invariant is kept by every event *)

Module QueueFacts.
Import Queue QueueInvariant.

Section Facts.
Context {V E : Type}.
Implicit Types (s : state V E) (t : task) (o : outcome V E) (ev : event V E).

Lemma remove_first_elem t x l : x ∈ remove_first t l → x ∈ l.
Proof.
  induction l as [|y l IH]; simpl; [done|].
  destruct (Nat.eqb_spec y t); [by right|].
  intros [->|Hin]%elem_of_cons; [by left|right; auto].
Qed.

Lemma remove_first_length t l : t ∈ l → S (length (remove_first t l)) = length l.
Proof.
  induction l as [|y l IH]; simpl; [by intros ?%elem_of_nil|].
  destruct (Nat.eqb_spec y t) as [->|Hne]; [done|].
  intros [?|Hin]%elem_of_cons; [congruence|]. simpl. by rewrite IH.
Qed.

Lemma remove_first_NoDup t l : NoDup l → NoDup (remove_first t l) ∧ t ∉ remove_first t l.
Proof.
  induction 1 as [|y l Hy Hl [IH1 IH2]]; simpl.
  - split; [constructor|apply not_elem_of_nil].
  - destruct (Nat.eqb_spec y t) as [->|Hne]; [done|]. split.
    + constructor; [|done]. intros Hin. by apply remove_first_elem in Hin.
    + by intros [?|?]%elem_of_cons.
Qed.

Lemma initial_wf : wf (initial (V := V) (E := E)).
Proof.
  split; simpl; try done.
  - constructor.
  - constructor.
  - intros t [o Ho]. by rewrite lookup_empty in Ho.
  - unfold maxConcurrent. lia.
Qed.

Lemma processQueue_wf s : wf s → wf (processQueue s).
Proof.
  intros [Hnd Hfifo Hrun Hrnd Hret Hcount Hceil]. unfold processQueue.
  destruct (Nat.leb_spec maxConcurrent (activeRequests s)) as [Hfull|Hfree];
    [by split|].
  destruct (queue s) as [|p rest] eqn:Hq; [by split; rewrite ?Hq|].
  assert (Hp : p ∉ started s).
  { apply NoDup_app in Hnd as (_ & Hdisj & _). intros Hin.
    apply (Hdisj p Hin). by left. }
  split; simpl.
  - by rewrite <- app_assoc.
  - by rewrite <- app_assoc.
  - intros t [Hin| ->%list_elem_of_singleton]%elem_of_app;
      apply elem_of_app; [left; by apply Hrun|right; by left].
  - apply NoDup_app. split; [done|]. split; [|apply NoDup_singleton].
    intros t Hin ->%list_elem_of_singleton. by apply Hp, Hrun.
  - intros t Hsome. destruct (Hret t Hsome) as [Hst Hnr]. split.
    + apply elem_of_app. by left.
    + intros [?| ->%list_elem_of_singleton]%elem_of_app; [done|]. by apply Hp.
  - rewrite length_app. simpl. lia.
  - lia.
Qed.

Lemma processQueue_busy s :
  (activeRequests s ≤ maxConcurrent)%nat →
  (length (queue s) ≤ 1 ∨ 2 ≤ activeRequests s)%nat →
  busy (processQueue s).
Proof.
  unfold busy, processQueue, maxConcurrent. intros Hceil Hnear.
  destruct (Nat.leb_spec 3 (activeRequests s)) as [Hfull|Hfree]; [right; lia|].
  destruct (queue s) as [|p rest] eqn:Hq; [by left|]. simpl.
  destruct Hnear as [Hone|Htwo].
  - left. destruct rest; [done|simpl in Hone; lia].
  - right. lia.
Qed.

Lemma step_wf s ev s' : wf s → busy s → step s ev = Some s' → wf s' ∧ busy s'.
Proof.
  intros Hwf Hbusy. pose proof Hwf as [Hnd Hfifo Hrun Hrnd Hret Hcount Hceil].
  destruct ev as [t|t o|t]; simpl; case_bool_decide as Hen; try discriminate;
    intros [= <-].
  - unfold add. split.
    + apply processQueue_wf. rewrite Hfifo in Hen. split; simpl; try done.
      * rewrite app_assoc. apply NoDup_app. split; [done|].
        split; [|apply NoDup_singleton].
        by intros x Hx ->%list_elem_of_singleton.
      * by rewrite Hfifo, app_assoc.
    + apply processQueue_busy; simpl; [done|].
      destruct Hbusy as [Hq|Hfull]; [left; rewrite Hq; simpl; lia|right].
      rewrite Hfull. unfold maxConcurrent. lia.
  - assert (Hnone : returned s !! t = None).
    { destruct (returned s !! t) eqn:Hr; [|done].
      by destruct (Hret t (mk_is_Some _ _ Hr)). }
    destruct (remove_first_NoDup t (running s) Hrnd) as [Hnd' Hnot].
    split; [|done]. split; simpl; try done.
    + intros x Hx. by apply Hrun, (remove_first_elem t).
    + unfold settle_promise. rewrite Hnone. intros x Hsome.
      destruct (decide (t = x)) as [<-|Hne].
      * split; [by apply Hrun|done].
      * rewrite lookup_insert_ne in Hsome by done.
        destruct (Hret x Hsome) as [? Hnr]. split; [done|].
        intros Hx. by apply Hnr, (remove_first_elem t).
    + rewrite length_app. simpl.
      pose proof (remove_first_length t (running s) Hen). lia.
  - pose proof (remove_first_length t (finishing s) Hen) as Hlen.
    unfold finish. split.
    + apply processQueue_wf. split; simpl; try done; lia.
    + apply processQueue_busy; simpl; [lia|].
      destruct Hbusy as [Hq|Hfull]; [left; rewrite Hq; simpl; lia|right].
      rewrite Hfull. unfold maxConcurrent. simpl. lia.
Qed.

Lemma run_wf evs : ∀ s s', wf s → busy s → run evs s = Some s' → wf s' ∧ busy s'.
Proof.
  induction evs as [|ev evs IH]; intros s s' Hwf Hbusy; simpl.
  - by intros [= <-].
  - destruct (step s ev) as [s1|] eqn:Hstep; [|discriminate].
    destruct (step_wf _ _ _ Hwf Hbusy Hstep). eauto.
Qed.

Lemma reachable_wf evs s : run evs initial = Some s → wf s ∧ busy s.
Proof. apply run_wf; [apply initial_wf|by left]. Qed.

(** When a task waits, the completion of a running task, whatever its
    outcome, starts the first waiting task. *)
Lemma completion_starts_next s t o p ps :
  busy s → t ∈ running s → queue s = p :: ps →
  ∃ s', run [Settle t o; Finally t] s = Some s'
        ∧ started s' = started s ++ [p] ∧ queue s' = ps ∧ p ∈ running s'.
Proof.
  intros Hbusy Hrun Hq. destruct Hbusy as [Hempty|Hfull]; [congruence|].
  simpl. rewrite bool_decide_eq_true_2 by done.
  simpl. rewrite bool_decide_eq_true_2 by (apply elem_of_app; right; by left).
  eexists. split; [reflexivity|].
  unfold finish, processQueue. simpl. rewrite Hfull, Hq. simpl.
  repeat split. apply elem_of_app. right. by left.
Qed.

(** While every slot is taken, a further task starts only after the finally
    block of a task that had settled, or that ran and has settled since. *)
Lemma start_needs_completion evs : ∀ s s',
  activeRequests s = maxConcurrent →
  run evs s = Some s' → started s' ≠ started s →
  ∃ t, Finally t ∈ evs
       ∧ (t ∈ finishing s ∨ (t ∈ running s ∧ ∃ o, Settle t o ∈ evs)).
Proof.
  induction evs as [|ev evs IH]; intros s s' Hfull; simpl.
  - by intros [= <-].
  - destruct (step s ev) as [s1|] eqn:Hstep; [|discriminate].
    intros Hrun Hne. destruct ev as [t|t o|t]; simpl in Hstep;
      case_bool_decide as Hen; try discriminate; injection Hstep as <-.
    + assert (Hadd : activeRequests (add t s) = maxConcurrent
                     ∧ started (add t s) = started s
                     ∧ running (add t s) = running s
                     ∧ finishing (add t s) = finishing s).
      { unfold add, processQueue. simpl. rewrite Hfull. by simpl. }
      destruct Hadd as (Ha & Hs & Hr & Hf).
      destruct (IH _ _ Ha Hrun) as (t' & Hfin & Hwhere); [by rewrite Hs|].
      exists t'. split; [by right|]. rewrite Hr, Hf in Hwhere.
      destruct Hwhere as [?|[? [o Ho]]]; [by left|right].
      split; [done|]. exists o. by right.
    + destruct (IH (settle t o s) s' Hfull Hrun Hne) as (t' & Hfin & Hwhere).
      exists t'. split; [by right|]. simpl in Hwhere.
      destruct Hwhere as [[?| ->%list_elem_of_singleton]%elem_of_app|[Hin [o' Ho']]].
      * by left.
      * right. split; [done|]. exists o. by left.
      * right. split; [by apply (remove_first_elem t)|]. exists o'. by right.
    + exists t. split; [by left|by left].
Qed.

Lemma processQueue_returned s : returned (processQueue s) = returned s.
Proof.
  unfold processQueue. destruct (maxConcurrent <=? activeRequests s)%nat; [done|].
  by destruct (queue s).
Qed.

(** The promise [add] returned is settled by the wrapper of its own task,
    and by nothing else. *)
Lemma run_returned evs : ∀ s s', wf s → busy s → run evs s = Some s' →
  ∀ t o, returned s' !! t = Some o
         ↔ returned s !! t = Some o ∨ Settle t o ∈ evs.
Proof.
  induction evs as [|ev evs IH]; intros s s' Hwf Hbusy; simpl.
  - intros [= <-] t o. split; [by left|]. intros [?|?%elem_of_nil]; done.
  - destruct (step s ev) as [s1|] eqn:Hstep; [|discriminate].
    intros Hrun t o. destruct (step_wf _ _ _ Hwf Hbusy Hstep) as [Hwf1 Hbusy1].
    rewrite (IH _ _ Hwf1 Hbusy1 Hrun t o).
    assert (Hone : returned s1 !! t = Some o
                   ↔ returned s !! t = Some o ∨ ev = Settle t o).
    { destruct ev as [t0|t0 o0|t0]; simpl in Hstep;
        case_bool_decide as Hen; try discriminate; injection Hstep as <-.
      - assert (returned (add t0 s) = returned s) as ->.
        { unfold add. by rewrite processQueue_returned. }
        split; [by left|]. by intros [?|?].
      - simpl. unfold settle_promise.
        assert (Hnone : returned s !! t0 = None).
        { destruct (returned s !! t0) eqn:Hr; [|done].
          by destruct (wf_returned _ Hwf t0 (mk_is_Some _ _ Hr)). }
        rewrite Hnone. destruct (decide (t0 = t)) as [->|Hne].
        + rewrite lookup_insert_eq, Hnone. split.
          * intros [= <-]. right. by destruct o0.
          * intros [?|[= <-]]; [done|]. by destruct o0.
        + rewrite lookup_insert_ne by done. split; [by left|].
          intros [?|[= ? ?]]; done.
      - assert (returned (finish t0 s) = returned s) as ->.
        { unfold finish. by rewrite processQueue_returned. }
        split; [by left|]. by intros [?|?]. }
    rewrite Hone, elem_of_cons. split.
    + intros [[?|?]|?]; auto.
    + intros [?|[?|?]]; auto.
Qed.

End Facts.
End QueueFacts.

(** ** The queue: the properties of the specification *)

Module QueueSpec.
Import Queue QueueInvariant QueueFacts QueueScenario.

(** C3: in every state the queue reaches, at most three tasks are in flight;
    the tasks start in the order of their submission; no task waits while a
    slot is free, and when a task waits the completion of a running task,
    with either outcome, starts the first waiting task.  Of five tasks
    added, three run and the fourth and fifth wait; the fourth starts only
    after one of the first three has settled and its finally block has run,
    and does start then. *)
Theorem queue_bounded_fifo {V E : Type} :
  (∀ (evs : list (event V E)) (s : state V E),
     run evs initial = Some s →
     (length (running s) ≤ 3)%nat ∧ (activeRequests s ≤ 3)%nat
     ∧ submitted s = started s ++ queue s
     ∧ (queue s = [] ∨ activeRequests s = 3%nat)
     ∧ (∀ t o p ps, t ∈ running s → queue s = p :: ps →
          ∃ s', run [Settle t o; Finally t] s = Some s'
                ∧ started s' = started s ++ [p] ∧ queue s' = ps
                ∧ p ∈ running s'))
  ∧ (run [Add 1; Add 2; Add 3; Add 4; Add 5]%nat initial
       = Some (five_added (V := V) (E := E))
     ∧ (∀ (evs : list (event V E)) s,
          run evs five_added = Some s → 4%nat ∈ started s →
          ∃ t, t ∈ [1; 2; 3]%nat ∧ Finally t ∈ evs ∧ ∃ o, Settle t o ∈ evs)
     ∧ (∀ t (o : outcome V E), t ∈ [1; 2; 3]%nat →
          ∃ s, run [Settle t o; Finally t] five_added = Some s
               ∧ started s = [1; 2; 3; 4]%nat ∧ 4%nat ∈ running s)).
Proof.
  split.
  - intros evs s Hrun. destruct (reachable_wf evs s Hrun) as [Hwf Hbusy].
    pose proof (wf_count _ Hwf) as Hcount. pose proof (wf_ceiling _ Hwf) as Hceil.
    unfold maxConcurrent in Hceil.
    split; [lia|]. split; [done|]. split; [by apply wf_fifo|].
    split; [exact Hbusy|].
    intros t o p ps Ht Hq. by apply completion_starts_next.
  - split; [reflexivity|]. split.
    + intros evs s Hrun H4.
      destruct (start_needs_completion evs five_added s eq_refl Hrun)
        as (t & Hfin & [Hin|[Hin Hset]]).
      * intros Heq. rewrite Heq in H4. simpl in H4.
        repeat (apply elem_of_cons in H4 as [H4|H4]; [discriminate|]).
        by apply elem_of_nil in H4.
      * by apply elem_of_nil in Hin.
      * by exists t.
    + intros t o Ht.
      destruct (completion_starts_next (five_added (V := V) (E := E)) t o 4%nat [5%nat])
        as (s & Hrun & Hst & _ & Hin); [by right|done|done|].
      by exists s.
Qed.

(** Four tasks; the second fails and the fourth takes its slot. *)
Lemma queue_bounded_fifo_witness :
  ∃ s : state nat string,
    run [Add 1; Add 2; Add 3; Add 4; Settle 2 (Rejected "boom"); Finally 2]%nat
      initial = Some s
    ∧ (length (running s) ≤ 3)%nat
    ∧ submitted s = started s ++ queue s
    ∧ running s = [1; 3; 4]%nat.
Proof.
  destruct (run [Add 1; Add 2; Add 3; Add 4; Settle 2 (Rejected "boom"); Finally 2]%nat
              (initial (V := nat) (E := string))) as [s|] eqn:Hrun;
    [|vm_compute in Hrun; discriminate].
  exists s. split; [reflexivity|].
  destruct (proj1 queue_bounded_fifo _ s Hrun) as (Hlen & _ & Hfifo & _).
  split; [exact Hlen|]. split; [exact Hfifo|].
  vm_compute in Hrun. injection Hrun as <-. reflexivity.
Defined.

(** C9: the promise [add] returned for a task is fulfilled with a value
    exactly when the task's own promise was fulfilled with that value, and
    rejected with a reason exactly when the task's own promise was rejected
    with that reason; it is pending as long as the task has not settled, in
    particular while the task waits or runs. *)
Theorem add_settles_as_task {V E : Type} (evs : list (event V E)) (s : state V E) :
  run evs initial = Some s →
  ∀ t,
    (∀ v, promise_of s t = Settled (Fulfilled v) ↔ Settle t (Fulfilled v) ∈ evs)
    ∧ (∀ e, promise_of s t = Settled (Rejected e) ↔ Settle t (Rejected e) ∈ evs)
    ∧ (promise_of s t = Pending ↔ ∀ o, Settle t o ∉ evs)
    ∧ (t ∈ queue s ∨ t ∈ running s → promise_of s t = Pending).
Proof.
  intros Hrun t. destruct (reachable_wf evs s Hrun) as [Hwf Hbusy].
  assert (Hret : ∀ o, returned s !! t = Some o ↔ Settle t o ∈ evs).
  { intros o. rewrite (run_returned evs initial s initial_wf (or_introl eq_refl) Hrun).
    simpl. rewrite lookup_empty. split; [by intros [?|?]|by right]. }
  assert (Hprom : ∀ o, promise_of s t = Settled o ↔ Settle t o ∈ evs).
  { intros o. rewrite <- Hret. unfold promise_of.
    destruct (returned s !! t); split; congruence. }
  split; [intros v; apply Hprom|]. split; [intros e; apply Hprom|].
  assert (Hpend : promise_of s t = Pending ↔ ∀ o, Settle t o ∉ evs).
  { split.
    - intros Hp o Ho. apply Hprom in Ho. congruence.
    - intros Hno. destruct (promise_of s t) as [|o] eqn:Hp; [done|].
      destruct (Hno o). by apply Hprom. }
  split; [exact Hpend|].
  intros Hin. unfold promise_of.
  destruct (returned s !! t) as [o|] eqn:Hr; [|done].
  destruct (wf_returned _ Hwf t (mk_is_Some _ _ Hr)) as [Hst Hnr].
  destruct Hin as [Hq|?]; [|done].
  pose proof (wf_nodup _ Hwf) as Hnd.
  apply NoDup_app in Hnd as (_ & Hdisj & _). by destruct (Hdisj t Hst).
Qed.

(** One task fulfils with 42, another rejects with "boom", a third waits for
    its turn: the promises follow. *)
Lemma add_settles_as_task_witness :
  ∃ s : state nat string,
    run [Add 1; Add 2; Add 3; Add 4; Settle 2 (Rejected "boom");
         Settle 1 (Fulfilled 42)]%nat initial = Some s
    ∧ promise_of s 1%nat = Settled (Fulfilled 42%nat)
    ∧ promise_of s 2%nat = Settled (Rejected "boom")
    ∧ promise_of s 3%nat = Pending
    ∧ promise_of s 4%nat = Pending.
Proof.
  destruct (run [Add 1; Add 2; Add 3; Add 4; Settle 2 (Rejected "boom");
                 Settle 1 (Fulfilled 42)]%nat
              (initial (V := nat) (E := string))) as [s|] eqn:Hrun;
    [|vm_compute in Hrun; discriminate].
  exists s. split; [reflexivity|].
  pose proof (add_settles_as_task _ s Hrun) as Hs.
  split; [apply (Hs 1%nat); repeat constructor|].
  split; [apply (Hs 2%nat); repeat constructor|].
  split; [apply (proj1 (proj2 (proj2 (Hs 3%nat))))
         |apply (proj1 (proj2 (proj2 (Hs 4%nat))))].
  - intros o Ho.
    repeat (apply elem_of_cons in Ho as [Ho|Ho]; [discriminate|]).
    by apply elem_of_nil in Ho.
  - intros o Ho.
    repeat (apply elem_of_cons in Ho as [Ho|Ho]; [discriminate|]).
    by apply elem_of_nil in Ho.
Defined.

End QueueSpec.

(** ** The request wrappers: the properties of the specification *)

Module NetSpec.
Import JS Cache Net NetTerms.


Section Wrapper.
Context {J : Type} (null : J) (truthy_value : J → bool)
  (stringify : J → jsstring) (empty_object : J).

Lemma api_catch_new_Error msg : api_catch (new_Error msg) = new_Error msg.
Proof. reflexivity. Qed.

Lemma api_catch_AbortError : api_catch AbortError = request_timeout.
Proof. reflexivity. Qed.

Lemma fetch_late endpoint options (net : network (J := J)) :
  late (default 30000%Z (timeout options)) net →
  fetch (api_call truthy_value stringify endpoint options) net = Rejects AbortError.
Proof.
  unfold fetch, late. simpl. destruct net as [ms r|ms e|]; intros Hl; [..|done].
  - destruct (Z.ltb_spec ms (default 30000%Z (timeout options))); [lia|done].
  - destruct (Z.ltb_spec ms (default 30000%Z (timeout options))); [lia|done].
Qed.

Lemma apiRequest_no_hit now store endpoint options (net : network (J := J)) :
  cache_hit null truthy_value stringify empty_object now store endpoint options = false →
  (apiRequest null truthy_value stringify empty_object now store endpoint options net).1
  = match fetch (api_call truthy_value stringify endpoint options) net with
    | Resolves response =>
        if negb (ok response)
        then Rejects (server_error (status response) (statusText response))
        else match json response with
             | Resolves data => Resolves data
             | Rejects error => Rejects (api_catch error)
             | Hangs => Hangs
             end
    | Rejects error => Rejects (api_catch error)
    | Hangs => Hangs
    end.
Proof.
  intros Hhit. unfold apiRequest. rewrite Hhit.
  destruct (fetch _ net) as [r|e|]; [|done..].
  destruct (negb (ok r)); [done|]. by destruct (json r).
Qed.

Lemma follow_up_no_hit now store endpoint request :
  cache_hit null truthy_value stringify empty_object now store endpoint
    (follow_up_options request) = false.
Proof. reflexivity. Qed.

End Wrapper.





End NetSpec.

(** ** Facts about well-formed recommendation entries *)

Module EntryFacts.
Import JS Parser Semantics MatchFacts Shapes SectionFacts Fields ParserFacts
  Readings ParserSpec Entries.

(** *** Stepping a scan *)

Lemma search_cons_none re bef c aft :
  match_at re bef (c :: aft) = None →
  search re bef (c :: aft) = search re (c :: bef) aft.
Proof. intros H. simpl. by rewrite H. Qed.

Lemma scan_all_cons_none re bef c aft :
  match_at re bef (c :: aft) = None →
  scan_all re 0 bef (c :: aft) = scan_all re 0 (c :: bef) aft.
Proof. intros H. simpl. by rewrite H. Qed.

Lemma scan_all_skip re : ∀ w k bef aft,
  scan_all re (length w + k) bef (w ++ aft) = scan_all re k (rev w ++ bef) aft.
Proof.
  induction w as [|c w IH]; intros k bef aft; [done|].
  simpl. rewrite IH. by rewrite <- app_assoc.
Qed.

Lemma match_at_not_line_start re r c bef aft :
  pattern re = Seq Bol r → is_line_terminator c = false →
  match_at re (c :: bef) aft = None.
Proof.
  intros Hp Hc. unfold match_at. rewrite Hp. cbn [rmatch].
  unfold at_line_start. cbn [before]. rewrite Hc. by rewrite andb_false_r.
Qed.

(** Inside a line no match of an anchored pattern begins. *)
Lemma scan_all_inside_line re r : ∀ w c bef aft,
  pattern re = Seq Bol r →
  is_line_terminator c = false → single_line w →
  scan_all re 0 (c :: bef) (w ++ aft) = scan_all re 0 (rev w ++ c :: bef) aft.
Proof.
  induction w as [|d w IH]; intros c bef aft Hp Hc Hw; [done|].
  apply Forall_cons in Hw as [Hd Hw]. simpl app.
  rewrite scan_all_cons_none by (by eapply match_at_not_line_start).
  rewrite (IH d); [|done..]. by rewrite <- app_assoc.
Qed.

Lemma single_line_last w c bef :
  single_line w → is_line_terminator c = false →
  ∃ d b, rev w ++ c :: bef = d :: b ∧ is_line_terminator d = false.
Proof.
  intros Hw Hc. destruct (rev w) as [|d b] eqn:Hr; simpl; [by eauto|].
  exists d, (b ++ c :: bef). split; [done|].
  assert (Hin : d ∈ w).
  { apply list_elem_of_In, in_rev. rewrite Hr. by left. }
  by eapply Forall_forall in Hw.
Qed.

Lemma single_line_dot w : single_line w → Forall (λ c, dot c = true) w.
Proof.
  intros Hw. eapply Forall_impl; [exact Hw|].
  intros c Hc. unfold dot. simpl in Hc. by rewrite Hc.
Qed.

Lemma element_rmatch bef name aft :
  line_start bef → starts_nonspace name → single_line name → line_end aft →
  rmatch true (pattern element_re)
    (MState bef (lit "###" ++ [32] ++ lit "Element:" ++ [32] ++ name ++ aft) None)
    Some
  = Some (MState (rev name ++ [32] ++ rev (lit "Element:") ++ [32]
                  ++ rev (lit "###") ++ bef)
            aft (Some name)).
Proof.
  intros Hb Hn Hl He.
  change (pattern element_re)
    with (Seq Bol (Seq (Lit (lit "###")) (Seq spaces (Seq (Lit (lit "Element:"))
            (Seq spaces (Group (Star true dot))))))).
  cbn [rmatch]. 
  assert (Hstart : at_line_start true (MState bef
            (lit "###" ++ [32] ++ lit "Element:" ++ [32] ++ name ++ aft) None) = true).
  { unfold at_line_start. cbn [before]. by destruct bef. }
  rewrite Hstart. cbn [rmatch before after group1]. rewrite eat_app.
  unfold spaces. cbn [rmatch before after group1].
  apply (star_greedy_max is_space _ _ [32]); [by repeat constructor|done|].
  cbn [rmatch before after group1]. rewrite eat_app.
  apply (star_greedy_max is_space _ _ [32]);
    [by repeat constructor|by apply starts_nonspace_head|].
  cbn [rmatch before after group1].
  apply star_greedy_max; [by apply single_line_dot| |].
  - destruct aft as [|c aft]; [done|]. unfold dot. simpl in He. by rewrite He.
  - cbn [before after group1]. do 3 f_equal.
    set (B := rev [32] ++ rev (lit "Element:") ++ rev [32] ++ rev (lit "###") ++ bef).
    rewrite length_app, length_rev.
    replace (length name + length B - length B)%nat with (length name) by lia.
    apply take_app_length.
Qed.

Lemma element_match_at bef name aft :
  line_start bef → starts_nonspace name → single_line name → line_end aft →
  match_at element_re bef (element_mark ++ name ++ aft)
  = Some {| index := length bef;
            whole := element_mark ++ name;
            capture := Some name |}.
Proof.
  intros Hb Hn Hl He. unfold match_at.
  change (multiline element_re) with true.
  change (element_mark ++ name ++ aft)
    with (lit "###" ++ [32] ++ lit "Element:" ++ [32] ++ name ++ aft).
  rewrite element_rmatch by done. cbn [before group1]. do 2 f_equal.
  rewrite !length_app, !length_rev.
  change (lit "###" ++ [32] ++ lit "Element:" ++ [32] ++ name ++ aft)
    with (element_mark ++ name ++ aft).
  rewrite app_assoc. apply take_app_length'.
  rewrite length_app. simpl. lia.
Qed.

Lemma rev_line_last w bef :
  w ≠ [] → single_line w →
  ∃ d b, rev w ++ bef = d :: b ∧ is_line_terminator d = false.
Proof.
  intros Hne Hw. destruct (rev w) as [|d b] eqn:Hr.
  - apply (f_equal (@rev N)) in Hr. rewrite rev_involutive in Hr. done.
  - exists d, (b ++ bef). split; [done|].
    assert (Hin : d ∈ w) by (apply list_elem_of_In, in_rev; rewrite Hr; by left).
    by eapply Forall_forall in Hw.
Qed.

Lemma scan_all_match re w bef aft mt :
  match_at re bef (w ++ aft) = Some mt → whole mt = w → w ≠ [] →
  scan_all re 0 bef (w ++ aft) = mt :: scan_all re 0 (rev w ++ bef) aft.
Proof.
  intros Hm Hw Hne. destruct w as [|c w]; [done|].
  simpl app in *. cbn [scan_all]. rewrite Hm, Hw. f_equal. simpl length.
  cbn [Nat.pred]. rewrite <- (Nat.add_0_r (length w)).
  rewrite scan_all_skip. by rewrite <- app_assoc.
Qed.

Lemma scan_all_plain_line re r c w bef aft :
  pattern re = Seq Bol r →
  match_at re bef (c :: w ++ aft) = None →
  is_line_terminator c = false → single_line w →
  scan_all re 0 bef ((c :: w) ++ aft) = scan_all re 0 (rev (c :: w) ++ bef) aft.
Proof.
  intros Hp Hm Hc Hw. rewrite rev_cons_app. simpl app.
  rewrite scan_all_cons_none by done.
  by rewrite (scan_all_inside_line re r) by done.
Qed.

Lemma scan_all_line_feed re r bef aft :
  pattern re = Seq Bol r →
  (∃ d b, bef = d :: b ∧ is_line_terminator d = false) →
  scan_all re 0 bef (LF :: aft) = scan_all re 0 (LF :: bef) aft.
Proof.
  intros Hp (d & b & -> & Hd). apply scan_all_cons_none.
  by eapply match_at_not_line_start.
Qed.

Lemma scan_all_end re r bef :
  pattern re = Seq Bol r →
  (∃ d b, bef = d :: b ∧ is_line_terminator d = false) →
  scan_all re 0 bef [] = [].
Proof.
  intros Hp (d & b & -> & Hd). simpl.
  by rewrite (match_at_not_line_start re r).
Qed.

(** A line that begins with four hashes is no element line. *)
Lemma field_line_no_element bef rest :
  match_at element_re bef (lit "####" ++ rest) = None.
Proof.
  unfold match_at.
  change (pattern element_re)
    with (Seq Bol (Seq (Lit (lit "###")) (Seq spaces (Seq (Lit (lit "Element:"))
            (Seq spaces (Group (Star true dot))))))).
  cbn [rmatch]. destruct (at_line_start _ _); [|done].
  change (lit "####" ++ rest) with (lit "###" ++ 35 :: rest).
  cbn [rmatch before after group1]. rewrite eat_app.
  unfold spaces. cbn [rmatch before after group1 star_greedy].
  change (is_space 35) with false. cbn [rmatch before after group1].
  by change (eat (lit "Element:") (35 :: rest)) with (@None jsstring).
Qed.

Lemma single_line_app a b : single_line a → single_line b → single_line (a ++ b).
Proof. apply Forall_app_2. Qed.

Lemma single_line_lit s :
  forallb (λ c, negb (is_line_terminator c)) (lit s) = true → single_line (lit s).
Proof.
  intros H. apply Forall_forall. intros c Hc.
  apply list_elem_of_In in Hc.
  eapply forallb_forall in H; [|exact Hc]. by destruct (is_line_terminator c).
Qed.

Lemma rev_app_cons {A} (a b : list A) x : rev (a ++ x :: b) = rev b ++ x :: rev a.
Proof. rewrite rev_app_distr. simpl. by rewrite <- app_assoc. Qed.

Lemma element_re_anchored : pattern element_re = Seq Bol element_tail.
Proof. reflexivity. Qed.

Lemma scan_three_lines bef el c1 w1 c2 w2 tail mt :
  match_at element_re bef (el ++ LF :: (c1 :: w1) ++ LF :: (c2 :: w2) ++ tail)
  = Some mt →
  whole mt = el → el ≠ [] → single_line el →
  (∀ b rest, match_at element_re b (c1 :: w1 ++ rest) = None) →
  single_line (c1 :: w1) →
  (∀ b rest, match_at element_re b (c2 :: w2 ++ rest) = None) →
  single_line (c2 :: w2) →
  scan_all element_re 0 bef (el ++ LF :: (c1 :: w1) ++ LF :: (c2 :: w2) ++ tail)
  = mt :: scan_all element_re 0
            (rev (c2 :: w2) ++ LF :: rev (c1 :: w1) ++ LF :: rev el ++ bef) tail.
Proof.
  intros Hm Hw Hne Hel Hn1 Hl1 Hn2 Hl2.
  apply Forall_cons in Hl1 as [Hc1 Hl1]. apply Forall_cons in Hl2 as [Hc2 Hl2].
  rewrite (scan_all_match element_re el bef _ mt Hm Hw Hne). f_equal.
  rewrite (scan_all_line_feed element_re element_tail); [|reflexivity|by apply rev_line_last].
  rewrite (scan_all_plain_line element_re element_tail); [|reflexivity|apply Hn1|done..].
  rewrite (scan_all_line_feed element_re element_tail); [|reflexivity|].
  2:{ apply (rev_line_last (c1 :: w1)); [done|by constructor]. }
  rewrite (scan_all_plain_line element_re element_tail); [|reflexivity|apply Hn2|done..].
  reflexivity.
Qed.

Lemma app3_assoc {A} (a b c t : list A) x y :
  (a ++ x :: b ++ y :: c) ++ t = a ++ x :: b ++ y :: (c ++ t).
Proof. rewrite <- app_assoc. simpl. by rewrite <- app_assoc. Qed.

Lemma entry_text_eq e :
  entry_text e
  = (element_mark ++ entry_name e) ++ LF
    :: (35 :: lit "### Suggestion: " ++ entry_suggestion e) ++ LF
    :: (35 :: lit "### Reasoning: " ++ entry_reasoning e).
Proof. reflexivity. Qed.

(** The scan of one entry finds its element line and nothing else. *)
Lemma scan_entry bef e tail :
  line_start bef → well_formed e →
  scan_all element_re 0 bef (entry_text e ++ tail)
  = element_match (length bef) e
    :: scan_all element_re 0 (rev (entry_text e) ++ bef) tail
  ∧ ∃ d b, rev (entry_text e) ++ bef = d :: b ∧ is_line_terminator d = false.
Proof.
  intros Hb [[Hn1 Hn2] (Hs1 & Hs2 & _) [Hr1 Hr2]].
  assert (HSL : single_line (35 :: lit "### Suggestion: " ++ entry_suggestion e)).
  { apply (single_line_app (lit "#### Suggestion: ")); [by apply single_line_lit|done]. }
  assert (HRL : single_line (35 :: lit "### Reasoning: " ++ entry_reasoning e)).
  { apply (single_line_app (lit "#### Reasoning: ")); [by apply single_line_lit|done]. }
  assert (Hrev : rev (entry_text e) ++ bef
                 = rev (35 :: lit "### Reasoning: " ++ entry_reasoning e) ++ LF
                   :: rev (35 :: lit "### Suggestion: " ++ entry_suggestion e) ++ LF
                   :: rev (element_mark ++ entry_name e) ++ bef).
  { rewrite entry_text_eq. rewrite rev_app_cons, rev_app_cons.
    by rewrite <- !app_assoc. }
  split.
  - rewrite Hrev, entry_text_eq, app3_assoc.
    apply scan_three_lines.
    + rewrite <- (app_assoc element_mark).
      apply (element_match_at bef (entry_name e)); done.
    + reflexivity.
    + by destruct (entry_name e).
    + apply single_line_app; [by apply single_line_lit|done].
    + intros b rest. rewrite <- app_assoc.
      apply (field_line_no_element b
               (lit " Suggestion: " ++ entry_suggestion e ++ rest)).
    + exact HSL.
    + intros b rest. rewrite <- app_assoc.
      apply (field_line_no_element b
               (lit " Reasoning: " ++ entry_reasoning e ++ rest)).
    + exact HRL.
  - rewrite Hrev. apply (rev_line_last (35 :: _)); [done|exact HRL].
Qed.

(** *** Scanning a list of entries *)

Lemma join_lf_app a b :
  a ≠ [] →
  join_lf (a ++ b) = join_lf a ++ match b with [] => [] | _ => LF :: join_lf b end.
Proof.
  induction a as [|l a IH]; [done|]. intros _.
  destruct a as [|l2 a].
  - simpl. destruct b; [by rewrite app_nil_r|done].
  - change (join_lf ((l :: l2 :: a) ++ b)) with (l ++ LF :: join_lf ((l2 :: a) ++ b)).
    rewrite IH by done. rewrite join_lf_cons.
    by rewrite <- app_assoc.
Qed.

Lemma entries_text_cons e es :
  entries_text (e :: es)
  = entry_text e ++ match es with [] => [] | _ => LF :: entries_text es end.
Proof.
  unfold entries_text, entry_text.
  change ((e :: es) ≫= entry_lines) with (entry_lines e ++ (es ≫= entry_lines)).
  rewrite join_lf_app by done. by destruct es.
Qed.

Lemma scan_entries : ∀ es bef,
  line_start bef → Forall well_formed es → es ≠ [] →
  scan_all element_re 0 bef (entries_text es) = matches_of (length bef) es.
Proof.
  induction es as [|e es IH]; intros bef Hb Hwf Hne; [done|].
  apply Forall_cons in Hwf as [He Hes]. rewrite entries_text_cons.
  destruct (scan_entry bef e (match es with [] => [] | _ => LF :: entries_text es end)
              Hb He) as [-> Hlast].
  cbn [matches_of]. f_equal. destruct es as [|e2 es].
  - by apply (scan_all_end element_re element_tail).
  - rewrite (scan_all_line_feed element_re element_tail); [|done..].
    rewrite IH; [|done..]. f_equal. cbn [length].
    rewrite length_app, length_rev. lia.
Qed.

Lemma suggestion_re_section :
  pattern suggestion_re
  = section_pattern (lit "####") (lit "Suggestion:") reasoning_stop.
Proof. reflexivity. Qed.

Lemma reasoning_stop_ok b g rest :
  is_Some (rmatch false reasoning_stop
             (MState b ((LF :: lit "####") ++ [32] ++ lit "Reasoning:" ++ rest) g)
             Some).
Proof.
  unfold reasoning_stop, spaces. cbn [seq rmatch before after group1].
  rewrite eat_app.
  erewrite (star_greedy_max is_space _ _ [32]);
    [by eexists|by repeat constructor|done|].
  cbn [rmatch before after group1]. by rewrite eat_app.
Qed.

Lemma reasoning_stop_fail b g c rest :
  is_line_terminator c = false →
  rmatch false reasoning_stop (MState b (c :: rest) g) Some = None.
Proof.
  intros Hc. unfold reasoning_stop. cbn [seq rmatch before after group1 eat].
  destruct (N.eqb_spec LF c) as [<-|_]; [done|done].
Qed.

Lemma no_header_in_single hashes title c s :
  headerb hashes title (c :: s) = false → starts_nonspace title →
  no_header_in hashes title [c] s.
Proof.
  intros Hb Ht. apply no_header_inb_true; [done|].
  cbn [no_header_inb]. simpl app. by rewrite Hb.
Qed.

(** The suggestion of an entry, whatever follows its reasoning line. *)
Lemma suggestion_field e t :
  well_formed e →
  field_of (LF :: suggestion_mark ++ entry_suggestion e ++ LF
              :: reasoning_mark ++ entry_reasoning e ++ t) suggestion_re
  = Normal (trim (entry_suggestion e)).
Proof.
  intros [_ (Hs1 & Hs2 & _) _]. unfold field_of.
  destruct (section_str_match suggestion_re (lit "####") (lit "Suggestion:")
              reasoning_stop [LF] [32] [32] (entry_suggestion e)
              (LF :: reasoning_mark ++ entry_reasoning e ++ t))
    as (mt & Hm & Hc).
  - exact suggestion_re_section.
  - reflexivity.
  - by apply no_header_in_single.
  - by repeat constructor.
  - by repeat constructor.
  - done.
  - by apply starts_nonspace_head.
  - intros c1 c2 b g Heq Hc2. destruct c2 as [|c c2]; [done|].
    apply reasoning_stop_fail. rewrite Heq in Hs2.
    apply Forall_app in Hs2 as [_ Hs2]. by apply Forall_cons in Hs2 as [? _].
  - right. intros b g.
    apply (reasoning_stop_ok b g (32 :: entry_reasoning e ++ t)).
  - reflexivity.
  - change ([LF] ++ lit "####" ++ [32] ++ lit "Suggestion:" ++ [32]
            ++ entry_suggestion e ++ LF :: reasoning_mark ++ entry_reasoning e ++ t)
      with (LF :: suggestion_mark ++ entry_suggestion e ++ LF
              :: reasoning_mark ++ entry_reasoning e ++ t) in Hm.
    by rewrite Hm, Hc.
Qed.

Lemma no_header_in_app hashes title p q s :
  no_header_in hashes title p (q ++ s) → no_header_in hashes title q s →
  no_header_in hashes title (p ++ q) s.
Proof.
  intros Hp Hq p1 p2 Heq Hp2 Hh.
  apply app_eq_app in Heq as [l [[-> ->]|[-> ->]]].
  - destruct l as [|c l].
    + simpl in *. by apply (Hq [] q).
    + apply (Hp p1 (c :: l)); [done..|]. by rewrite app_assoc.
  - by apply (Hq l p2).
Qed.

(** A text without a run of four hashes, followed by a line feed, holds no
    header of four hashes. *)
Lemma no_header_in_plain title body s :
  ¬ occurs_in (lit "####") body →
  no_header_in (lit "####") title body (LF :: s).
Proof.
  intros Hno p1 p2 -> Hp2 (w & q & _ & Heq).
  change (lit "####" ++ w ++ title ++ q)
    with (35 :: 35 :: 35 :: 35 :: w ++ title ++ q) in Heq.
  destruct p2 as [|a [|b [|c [|d p2]]]]; [done|..]; simpl in Heq;
    try discriminate.
  injection Heq as -> -> -> -> _. apply Hno. by exists p1, p2.
Qed.

Lemma reasoning_re_header :
  pattern reasoning_re
  = Seq (Lit (lit "####")) (Seq spaces (Seq (Lit (lit "Reasoning:")) reasoning_body)).
Proof. reflexivity. Qed.

Lemma reasoning_rmatch bef body :
  starts_nonspace body →
  rmatch false (pattern reasoning_re)
    (MState bef (lit "####" ++ [32] ++ lit "Reasoning:" ++ [32] ++ body) None) Some
  = Some (MState (rev body ++ [32] ++ rev (lit "Reasoning:") ++ [32]
                  ++ rev (lit "####") ++ bef) [] (Some body)).
Proof.
  intros Hb. rewrite reasoning_re_header. unfold reasoning_body, spaces.
  cbn [seq rmatch before after group1]. rewrite eat_app.
  apply (star_greedy_max is_space _ _ [32]); [by repeat constructor|done|].
  cbn [rmatch before after group1]. rewrite eat_app.
  apply (star_greedy_max is_space _ _ [32]); [by repeat constructor| |].
  { by destruct body. }
  cbn [rmatch before after group1].
  rewrite <- (app_nil_r body) at 1.
  apply star_greedy_max; [apply Forall_any_char|done|].
  cbn [before after group1]. do 3 f_equal.
  set (B := rev [32] ++ rev (lit "Reasoning:") ++ rev [32] ++ rev (lit "####") ++ bef).
  rewrite length_app, length_rev.
  replace (length body + length B - length B)%nat with (length body) by lia.
  by rewrite firstn_all.
Qed.

Lemma rev_skip_space_app s w :
  all_space w → skip_space (rev (s ++ w)) = skip_space (rev s).
Proof.
  intros Hw. rewrite rev_app_distr. apply skip_space_app.
  unfold all_space. apply Forall_forall. intros c Hc.
  apply list_elem_of_In, in_rev, list_elem_of_In in Hc.
  by eapply Forall_forall in Hw.
Qed.

Lemma trim_app_space_r s w :
  starts_nonspace s → all_space w → trim (s ++ w) = trim s.
Proof.
  intros Hs Hw. unfold trim.
  rewrite (skip_space_nonspace (s ++ w)) by (by destruct s).
  rewrite (skip_space_nonspace s) by done.
  by rewrite rev_skip_space_app.
Qed.

(** The reasoning of an entry, up to the white space that follows it. *)
Lemma reasoning_field e t :
  well_formed e → all_space t →
  field_of (LF :: suggestion_mark ++ entry_suggestion e ++ LF
              :: reasoning_mark ++ entry_reasoning e ++ t) reasoning_re
  = Normal (trim (entry_reasoning e)).
Proof.
  intros [_ (Hs1 & Hs2 & Hs3) [Hr1 Hr2]] Ht. unfold field_of, str_match.
  change (LF :: suggestion_mark ++ entry_suggestion e ++ LF
            :: reasoning_mark ++ entry_reasoning e ++ t)
    with ((LF :: suggestion_mark) ++ entry_suggestion e ++ [LF]
          ++ reasoning_mark ++ entry_reasoning e ++ t).
  rewrite 2!app_assoc.
  rewrite search_skip.
  - erewrite search_here.
    2:{ unfold match_at. change (multiline reasoning_re) with false.
        change (reasoning_mark ++ entry_reasoning e ++ t)
          with (lit "####" ++ [32] ++ lit "Reasoning:" ++ [32]
                ++ entry_reasoning e ++ t).
        rewrite reasoning_rmatch by (by destruct (entry_reasoning e)).
        reflexivity. }
    cbn [capture group1 defined]. simpl.
    by rewrite trim_app_space_r.
  - assert (Hno : no_header_in (lit "####") (lit "Reasoning:")
                    (((LF :: suggestion_mark) ++ entry_suggestion e) ++ [LF])
                    (reasoning_mark ++ entry_reasoning e ++ t)).
    { apply no_header_in_app; [apply no_header_in_app|].
      - apply no_header_inb_true; [done|]. vm_compute. reflexivity.
      - by apply no_header_in_plain.
      - by apply no_header_in_single. }
    intros p1 p2 Heq Hp2.
    destruct (match_at reasoning_re _ _) eqn:Hma; [|done].
    eapply match_at_header in Hma; [|exact reasoning_re_header].
    by apply (Hno p1 p2) in Hma.
Qed.

(** *** The records of a list of entries *)

Lemma substring_middle (p a b c : jsstring) :
  substring (p ++ a ++ b ++ c) (length p + length a)
    (length p + length a + length b) = b.
Proof.
  unfold substring. rewrite !length_app.
  set (len := (length p + (length a + (length b + length c)))%nat).
  rewrite (Nat.min_l (length p + length a) len) by (unfold len; lia).
  rewrite (Nat.min_l (length p + length a + length b) len) by (unfold len; lia).
  rewrite Nat.max_r, Nat.min_l by lia.
  replace (length p + length a + length b - (length p + length a))%nat
    with (length b) by lia.
  rewrite app_assoc, drop_app_length'; [|by rewrite length_app].
  apply take_app_length.
Qed.

Lemma entry_text_fields e :
  entry_text e = (element_mark ++ entry_name e) ++ fields_text e.
Proof. unfold fields_text. rewrite entry_text_eq. by rewrite <- !app_assoc. Qed.

Lemma fields_text_app e t :
  fields_text e ++ t
  = LF :: suggestion_mark ++ entry_suggestion e ++ LF
       :: reasoning_mark ++ entry_reasoning e ++ t.
Proof.
  unfold fields_text. rewrite <- app_comm_cons. f_equal.
  rewrite <- !app_assoc. do 2 f_equal.
Qed.

Lemma record_of_chunk e t :
  well_formed e → all_space t →
  (suggestion ← field_of (fields_text e ++ t) suggestion_re;
   reasoning ← field_of (fields_text e ++ t) reasoning_re;
   if truthy (trim (entry_name e)) && (truthy suggestion || truthy reasoning)
   then mret [ {| element := trim (entry_name e); suggestion := suggestion;
                  reasoning := reasoning |} ]
   else mret [])
  = Normal [record_of e].
Proof.
  intros Hwf Ht. rewrite fields_text_app.
  rewrite suggestion_field, reasoning_field by done.
  destruct Hwf as [[Hn _] (Hs & _) _].
  change (Normal ?x ≫= ?f) with (f x). cbv beta.
  change (Normal ?x ≫= ?f) with (f x). cbv beta.
  assert (Hname : truthy (trim (entry_name e)) = true).
  { pose proof (trim_nonempty (entry_name e)) as Hne.
    rewrite skip_space_nonspace in Hne by done.
    destruct (trim (entry_name e)); [|done].
    destruct Hne; [by destruct (entry_name e)|done]. }
  assert (Hsugg : truthy (trim (entry_suggestion e)) = true).
  { pose proof (trim_nonempty (entry_suggestion e)) as Hne.
    rewrite skip_space_nonspace in Hne by done.
    destruct (trim (entry_suggestion e)); [|done].
    destruct Hne; [by destruct (entry_suggestion e)|done]. }
  by rewrite Hname, Hsugg.
Qed.

Lemma bind_Normal {A B} (x : A) (f : A → completion B) : Normal x ≫= f = f x.
Proof. reflexivity. Qed.

Lemma each_entries : ∀ es p,
  Forall well_formed es →
  each_element (p ++ entries_text es) (matches_of (length p) es)
  = Normal (record_of <$> es).
Proof.
  induction es as [|e es IH]; intros p Hwf; [done|].
  apply Forall_cons in Hwf as [He Hes].
  cbn [matches_of each_element]. unfold element_record.
  cbn [capture element_match defined index whole].
  rewrite bind_Normal. rewrite entries_text_cons.
  destruct es as [|e2 es].
  - cbn [matches_of]. rewrite app_nil_r.
    assert (Hchunk : substring (p ++ entry_text e)
              (length p + length (element_mark ++ entry_name e))
              (length (p ++ entry_text e)) = fields_text e ++ []).
    { rewrite entry_text_fields, app_nil_r.
      rewrite <- (app_nil_r (fields_text e)) at 1.
      rewrite (length_app p), (length_app (element_mark ++ entry_name e)).
      rewrite app_nil_r at 1.
      rewrite <- (app_nil_r (fields_text e)) at 1.
      rewrite Nat.add_assoc. apply substring_middle. }
    rewrite Hchunk. rewrite record_of_chunk; [done|done|constructor].
  - cbn [matches_of index element_match].
    assert (Hchunk : substring (p ++ entry_text e ++ LF :: entries_text (e2 :: es))
              (length p + length (element_mark ++ entry_name e))
              (length p + length (entry_text e) + 1) = fields_text e ++ [LF]).
    { rewrite entry_text_fields. rewrite <- (app_assoc _ (fields_text e)).
      change (fields_text e ++ LF :: entries_text (e2 :: es))
        with (fields_text e ++ [LF] ++ entries_text (e2 :: es)).
      rewrite (app_assoc (fields_text e)).
      replace (length p + length ((element_mark ++ entry_name e) ++ fields_text e) + 1)%nat
        with (length p + length (element_mark ++ entry_name e)
              + length (fields_text e ++ [LF]))%nat
        by (rewrite !length_app; simpl; lia).
      apply substring_middle. }
    rewrite Hchunk. rewrite record_of_chunk; [|done|by repeat constructor].
    rewrite bind_Normal.
    specialize (IH (p ++ entry_text e ++ [LF]) Hes).
    assert (Htext : (p ++ entry_text e ++ [LF]) ++ entries_text (e2 :: es)
                    = p ++ entry_text e ++ LF :: entries_text (e2 :: es)).
    { by rewrite <- !app_assoc. }
    assert (Hlen : length (p ++ entry_text e ++ [LF])
                   = (length p + length (entry_text e) + 1)%nat).
    { rewrite !length_app. cbn [length]. lia. }
    rewrite Htext, Hlen in IH. cbn [matches_of] in IH. rewrite IH. reflexivity.
Qed.

Lemma recommendations_re_section :
  pattern recommendations_re
  = section_pattern hashes recommendations_title tags_stop.
Proof. reflexivity. Qed.

Lemma tags_stop_ok b g rest :
  is_Some (rmatch false tags_stop
             (MState b (next_header ++ [32] ++ lit "Suggested SEO Tags" ++ rest) g)
             Some).
Proof.
  unfold tags_stop, spaces. cbn [seq rmatch before after group1].
  rewrite eat_app.
  erewrite (star_greedy_max is_space _ _ [32]);
    [by eexists|by repeat constructor|done|].
  cbn [rmatch before after group1]. by rewrite eat_app.
Qed.

Lemma tags_stop_fail_char b g c rest :
  c ≠ LF → rmatch false tags_stop (MState b (c :: rest) g) Some = None.
Proof.
  intros Hc. unfold tags_stop, next_header.
  cbn [seq rmatch before after group1 eat].
  destruct (N.eqb_spec LF c) as [<-|_]; [done|done].
Qed.

Lemma tags_stop_fail_hashes b g rest :
  rmatch false tags_stop (MState b (LF :: lit "###" ++ rest) g) Some = None.
Proof.
  unfold tags_stop, spaces.
  change (LF :: lit "###" ++ rest) with (next_header ++ 35 :: rest).
  cbn [seq rmatch before after group1]. rewrite eat_app.
  cbn [star_greedy]. change (is_space 35) with false.
  cbn [rmatch before after group1].
  by change (eat (lit "Suggested SEO Tags") (35 :: rest)) with (@None jsstring).
Qed.

(** After a line feed inside the joined lines comes one of the lines. *)
Lemma join_lf_after_lf lines : ∀ c1 c2,
  Forall (λ l, LF ∉ l) lines → join_lf lines = c1 ++ LF :: c2 →
  ∃ l rest, l ∈ lines ∧ c2 = l ++ rest.
Proof.
  induction lines as [|l ls IH]; intros c1 c2 Hlf Heq.
  - by destruct c1.
  - apply Forall_cons in Hlf as [Hl Hls]. destruct ls as [|l2 ls].
    + simpl in Heq. destruct Hl. rewrite Heq. apply elem_of_app. right. by left.
    + rewrite join_lf_cons in Heq.
      apply app_lf_split in Heq as [[-> <-]|(p' & -> & Heq)]; [| |done].
      * exists l2, (match ls with [] => [] | _ => LF :: join_lf ls end).
        split; [apply elem_of_cons; right; by left|].
        destruct ls; [by rewrite app_nil_r|done].
      * destruct (IH p' c2 Hls Heq) as (l' & rest & Hin & ->).
        exists l', rest. split; [apply elem_of_cons; by right|done].
Qed.

Lemma lit_no_lf s :
  forallb (λ c, negb (c =? LF)) (lit s) = true → LF ∉ lit s.
Proof.
  intros H Hin. apply list_elem_of_In in Hin.
  eapply forallb_forall in H; [|exact Hin]. by rewrite N.eqb_refl in H.
Qed.

Lemma single_line_no_lf s : single_line s → LF ∉ s.
Proof.
  intros Hs Hin. eapply Forall_forall in Hs; [|exact Hin].
  vm_compute in Hs. discriminate.
Qed.

Lemma entry_lines_shape es :
  Forall well_formed es →
  Forall (λ l, (LF ∉ l) ∧ ∃ l', l = lit "###" ++ l') (es ≫= entry_lines).
Proof.
  induction 1 as [|e es [[_ Hn] (_ & Hs & _) [_ Hr]] _ IH]; [constructor|].
  change ((e :: es) ≫= entry_lines) with (entry_lines e ++ (es ≫= entry_lines)).
  apply Forall_app. split; [|done]. unfold entry_lines.
  repeat constructor.
  - intros [?| ?]%elem_of_app; [by apply (lit_no_lf "### Element: ")|
                               by apply (single_line_no_lf (entry_name e))].
  - by exists (lit " Element: " ++ entry_name e).
  - intros [?| ?]%elem_of_app; [by apply (lit_no_lf "#### Suggestion: ")|
                               by apply (single_line_no_lf (entry_suggestion e))].
  - by exists (lit "# Suggestion: " ++ entry_suggestion e).
  - intros [?| ?]%elem_of_app; [by apply (lit_no_lf "#### Reasoning: ")|
                               by apply (single_line_no_lf (entry_reasoning e))].
  - by exists (lit "# Reasoning: " ++ entry_reasoning e).
Qed.

Lemma tags_stop_fail_inside es c1 c2 b g rest :
  Forall well_formed es → entries_text es = c1 ++ c2 → c2 ≠ [] →
  rmatch false tags_stop (MState b (c2 ++ rest) g) Some = None.
Proof.
  intros Hwf Heq Hc2. destruct c2 as [|c c2]; [done|].
  destruct (decide (c = LF)) as [->|Hne]; [|by apply tags_stop_fail_char].
  pose proof (entry_lines_shape es Hwf) as Hshape.
  destruct (join_lf_after_lf (es ≫= entry_lines) c1 c2) as (l & r & Hin & ->).
  - eapply Forall_impl; [exact Hshape|]. by intros l [? _].
  - exact Heq.
  - destruct (proj1 (Forall_forall _ _) Hshape l Hin) as [_ [l' ->]].
    rewrite <- !app_assoc. apply tags_stop_fail_hashes.
Qed.

Lemma entries_text_head es rest :
  es ≠ [] →
  match entries_text es ++ rest with [] => True | c :: _ => is_space c = false end.
Proof.
  destruct es as [|e es]; [done|]. intros _.
  rewrite entries_text_cons, entry_text_eq. reflexivity.
Qed.

End EntryFacts.

(** ** Well-formed entries are parsed as written *)

Module EntrySpec.
Import JS Parser Semantics MatchFacts Shapes SectionFacts Fields ParserFacts
  Readings ParserSpec Entries EntryFacts.

(** A recommendations section made of entries of three lines, up to the end
    of the text or to the tags header, yields one record for each entry, in
    the order of the entries, each with the trimmed name, suggestion and
    reasoning of its own entry.  The conditions on an entry are those of
    [well_formed]: each field begins with a character that is not white
    space and holds no line terminator, and the suggestion holds no run of
    four hashes. *)
Theorem well_formed_entries_parsed (pre w1 w2 : jsstring) (es : list entry)
    (rest : jsstring) :
  all_space w1 → all_space w2 →
  no_header_in hashes recommendations_title pre
    (hashes ++ w1 ++ recommendations_title ++ w2 ++ entries_text es ++ rest) →
  es ≠ [] → Forall well_formed es →
  (rest = [] ∨ ∃ q, rest = LF :: lit "## Suggested SEO Tags" ++ q) →
  ∃ a, parseAnalysisFromText
         (pre ++ hashes ++ w1 ++ recommendations_title ++ w2
          ++ entries_text es ++ rest)
       = Normal a
       ∧ recommendations a = record_of <$> es.
Proof.
  intros Hw1 Hw2 Hno Hne Hwf Hrest.
  destruct (parse_fields (pre ++ hashes ++ w1 ++ recommendations_title ++ w2
                          ++ entries_text es ++ rest))
    as (a & Hp & _ & _ & _ & Hsome).
  exists a. split; [done|].
  destruct (section_str_match recommendations_re hashes recommendations_title
              tags_stop pre w1 w2 (entries_text es) rest)
    as (mt & Hm & Hc).
  - exact recommendations_re_section.
  - reflexivity.
  - exact Hno.
  - exact Hw1.
  - exact Hw2.
  - done.
  - by apply entries_text_head.
  - intros c1 c2 b g Heq Hc2. by eapply tags_stop_fail_inside.
  - destruct Hrest as [->|(q & ->)]; [by left|right]. intros b g.
    apply (tags_stop_ok b g q).
  - reflexivity.
  - destruct (Hsome mt Hm) as (c & Hc' & Heach).
    rewrite Hc in Hc'. injection Hc' as <-.
    rewrite scan_entries in Heach by done.
    pose proof (each_entries es [] Hwf) as Hrec.
    change ([] ++ entries_text es) with (entries_text es) in Hrec.
    rewrite Hrec in Heach. by injection Heach.
Qed.

(** Two entries before the tags section. *)
Lemma well_formed_entries_parsed_witness :
  ∃ a, parseAnalysisFromText
         (text_of [ "## Actionable Recommendations";
                    "### Element: Title";
                    "#### Suggestion: Add the material.";
                    "#### Reasoning: Buyers search by material.";
                    "### Element: Description";
                    "#### Suggestion: Mention the size.";
                    "#### Reasoning: Size matters.";
                    "## Suggested SEO Tags (13)";
                    "- rustic decor" ])
       = Normal a
       ∧ recommendations a
         = [ {| element := lit "Title";
                suggestion := lit "Add the material.";
                reasoning := lit "Buyers search by material." |};
             {| element := lit "Description";
                suggestion := lit "Mention the size.";
                reasoning := lit "Size matters." |} ].
Proof.
  destruct (well_formed_entries_parsed [] (lit " ") [LF]
    [ {| entry_name := lit "Title";
         entry_suggestion := lit "Add the material.";
         entry_reasoning := lit "Buyers search by material." |};
      {| entry_name := lit "Description";
         entry_suggestion := lit "Mention the size.";
         entry_reasoning := lit "Size matters." |} ]
    (text_of [""; "## Suggested SEO Tags (13)"; "- rustic decor"]))
    as (a & Hp & Hr).
  - repeat constructor.
  - repeat constructor.
  - apply no_header_in_nil.
  - done.
  - repeat constructor; simpl;
      try (apply single_line_lit; vm_compute; reflexivity);
      try (apply occursb_false; vm_compute; reflexivity); done.
  - right. eexists. reflexivity.
  - exists a. split.
    + rewrite <- Hp. f_equal.
    + rewrite Hr. vm_compute. reflexivity.
Defined.

(** The condition on the suggestion is a real one: the reasoning pattern
    takes the first "#### Reasoning:" of the chunk, also inside the
    suggestion, and the reasoning then begins there. *)
Lemma reasoning_mark_inside_suggestion :
  ∃ a, parseAnalysisFromText
         (text_of [ "## Actionable Recommendations";
                    "### Element: Title";
                    "#### Suggestion: Move the #### Reasoning: block up";
                    "#### Reasoning: Buyers read the top first." ])
       = Normal a
       ∧ recommendations a
         = [ {| element := lit "Title";
                suggestion := lit "Move the #### Reasoning: block up";
                reasoning :=
                  text_of [ "block up";
                            "#### Reasoning: Buyers read the top first." ] |} ].
Proof.
  eexists. split; vm_compute; reflexivity.
Qed.

End EntrySpec.

(** ** No header of one section inside another *)

Module ResponseFacts.
Import JS Parser Semantics MatchFacts Shapes SectionFacts Fields ParserFacts
  Readings ParserSpec Entries EntryFacts ResponseTerms.

Lemma no_header_in_no_hashes title body s :
  no_hashes body →
  match s with [] => True | c :: _ => c ≠ 35 end →
  no_header_in hashes title body s.
Proof.
  intros Hno Hs p1 p2 -> Hp2 (w & q & _ & Heq).
  change (hashes ++ w ++ title ++ q) with (35 :: 35 :: w ++ title ++ q) in Heq.
  destruct p2 as [|a [|b p2]]; [done|..]; simpl in Heq.
  - destruct s as [|c s]; [done|]. injection Heq as -> -> _. done.
  - injection Heq as -> -> _. apply Hno. by exists p1, p2.
Qed.

(** No header of another section begins in a header line, in a mark of an
    entry or at a line feed. *)
Section Headers.
Context (s : jsstring).

Lemma assessment_line_no_recommendations :
  no_header_in hashes recommendations_title
    (lit "## Overall Assessment" ++ [LF]) s.
Proof. apply no_header_inb_true; [done|]. vm_compute. reflexivity. Qed.

Lemma assessment_line_no_tags :
  no_header_in hashes tags_title (lit "## Overall Assessment" ++ [LF]) s.
Proof. apply no_header_inb_true; [done|]. vm_compute. reflexivity. Qed.

Lemma recommendations_line_no_tags :
  no_header_in hashes tags_title (lit "## Actionable Recommendations" ++ [LF]) s.
Proof. apply no_header_inb_true; [done|]. vm_compute. reflexivity. Qed.

Lemma element_mark_no_tags : no_header_in hashes tags_title element_mark s.
Proof. apply no_header_inb_true; [done|]. vm_compute. reflexivity. Qed.

Lemma suggestion_mark_no_tags : no_header_in hashes tags_title suggestion_mark s.
Proof. apply no_header_inb_true; [done|]. vm_compute. reflexivity. Qed.

Lemma reasoning_mark_no_tags : no_header_in hashes tags_title reasoning_mark s.
Proof. apply no_header_inb_true; [done|]. vm_compute. reflexivity. Qed.

Lemma line_feed_no_header title :
  starts_nonspace title → no_header_in hashes title [LF] s.
Proof. intros Ht. by apply no_header_in_single. Qed.

End Headers.

Lemma line_no_tags mark field s :
  (∀ s', no_header_in hashes tags_title mark s') → no_hashes field →
  no_header_in hashes tags_title (mark ++ field) (LF :: s).
Proof.
  intros Hm Hf. apply no_header_in_app; [apply Hm|].
  by apply no_header_in_no_hashes.
Qed.

Lemma entry_no_tags e s :
  plain_entry e → no_header_in hashes tags_title (entry_text e) (LF :: s).
Proof.
  intros (Hn & Hs & Hr).
  change (entry_text e)
    with ((element_mark ++ entry_name e)
          ++ [LF] ++ (suggestion_mark ++ entry_suggestion e)
          ++ [LF] ++ (reasoning_mark ++ entry_reasoning e)).
  apply no_header_in_app;
    [apply (line_no_tags element_mark); [apply element_mark_no_tags|done]|].
  apply no_header_in_app; [by apply line_feed_no_header|].
  apply no_header_in_app;
    [apply (line_no_tags suggestion_mark); [apply suggestion_mark_no_tags|done]|].
  apply no_header_in_app; [by apply line_feed_no_header|].
  apply (line_no_tags reasoning_mark); [apply reasoning_mark_no_tags|done].
Qed.

Lemma entries_no_tags es s :
  Forall plain_entry es →
  no_header_in hashes tags_title (entries_text es) (LF :: s).
Proof.
  induction 1 as [|e es He Hes IH]; [apply no_header_in_nil|].
  rewrite entries_text_cons. destruct es as [|e2 es].
  - rewrite app_nil_r. by apply entry_no_tags.
  - apply no_header_in_app.
    + change ((LF :: entries_text (e2 :: es)) ++ LF :: s)
        with (LF :: (entries_text (e2 :: es) ++ LF :: s)).
      by apply entry_no_tags.
    + change (LF :: entries_text (e2 :: es))
        with ([LF] ++ entries_text (e2 :: es)).
      apply no_header_in_app; [by apply line_feed_no_header|apply IH].
Qed.

Lemma no_hashes_no_next_header body :
  no_hashes body → ¬ occurs_in next_header (LF :: body).
Proof.
  intros Hno (p & q & Heq). apply Hno.
  change (next_header ++ q) with (LF :: hashes ++ q) in Heq.
  destruct p as [|c p]; simpl in Heq; injection Heq as Heq.
  - by exists [], q.
  - exists (p ++ [LF]), q. by rewrite <- app_assoc.
Qed.

(** The three shapes of the answer, one for each section. *)
Lemma response_assessment body es tags :
  response body es tags
  = [] ++ hashes ++ [32] ++ assessment_title ++ (LF :: body)
    ++ next_header ++ lit " Actionable Recommendations" ++ LF :: entries_text es
    ++ LF :: lit "## Suggested SEO Tags (13)" ++ LF :: join_lf tags.
Proof. reflexivity. Qed.

Lemma response_recommendations body es tags :
  response body es tags
  = ((lit "## Overall Assessment" ++ [LF]) ++ body ++ [LF])
    ++ hashes ++ [32] ++ recommendations_title ++ [LF] ++ entries_text es
    ++ LF :: lit "## Suggested SEO Tags" ++ lit " (13)" ++ LF :: join_lf tags.
Proof. unfold response. by rewrite <- !app_assoc. Qed.

Lemma response_tags body es tags :
  response body es tags
  = ((lit "## Overall Assessment" ++ [LF]) ++ body ++ [LF]
     ++ (lit "## Actionable Recommendations" ++ [LF]) ++ entries_text es ++ [LF])
    ++ hashes ++ [32] ++ tags_title ++ ([LF] ++ join_lf tags) ++ [].
Proof. unfold response. rewrite <- !app_assoc. by rewrite app_nil_r. Qed.

End ResponseFacts.

(** ** A whole answer is read as it is written *)

Module ResponseSpec.
Import JS Parser Semantics MatchFacts Shapes SectionFacts Fields ParserFacts
  Readings ParserSpec Entries EntryFacts ResponseTerms ResponseFacts.

(** The answer in the layout the generation endpoint is asked for is read
    as it is written: an assessment that is not blank, entries that are
    well formed, tag lines of which the first begins with a character that
    is not white space, and no two hashes in a row but in the headers and
    the marks.  The assessment is the trimmed text, there is one record
    for each entry, with the fields of that entry, and one keyword for each
    tag line that is not blank, cut at twenty code units. *)
Theorem well_formed_response_parsed (assessment : jsstring) (es : list entry)
    (tags : list jsstring) :
  skip_space assessment ≠ [] → no_hashes assessment →
  es ≠ [] → Forall well_formed es → Forall plain_entry es →
  match tags with l :: _ => starts_nonspace l | [] => False end →
  Forall (λ l, LF ∉ l) tags → Forall (λ l, ¬ hashes `prefix_of` l) (tail tags) →
  ∃ a, parseAnalysisFromText (response assessment es tags) = Normal a
       ∧ overall_assessment a = trim assessment
       ∧ recommendations a = record_of <$> es
       ∧ suggested_keywords a
         = take 20 <$> List.filter truthy (strip_bullet <$> tags).
Proof.
  intros Hbody Hplain Hne Hwf Hes Hfirst Hlf Htail.
  destruct (parse_fields (response assessment es tags))
    as (a & Hp & Ha & Hk & _ & Hsome).
  exists a. split; [done|]. split; [|split].
  - rewrite Ha, response_assessment.
    rewrite (assessment_of_section [] [32] (LF :: assessment)).
    + by apply (trim_app_space [LF]); repeat constructor.
    + by repeat constructor.
    + apply no_header_in_nil.
    + by apply no_hashes_no_next_header.
    + right. by eexists.
    + done.
  - destruct (section_str_match recommendations_re hashes recommendations_title
                tags_stop
                ((lit "## Overall Assessment" ++ [LF]) ++ assessment ++ [LF])
                [32] [LF] (entries_text es)
                (LF :: lit "## Suggested SEO Tags" ++ lit " (13)"
                    ++ LF :: join_lf tags))
      as (mt & Hm & Hc).
    + exact recommendations_re_section.
    + reflexivity.
    + apply no_header_in_app; [apply assessment_line_no_recommendations|].
      apply no_header_in_app; [|by apply line_feed_no_header].
      by apply no_header_in_no_hashes.
    + by repeat constructor.
    + by repeat constructor.
    + done.
    + by apply entries_text_head.
    + intros c1 c2 b g Heq Hc2. by eapply tags_stop_fail_inside.
    + right. intros b g. apply (tags_stop_ok b g).
    + reflexivity.
    + rewrite <- response_recommendations in Hm.
      destruct (Hsome mt Hm) as (c & Hc' & Heach).
      rewrite Hc in Hc'. injection Hc' as <-.
      rewrite scan_entries in Heach by done.
      pose proof (each_entries es [] Hwf) as Hrec.
      change ([] ++ entries_text es) with (entries_text es) in Hrec.
      rewrite Hrec in Heach. by injection Heach.
  - rewrite Hk, response_tags. unfold tags_of.
    set (body := [LF] ++ join_lf tags).
    assert (Hskip : skip_space body = join_lf tags).
    { unfold body. rewrite skip_space_app by (by repeat constructor).
      apply skip_space_nonspace. destruct tags as [|[|c l] [|l2 ls]]; done. }
    destruct (section_capture tags_re hashes tags_title
                ((lit "## Overall Assessment" ++ [LF]) ++ assessment ++ [LF]
                 ++ (lit "## Actionable Recommendations" ++ [LF])
                 ++ entries_text es ++ [LF])
                [32] body [])
      as (mt & -> & ->); try done.
    + by repeat constructor.
    + apply no_header_in_app; [apply assessment_line_no_tags|].
      apply no_header_in_app; [by apply no_header_in_no_hashes|].
      apply no_header_in_app; [by apply line_feed_no_header|].
      apply no_header_in_app; [apply recommendations_line_no_tags|].
      apply no_header_in_app; [|by apply line_feed_no_header].
      by apply entries_no_tags.
    + rewrite Hskip. by apply join_lf_no_next_header.
    + by left.
    + by right.
    + cbn [from_option]. rewrite Hskip. unfold keywords_of.
      rewrite split_join_lf; [|by destruct tags|done].
      rewrite (list_fmap_ext clean_keyword strip_bullet tags)
        by (intros; apply clean_keyword_strip_bullet).
      apply list_fmap_ext. intros. apply substring_0.
Qed.

(** An answer with one recommendation and two tags. *)
Lemma well_formed_response_parsed_witness :
  ∃ a, parseAnalysisFromText
         (text_of [ "## Overall Assessment";
                    "Good listing.";
                    "## Actionable Recommendations";
                    "### Element: Title";
                    "#### Suggestion: Add the material.";
                    "#### Reasoning: Buyers search by material.";
                    "## Suggested SEO Tags (13)";
                    "- wood sign";
                    "- rustic decor" ])
       = Normal a
       ∧ overall_assessment a = lit "Good listing."
       ∧ recommendations a
         = [ {| element := lit "Title";
                suggestion := lit "Add the material.";
                reasoning := lit "Buyers search by material." |} ]
       ∧ suggested_keywords a = [lit "wood sign"; lit "rustic decor"].
Proof.
  destruct (well_formed_response_parsed (lit "Good listing.")
    [ {| entry_name := lit "Title";
         entry_suggestion := lit "Add the material.";
         entry_reasoning := lit "Buyers search by material." |} ]
    [lit "- wood sign"; lit "- rustic decor"])
    as (a & Hp & Ha & Hr & Hk).
  - vm_compute. discriminate.
  - apply occursb_false. vm_compute. reflexivity.
  - done.
  - repeat constructor; simpl;
      try (apply single_line_lit; vm_compute; reflexivity);
      try (apply occursb_false; vm_compute; reflexivity); done.
  - repeat constructor; apply occursb_false; vm_compute; reflexivity.
  - done.
  - repeat constructor; by apply lit_no_lf.
  - repeat constructor. intros [k Hk]. vm_compute in Hk. discriminate.
  - exists a. split; [|split; [|split]].
    + rewrite <- Hp. f_equal.
    + rewrite Ha. vm_compute. reflexivity.
    + rewrite Hr. vm_compute. reflexivity.
    + rewrite Hk. vm_compute. reflexivity.
Defined.

End ResponseSpec.

(** ** Facts about replacing and splitting *)

Module FormatFacts.
Import JS Parser Semantics MatchFacts Shapes SectionFacts Fields ParserFacts
  Readings ParserSpec Entries EntryFacts Format FormatTerms.

Lemma substring_drop s p : substring s p (length s) = drop p s.
Proof.
  unfold substring. rewrite Nat.min_id.
  destruct (Nat.le_gt_cases p (length s)) as [Hle|Hgt].
  - rewrite Nat.min_l, Nat.max_r, Nat.min_l by lia.
    apply firstn_all2. rewrite length_drop. lia.
  - rewrite (Nat.min_r p), Nat.max_l, Nat.min_l by lia.
    rewrite Nat.sub_diag. simpl. symmetry. apply drop_ge. lia.
Qed.

Lemma substring_same s p : substring s p p = [].
Proof. unfold substring. by rewrite Nat.max_id, Nat.min_id, Nat.sub_diag. Qed.

Lemma substring_step s p q x :
  s !! p = Some x → (S p ≤ q)%nat →
  substring s p q = x :: substring s (S p) q.
Proof.
  intros Hx Hq. pose proof (lookup_lt_Some _ _ _ Hx) as Hlt.
  unfold substring.
  rewrite (Nat.min_l p), (Nat.min_l (S p)) by lia.
  assert (S p ≤ Nat.min q (length s))%nat as Hm by lia.
  revert Hm. generalize (Nat.min q (length s)). intros m Hm.
  rewrite !Nat.max_r, !Nat.min_l by lia.
  rewrite (drop_S _ _ _ Hx).
  replace (m - p)%nat with (S (m - S p)) by lia.
  done.
Qed.

Lemma splice_step s p ms rep x :
  s !! p = Some x →
  match ms with [] => True | m :: _ => (S p ≤ index m)%nat end →
  splice s p ms rep = x :: splice s (S p) ms rep.
Proof.
  intros Hx Hms. pose proof (lookup_lt_Some _ _ _ Hx) as Hlt.
  destruct ms as [|m ms]; cbn [splice].
  - by apply substring_step.
  - destruct (Nat.leb_spec p (index m)); [|lia].
    destruct (Nat.leb_spec (S p) (index m)); [|lia].
    by rewrite (substring_step s p (index m) x).
Qed.

Section Scans.
Context (e : exec) (He : positional e).

Lemma scan_head_index : ∀ aft skip bef,
  match scan e skip bef aft with
  | [] => True
  | m :: _ => (length bef + skip ≤ index m)%nat
  end.
Proof.
  induction aft as [|c aft IH]; intros skip bef.
  - destruct skip; simpl; [|done].
    destruct (e bef []) as [mt|] eqn:Hm; [|done].
    apply He in Hm as [-> _]. lia.
  - destruct skip as [|skip]; simpl.
    + destruct (e bef (c :: aft)) as [mt|] eqn:Hm.
      * apply He in Hm as [-> _]. lia.
      * specialize (IH O (c :: bef)). destruct (scan e 0 (c :: bef) aft); [done|].
        simpl in IH. lia.
    + specialize (IH skip (c :: bef)). destruct (scan e skip (c :: bef) aft); [done|].
      simpl in IH. lia.
Qed.

Lemma scan_skip : ∀ w bef rest,
  scan e (length w) bef (w ++ rest) = scan e O (rev w ++ bef) rest.
Proof.
  induction w as [|c w IH]; intros bef rest; [done|].
  simpl. rewrite IH. by rewrite <- app_assoc.
Qed.

Lemma replace_from_miss rep bef x aft :
  e bef (x :: aft) = None →
  replace_from e rep bef (x :: aft) = x :: replace_from e rep (x :: bef) aft.
Proof.
  intros Hm. unfold replace_from. simpl scan. rewrite Hm.
  simpl rev. rewrite <- app_assoc. simpl app. simpl length.
  apply splice_step.
  - rewrite lookup_app_r by (rewrite length_rev; lia).
    by rewrite length_rev, Nat.sub_diag.
  - pose proof (scan_head_index aft O (x :: bef)) as H.
    destruct (scan e 0 (x :: bef) aft); [done|]. simpl in H. lia.
Qed.

Lemma replace_from_hit rep bef w rest mt :
  e bef (w ++ rest) = Some mt → whole mt = w → w ≠ [] →
  replace_from e rep bef (w ++ rest)
  = rep mt ++ replace_from e rep (rev w ++ bef) rest.
Proof.
  intros Hm Hw Hne. unfold replace_from.
  destruct w as [|c w]; [done|]. simpl app. simpl scan.
  change (c :: w ++ rest) with ((c :: w) ++ rest). rewrite Hm, Hw.
  simpl length. simpl Nat.pred. rewrite scan_skip.
  apply He in Hm as [Hi _]. cbn [splice]. rewrite Hi.
  rewrite Nat.leb_refl, substring_same, Hw. simpl app at 1.
  f_equal. simpl rev. rewrite <- !app_assoc. simpl app.
  rewrite !length_app, length_rev. simpl length.
  rewrite rev_app_distr, rev_involutive. simpl rev. rewrite <- !app_assoc.
  simpl app. f_equal. lia.
Qed.

Lemma replace_from_plain rep : ∀ pre bef aft,
  fails_inside e bef pre aft →
  replace_from e rep bef (pre ++ aft) = pre ++ replace_from e rep (rev pre ++ bef) aft.
Proof.
  induction pre as [|c pre IH]; intros bef aft Hf; [done|].
  simpl app. rewrite replace_from_miss.
  - rewrite IH.
    + by rewrite <- app_assoc.
    + intros p1 p2 -> Hne. specialize (Hf (c :: p1) p2 eq_refl Hne).
      simpl in Hf. by rewrite <- app_assoc in Hf.
  - by apply (Hf [] (c :: pre)).
Qed.

Lemma split_scan_skip : ∀ w bef rest,
  split_scan e (length w) [] bef (w ++ rest) = split_scan e O [] (rev w ++ bef) rest.
Proof.
  induction w as [|c w IH]; intros bef rest; [by destruct rest|].
  simpl. rewrite IH. by rewrite <- app_assoc.
Qed.

Lemma split_scan_hit piece bef w rest z :
  e bef (w ++ rest) = Some z → whole z = w → w ≠ [] →
  split_scan e O piece bef (w ++ rest)
  = rev piece :: split_scan e O [] (rev w ++ bef) rest.
Proof.
  intros Hm Hw Hne. destruct w as [|c w]; [done|].
  simpl app. simpl split_scan.
  change (c :: w ++ rest) with ((c :: w) ++ rest). rewrite Hm, Hw.
  cbn [length]. rewrite split_scan_skip. by rewrite <- app_assoc.
Qed.

Lemma split_scan_plain : ∀ pre piece bef aft,
  fails_inside e bef pre aft →
  split_scan e O piece bef (pre ++ aft)
  = split_scan e O (rev pre ++ piece) (rev pre ++ bef) aft.
Proof.
  induction pre as [|c pre IH]; intros piece bef aft Hf; [done|].
  pose proof (Hf [] (c :: pre) eq_refl ltac:(done)) as H0. simpl in H0.
  simpl. rewrite H0.
  rewrite IH.
  - simpl rev. by rewrite <- !app_assoc.
  - intros p1 p2 -> Hne. specialize (Hf (c :: p1) p2 eq_refl Hne).
    simpl in Hf. by rewrite <- app_assoc in Hf.
Qed.

End Scans.

Lemma match_at_positional re : positional (match_at re).
Proof.
  intros bef aft mt. unfold match_at.
  destruct (rmatch _ _ _ _) as [y|]; [|done]. intros [= <-]. simpl.
  split; [done|]. eexists. symmetry. apply take_drop.
Qed.

Lemma xmatch_at_positional m r : positional (xmatch_at m r).
Proof.
  intros bef aft mt. unfold xmatch_at.
  destruct (xmatch _ _ _ _) as [y|]; [|done]. intros [= <-]. simpl.
  split; [done|]. eexists. symmetry. apply take_drop.
Qed.

Lemma replace_all_from s e rep : replace_all s e rep = replace_from e rep [] s.
Proof. reflexivity. Qed.

Lemma replace_from_nil e rep bef :
  e bef [] = None → replace_from e rep bef [] = [].
Proof.
  intros Hm. unfold replace_from. simpl. rewrite Hm. simpl.
  rewrite substring_drop. apply drop_ge. rewrite app_nil_r, length_rev. lia.
Qed.

(** *** The line feeds *)

Lemma line_feed_at bef c aft :
  match_at line_feed_re bef (c :: aft)
  = if c =? LF
    then Some {| index := length bef; whole := [c]; capture := None |}
    else None.
Proof.
  unfold match_at. cbn [line_feed_re pattern multiline rmatch eat after before group1].
  rewrite (N.eqb_sym LF c). destruct (c =? LF); [|done].
  cbn [before group1 rev app length].
  by replace (S (length bef) - length bef)%nat with 1%nat by lia.
Qed.

Lemma replace_line_feeds : ∀ aft bef,
  replace_from (match_at line_feed_re) (fun _ => lit "<br>") bef aft
  = line_breaks aft.
Proof.
  induction aft as [|c aft IH]; intros bef.
  - by apply replace_from_nil.
  - pose proof (line_feed_at bef c aft) as Hm.
    unfold line_breaks. cbn [mbind list_bind]. fold (line_breaks aft).
    destruct (c =? LF) eqn:Hc.
    + rewrite (replace_from_hit _ (match_at_positional _) _ bef [c] aft _ Hm)
        by done.
      by rewrite IH.
    + rewrite (replace_from_miss _ (match_at_positional _) _ bef c aft Hm).
      by rewrite IH.
Qed.

Lemma line_breaks_no_lf s : LF ∉ line_breaks s.
Proof.
  unfold line_breaks. intros Hin. apply list_elem_of_bind in Hin as (c & Hin & _).
  destruct (c =? LF) eqn:Hc.
  - revert Hin. apply lit_no_lf. by vm_compute.
  - apply list_elem_of_singleton in Hin. subst c. by rewrite N.eqb_refl in Hc.
Qed.

Lemma line_breaks_id s : LF ∉ s → line_breaks s = s.
Proof.
  induction s as [|c s IH]; intros Hno; [done|].
  unfold line_breaks. cbn [mbind list_bind]. fold (line_breaks s).
  apply not_elem_of_cons in Hno as [Hc Hno].
  destruct (N.eqb_spec c LF) as [->|_]; [done|]. simpl. by rewrite IH.
Qed.

(** *** The bold markup *)

Lemma bold_needs_stars bef aft mt :
  xmatch_at false bold_re bef aft = Some mt → ∃ r, aft = 42 :: 42 :: r.
Proof.
  unfold xmatch_at, bold_re. cbn [xmatch rmatch after].
  destruct (eat (lit "**") aft) as [r|] eqn:He; [|done].
  intros _. apply eat_Some in He. by exists r.
Qed.

Lemma bold_fails_head bef aft :
  match aft with [] => True | c :: _ => not_star c = true end →
  xmatch_at false bold_re bef aft = None.
Proof.
  intros Hh. destruct (xmatch_at false bold_re bef aft) as [mt|] eqn:Hm; [|done].
  apply bold_needs_stars in Hm as [r ->]. done.
Qed.

Lemma bold_fails_plain bef pre aft :
  star_free pre → fails_inside (xmatch_at false bold_re) bef pre aft.
Proof.
  intros Hs p1 p2 -> Hne. apply bold_fails_head.
  apply Forall_app in Hs as [_ Hs]. destruct p2 as [|c p2]; [done|].
  by apply Forall_cons in Hs as [Hc _].
Qed.

Lemma bold_at bef s rest :
  star_free s → s ≠ [] →
  xmatch_at false bold_re bef ((lit "**" ++ s ++ lit "**") ++ rest)
  = Some {| index := length bef; whole := lit "**" ++ s ++ lit "**";
            capture := Some s |}.
Proof.
  intros Hs Hne. destruct s as [|c s]; [done|].
  apply Forall_cons in Hs as [Hc Hs].
  unfold xmatch_at, bold_re. cbn [xmatch rmatch after before group1].
  rewrite <- !app_assoc. rewrite eat_app. cbn [after before group1 app].
  rewrite Hc. cbn [rmatch after before group1].
  rewrite (star_greedy_max not_star _
             (MState (rev (lit "**") ++ rev s ++ c :: rev (lit "**") ++ bef)
                rest (Some (c :: s)))
             s _ (lit "**" ++ rest)); [| done | done |].
  - cbn [before group1]. f_equal. f_equal.
    rewrite !length_app, !length_rev. cbn [length].
    change (length (lit "**")) with 2%nat.
    change (lit "**" ++ c :: s ++ lit "**" ++ rest)
      with (lit "**" ++ (c :: s) ++ lit "**" ++ rest).
    rewrite (app_assoc (c :: s)), (app_assoc (lit "**")).
    apply take_app_length'. rewrite !length_app, ?length_rev. cbn [length].
    rewrite ?length_app. change (length (lit "**")) with 2%nat. lia.
  - cbn [before after group1 rmatch]. rewrite eat_app. f_equal. f_equal.
    rewrite length_app, length_rev. cbn [length].
    replace (length s + S (length (rev (lit "**") ++ bef))
             - length (rev (lit "**") ++ bef))%nat with (S (length s)) by lia.
    cbn [take]. f_equal. by rewrite take_app_length.
Qed.

Lemma star_free_forallb s : forallb not_star s = true → star_free s.
Proof.
  intros H. apply Forall_forall. intros c Hc. apply list_elem_of_In in Hc.
  revert c Hc. by apply forallb_forall.
Qed.

Lemma bold_segments : ∀ gs bef,
  Forall segment_ok gs →
  replace_from (xmatch_at false bold_re) strong bef (concat (source <$> gs))
  = concat (html <$> gs).
Proof.
  induction gs as [|g gs IH]; intros bef Hok.
  - apply replace_from_nil. by apply bold_fails_head.
  - apply Forall_cons in Hok as [Hg Hok]. cbn [fmap list_fmap concat].
    destruct g as [s|s]; cbn [source html].
    + rewrite (replace_from_plain _ (xmatch_at_positional _ _))
        by (by apply bold_fails_plain).
      by rewrite IH.
    + destruct Hg as [Hs Hne].
      rewrite (replace_from_hit _ (xmatch_at_positional _ _) strong bef _ _ _
                 (bold_at bef s _ Hs Hne)); [|done|].
      * rewrite IH by done. unfold strong. cbn [capture default].
        by rewrite <- !app_assoc.
      * change (lit "**") with [42; 42]. done.
Qed.

Lemma html_star_free gs :
  Forall segment_ok gs → star_free (concat (html <$> gs)).
Proof.
  induction 1 as [|g gs Hg _ IH]; [constructor|].
  cbn [fmap list_fmap concat]. apply Forall_app. split; [|done].
  destruct g as [s|s]; cbn [html]; [done|]. destruct Hg as [Hs _].
  apply Forall_app. split; [by apply star_free_forallb|].
  apply Forall_app. split; [done|by apply star_free_forallb].
Qed.

(** *** The paragraph separator *)

Lemma paragraph_needs_star bef aft mt :
  match_at paragraph_re bef aft = Some mt → ∃ r, aft = LF :: r ∧ 42 ∈ r.
Proof.
  unfold match_at.
  destruct (rmatch _ _ _ _) as [y|] eqn:Hm; [|done]. intros _.
  apply rmatch_sound in Hm as (x' & Hr & _).
  cbn [paragraph_re pattern multiline seq reaches spaces] in Hr.
  destruct Hr as (x1 & (H1 & _) & x2 & (w & _ & H2 & _) & y2 & (H3 & _) & _).
  cbn [after] in H1. exists (after x1). split; [done|].
  rewrite H2, H3. change (lit "*") with [42].
  apply elem_of_app. right. apply elem_of_cons. by left.
Qed.

Lemma paragraph_fails_plain bef pre :
  star_free pre → fails_inside (match_at paragraph_re) bef pre [].
Proof.
  intros Hs p1 p2 -> Hne.
  destruct (match_at paragraph_re _ _) as [mt|] eqn:Hm; [|done].
  apply paragraph_needs_star in Hm as (r & Hr & Hin).
  rewrite app_nil_r in Hr. subst p2.
  apply Forall_app in Hs as [_ Hs]. apply Forall_cons in Hs as [_ Hs].
  rewrite Forall_forall in Hs. specialize (Hs _ Hin). done.
Qed.

Lemma paragraph_fails_line bef pre aft :
  LF ∉ pre → fails_inside (match_at paragraph_re) bef pre aft.
Proof.
  intros Hno p1 p2 -> Hne.
  destruct (match_at paragraph_re _ _) as [mt|] eqn:Hm; [|done].
  apply paragraph_needs_star in Hm as (r & Hr & _).
  destruct p2 as [|c p2]; [done|]. injection Hr as -> _.
  exfalso. apply Hno. apply elem_of_app. right. apply elem_of_cons. by left.
Qed.

Lemma paragraph_at bef r :
  match_at paragraph_re bef ([LF] ++ 42 :: r)
  = Some {| index := length bef; whole := [LF]; capture := None |}.
Proof.
  unfold match_at.
  cbn [paragraph_re pattern multiline seq rmatch spaces eat after before
       group1 app].
  rewrite N.eqb_refl. cbn [rev app star_greedy].
  change (is_space 42) with false. cbn [rmatch after before group1].
  change (lit "*") with [42]. cbn [eat]. rewrite N.eqb_refl.
  cbn [before group1 length].
  by replace (S (length bef) - length bef)%nat with 1%nat by lia.
Qed.

Lemma split_star_free wb :
  star_free wb → split_re wb (match_at paragraph_re) = [wb].
Proof.
  intros Hs. destruct wb as [|c wb]; [done|]. unfold split_re.
  rewrite <- (app_nil_r (c :: wb)) at 1.
  rewrite (split_scan_plain (match_at paragraph_re))
    by (by apply paragraph_fails_plain).
  cbn [split_scan]. by rewrite app_nil_r, rev_involutive.
Qed.

(** *** One paragraph *)

Lemma star_free_skip_space s : star_free s → star_free (skip_space s).
Proof.
  induction 1 as [|c s Hc Hs IH]; [constructor|].
  simpl. destruct (is_space c); [done|by constructor].
Qed.

Lemma star_free_rev s : star_free s → star_free (rev s).
Proof.
  intros Hs. apply Forall_forall. intros c Hc.
  apply list_elem_of_In, in_rev, list_elem_of_In in Hc.
  unfold star_free in Hs. rewrite Forall_forall in Hs. by apply Hs.
Qed.

Lemma star_free_trim s : star_free s → star_free (trim s).
Proof.
  intros Hs. unfold trim.
  by apply star_free_rev, star_free_skip_space, star_free_rev, star_free_skip_space.
Qed.

Lemma startsWith_star_free s : star_free s → startsWith s (lit "*") = false.
Proof.
  intros Hs. unfold startsWith. apply bool_decide_eq_false_2.
  intros [r Hr]. apply eat_Some in Hr. subst s.
  by apply Forall_cons in Hs as [Hc _].
Qed.

Lemma html_paragraph_plain p :
  star_free p → html_paragraph p = paragraph_of (line_breaks (trim p)).
Proof.
  intros Hs. unfold html_paragraph.
  rewrite startsWith_star_free by (by apply star_free_trim).
  by rewrite replace_all_from, replace_line_feeds.
Qed.

Lemma format_one_paragraph raw wb :
  raw ≠ [] →
  replace_all raw (xmatch_at false bold_re) strong = wb → star_free wb →
  formatAIResponseWithAsterisks raw = paragraph_of (line_breaks (trim wb)).
Proof.
  intros Hne Hwb Hs. unfold formatAIResponseWithAsterisks.
  destruct raw as [|c raw]; [done|]. cbn [truthy negb]. rewrite Hwb.
  rewrite split_star_free by done. cbn [fmap list_fmap concat].
  rewrite app_nil_r. by apply html_paragraph_plain.
Qed.

(** *** Bullet lists *)

Lemma join_lf_bullets l ls :
  join_lf (bullet <$> l :: ls)
  = bullet l ++ match ls with
                | [] => []
                | _ :: _ => [LF] ++ join_lf (bullet <$> ls)
                end.
Proof. destruct ls; [by rewrite app_nil_r|done]. Qed.

Lemma bold_fails_bullet bef l rest :
  star_free l →
  match rest with [] => True | c :: _ => not_star c = true end →
  xmatch_at false bold_re bef (bullet l ++ rest) = None.
Proof.
  intros Hl Hr. destruct (xmatch_at _ _ _ _) as [mt|] eqn:Hm; [|done].
  apply bold_needs_stars in Hm as [r Heq]. unfold bullet in Heq.
  injection Heq as Heq. destruct l as [|c l].
  - simpl in Heq. subst rest. done.
  - injection Heq as -> _. by apply Forall_cons in Hl as [Hc _].
Qed.

Lemma bullets_bold : ∀ ls bef,
  Forall (fun l => star_free l ∧ LF ∉ l) ls →
  replace_from (xmatch_at false bold_re) strong bef (join_lf (bullet <$> ls))
  = join_lf (bullet <$> ls).
Proof.
  pose proof (xmatch_at_positional false bold_re) as Hp.
  induction ls as [|l ls IH]; intros bef Hok.
  - apply replace_from_nil. by apply bold_fails_head.
  - apply Forall_cons in Hok as [[Hl _] Hok]. rewrite join_lf_bullets.
    specialize (IH (LF :: rev l ++ 42 :: bef) Hok).
    unfold bullet at 1 3. cbn [app].
    rewrite (replace_from_miss _ Hp).
    2:{ apply (bold_fails_bullet bef l); [done|]. by destruct ls. }
    f_equal.
    rewrite (replace_from_plain _ Hp) by (by apply bold_fails_plain).
    f_equal. destruct ls as [|l2 ls].
    + apply replace_from_nil. by apply bold_fails_head.
    + cbn [app]. rewrite (replace_from_miss _ Hp) by (by apply bold_fails_head).
      f_equal. exact IH.
Qed.

Lemma bullets_split : ∀ ls l piece bef,
  Forall (fun l => star_free l ∧ LF ∉ l) (l :: ls) →
  split_scan (match_at paragraph_re) O piece bef (join_lf (bullet <$> l :: ls))
  = (rev piece ++ bullet l) :: (bullet <$> ls).
Proof.
  induction ls as [|l2 ls IH]; intros l piece bef Hok;
    apply Forall_cons in Hok as [[_ Hl] Hok]; rewrite join_lf_bullets.
  - rewrite (split_scan_plain (match_at paragraph_re)).
    + cbn [split_scan fmap list_fmap]. by rewrite rev_app_distr, rev_involutive.
    + apply paragraph_fails_line. unfold bullet.
      apply not_elem_of_cons. split; [done|done].
  - rewrite (split_scan_plain (match_at paragraph_re)).
    + pose proof (join_lf_bullets l2 ls) as Hj. unfold bullet at 2 in Hj.
      cbn [app] in Hj.
      pose proof (paragraph_at (rev (bullet l) ++ bef)
                    (l2 ++ match ls with
                           | [] => []
                           | _ :: _ => LF :: join_lf (bullet <$> ls)
                           end)) as Hp.
      rewrite <- Hj in Hp.
      rewrite (split_scan_hit (match_at paragraph_re) _ _ [LF] _ _ Hp) by done.
      rewrite rev_app_distr, rev_involutive. f_equal.
      apply (IH l2 [] (rev [LF] ++ rev (bullet l) ++ bef) Hok).
    + apply paragraph_fails_line. unfold bullet.
      apply not_elem_of_cons. split; [done|done].
Qed.

Lemma all_space_no_star w : all_space w → star_free w.
Proof.
  intros Hw. eapply Forall_impl; [exact Hw|]. intros c Hc. simpl in Hc.
  unfold not_star. destruct (N.eqb_spec c 42) as [->|]; [done|done].
Qed.

Lemma rtrim_split s :
  ∃ w, all_space w ∧ s = rev (skip_space (rev s)) ++ w.
Proof.
  destruct (skip_space_split (rev s)) as (w & Hw & Hs).
  exists (rev w). split.
  - apply Forall_forall. intros c Hc.
    apply list_elem_of_In, in_rev, list_elem_of_In in Hc.
    unfold all_space in Hw. rewrite Forall_forall in Hw. by apply Hw.
  - rewrite <- rev_app_distr, <- Hs. by rewrite rev_involutive.
Qed.

Lemma trim_cons_nonspace c s :
  is_space c = false → trim (c :: s) = c :: rev (skip_space (rev s)).
Proof.
  intros Hc. unfold trim. cbn [skip_space]. rewrite Hc.
  destruct (rtrim_split s) as (w & Hw & Hs).
  set (t := rev (skip_space (rev s))) in *.
  rewrite Hs at 1.
  change (c :: t ++ w) with ((c :: t) ++ w).
  rewrite rev_skip_space_app by done.
  assert (skip_space (rev (c :: t)) = rev (c :: t)) as ->.
  { subst t. cbn [rev]. rewrite rev_involutive.
    destruct (skip_space (rev s)) as [|d u] eqn:Hu.
    - simpl. by rewrite Hc.
    - pose proof (skip_space_head (rev s)) as Hd. rewrite Hu in Hd.
      cbn [app skip_space]. by rewrite Hd. }
  by rewrite rev_involutive.
Qed.

Lemma trim_app_space_end s w : all_space w → trim (s ++ w) = trim s.
Proof.
  intros Hw. destruct (skip_space_split s) as (u & Hu & Hs).
  rewrite Hs at 1. rewrite <- app_assoc, trim_app_space by done.
  destruct (skip_space s) as [|d t] eqn:Hd.
  - rewrite Hs, app_nil_r. simpl.
    rewrite <- (app_nil_r w), <- (app_nil_r u). by rewrite !trim_app_space.
  - pose proof (skip_space_head s) as Hh. rewrite Hd in Hh.
    rewrite trim_app_space_r by done.
    rewrite <- Hd. apply trim_skip_space.
Qed.

Lemma trim_rtrim s : trim (rev (skip_space (rev s))) = trim s.
Proof.
  destruct (rtrim_split s) as (w & Hw & Hs).
  rewrite Hs at 2. by rewrite trim_app_space_end.
Qed.

Lemma no_lf_skip_space s : LF ∉ s → LF ∉ skip_space s.
Proof.
  induction s as [|c s IH]; [done|]. intros Hno.
  apply not_elem_of_cons in Hno as [Hc Hno]. simpl.
  destruct (is_space c); [by apply IH|]. by apply not_elem_of_cons.
Qed.

Lemma no_lf_rev s : LF ∉ s → LF ∉ rev s.
Proof. intros Hno Hin. by apply list_elem_of_In, in_rev, list_elem_of_In in Hin. Qed.

Lemma no_lf_trim s : LF ∉ s → LF ∉ trim s.
Proof.
  intros Hno. unfold trim.
  by apply no_lf_rev, no_lf_skip_space, no_lf_rev, no_lf_skip_space.
Qed.

Lemma html_paragraph_bullet l :
  star_free l → LF ∉ l → html_paragraph (bullet l) = paragraph_of (trim l).
Proof.
  intros Hs Hno. unfold html_paragraph, bullet.
  rewrite trim_cons_nonspace by done.
  change (startsWith (42 :: _) (lit "*")) with true. cbv iota.
  rewrite substring_drop. cbn [drop]. rewrite drop_0, trim_rtrim.
  rewrite replace_all_from, replace_line_feeds.
  by rewrite line_breaks_id by (by apply no_lf_trim).
Qed.


End FormatFacts.

(** ** The formatter: what it returns *)

Module FormatSpec.
Import JS Parser Semantics MatchFacts Shapes SectionFacts Fields ParserFacts
  Readings ParserSpec Entries EntryFacts Format FormatTerms FormatFacts.

Lemma split_scan_nonempty e : ∀ aft skip piece bef,
  split_scan e skip piece bef aft ≠ [].
Proof.
  induction aft as [|c aft IH]; intros skip piece bef; [done|].
  simpl. destruct skip; [|apply IH].
  destruct (e bef (c :: aft)) as [z|]; [|apply IH].
  destruct (length (whole z)); [|done]. destruct piece; [apply IH|done].
Qed.

Lemma html_paragraph_shape p :
  ∃ mid, html_paragraph p = lit "<p>" ++ mid ++ lit "</p>" ∧ LF ∉ mid.
Proof.
  unfold html_paragraph. eexists. split; [reflexivity|].
  rewrite replace_all_from, replace_line_feeds. apply line_breaks_no_lf.
Qed.

Lemma paragraphs_shape p ps :
  ∃ mid, concat (html_paragraph <$> p :: ps) = lit "<p>" ++ mid ++ lit "</p>"
         ∧ LF ∉ mid.
Proof.
  revert p. induction ps as [|p2 ps IH]; intros p.
  - destruct (html_paragraph_shape p) as (mid & Hp & Hno).
    exists mid. cbn [fmap list_fmap concat]. by rewrite app_nil_r.
  - destruct (html_paragraph_shape p) as (mid & Hp & Hno).
    destruct (IH p2) as (mid2 & Hps & Hno2).
    exists (mid ++ lit "</p>" ++ lit "<p>" ++ mid2). split.
    + change (concat (html_paragraph <$> p :: p2 :: ps))
        with (html_paragraph p ++ concat (html_paragraph <$> p2 :: ps)).
      rewrite Hp, Hps. by rewrite <- !app_assoc.
    + rewrite !not_elem_of_app. repeat split; [done| | |done].
      * apply lit_no_lf. by vm_compute.
      * apply lit_no_lf. by vm_compute.
Qed.

(** Whatever the text, the result holds no line feed; it is empty for the
    empty text only, and otherwise begins with the start tag of a paragraph
    and ends with the end tag of one. *)
Theorem formatted_text_shape (rawText : jsstring) :
  (LF ∉ formatAIResponseWithAsterisks rawText)
  ∧ (formatAIResponseWithAsterisks rawText = [] ↔ rawText = [])
  ∧ (rawText ≠ [] →
     ∃ mid, formatAIResponseWithAsterisks rawText
            = lit "<p>" ++ mid ++ lit "</p>").
Proof.
  destruct rawText as [|c raw].
  - split; [by apply not_elem_of_nil|]. split; [done|done].
  - unfold formatAIResponseWithAsterisks. cbn [truthy negb].
    set (wb := replace_all (c :: raw) (xmatch_at false bold_re) strong).
    assert (∃ p ps, split_re wb (match_at paragraph_re) = p :: ps)
      as (p & ps & ->).
    { destruct wb as [|d wb]; [by exists [], []|]. unfold split_re.
      pose proof (split_scan_nonempty (match_at paragraph_re) (d :: wb) O [] [])
        as Hne.
      destruct (split_scan _ _ _ _ _) as [|p ps]; [done|]. by exists p, ps. }
    destruct (paragraphs_shape p ps) as (mid & -> & Hno).
    split; [|split].
    + rewrite !not_elem_of_app. repeat split; [|done|].
      * apply lit_no_lf. by vm_compute.
      * apply lit_no_lf. by vm_compute.
    + split; [|done]. intros Heq. apply (f_equal length) in Heq.
      rewrite length_app in Heq. by change (length (lit "<p>")) with 3%nat in Heq.
    + intros _. by exists mid.
Qed.

(** A text of plain pieces and of pieces between two pairs of asterisks, no
    piece with an asterisk inside, becomes one paragraph: the bold pieces in
    [strong] elements, the text trimmed, its line feeds replaced by [br]
    elements, and nothing else changed. *)
Theorem plain_and_bold_text_formatted (gs : list segment) :
  Forall segment_ok gs → concat (source <$> gs) ≠ [] →
  formatAIResponseWithAsterisks (concat (source <$> gs))
  = paragraph_of (line_breaks (trim (concat (html <$> gs)))).
Proof.
  intros Hok Hne. apply format_one_paragraph; [done| |by apply html_star_free].
  rewrite replace_all_from. by apply bold_segments.
Qed.

(** A sentence with a bold phrase, a line feed and an element of markup,
    which is passed on as it is. *)
Lemma plain_and_bold_text_formatted_witness :
  formatAIResponseWithAsterisks
    (text_of ["Made of **solid oak**."; "<i>Hand</i> finished & oiled. "])
  = lit "<p>Made of <strong>solid oak</strong>.<br><i>Hand</i> finished & oiled.</p>".
Proof.
  apply (plain_and_bold_text_formatted
           [Plain (lit "Made of "); Bold (lit "solid oak");
            Plain (text_of ["."; "<i>Hand</i> finished & oiled. "])]).
  - repeat constructor; try (by apply star_free_forallb); discriminate.
  - discriminate.
Defined.

(** A bullet list, each line an asterisk and an item without asterisk,
    becomes one paragraph for each item, trimmed. *)
Theorem bullet_list_formatted (items : list jsstring) :
  items ≠ [] → Forall (fun l => star_free l ∧ LF ∉ l) items →
  formatAIResponseWithAsterisks (join_lf (bullet <$> items))
  = concat ((fun l => paragraph_of (trim l)) <$> items).
Proof.
  intros Hne Hok. destruct items as [|l ls]; [done|].
  unfold formatAIResponseWithAsterisks.
  assert (truthy (join_lf (bullet <$> l :: ls)) = true) as ->.
  { rewrite join_lf_bullets. done. }
  cbn [negb]. rewrite replace_all_from, bullets_bold by done.
  assert (split_re (join_lf (bullet <$> l :: ls)) (match_at paragraph_re)
          = bullet <$> l :: ls) as ->.
  { unfold split_re. pose proof (bullets_split ls l [] [] Hok) as Hs.
    rewrite join_lf_bullets in *. unfold bullet at 1 in Hs.
    unfold bullet at 1. cbn [app] in Hs |- *. exact Hs. }
  f_equal. rewrite <- list_fmap_compose.
  apply Forall_fmap_ext. eapply Forall_impl; [exact Hok|].
  intros x [Hx Hno]. by apply html_paragraph_bullet.
Qed.

(** Three items, the second one indented after its asterisk. *)
Lemma bullet_list_formatted_witness :
  formatAIResponseWithAsterisks
    (text_of ["* Add the material"; "*   Name the size "; "*Show a photo"])
  = lit "<p>Add the material</p><p>Name the size</p><p>Show a photo</p>".
Proof.
  apply (bullet_list_formatted
           [lit " Add the material"; lit "   Name the size ";
            lit "Show a photo"]).
  - discriminate.
  - repeat constructor; try (by apply star_free_forallb);
      by apply lit_no_lf.
Defined.

End FormatSpec.

(** ** The cache and the requests that use it *)

Module CacheUse.
Import JS Cache CacheFacts Net NetTerms CacheUseTerms.

Section Reads.
Context {V : Type} (null : V).

(** Reading a key, now or later, gives the same whether or not an earlier
    read or sweep has removed what had expired by then. *)
Theorem reads_and_sweeps_leave_no_trace
    (c : gmap jsstring (CacheEntry V)) (now now' : Z) (k k' : jsstring) :
  (now ≤ now')%Z →
  (get null now' (get null now c k).2 k').1 = (get null now' c k').1
  ∧ (get null now' (cleanup now c) k').1 = (get null now' c k').1.
Proof.
  intros Hle. split.
  - unfold get at 2. destruct (c !! k) as [e|] eqn:Hk; [|done].
    destruct (Z.gtb_spec now (expiry e)) as [Hgt|_]; [|done]. simpl.
    unfold get. destruct (decide (k = k')) as [<-|Hne].
    + rewrite lookup_delete_eq, Hk.
      destruct (Z.gtb_spec now' (expiry e)) as [_|Hle']; [done|lia].
    + rewrite lookup_delete_ne by done.
      destruct (c !! k') as [e'|]; [|done]. by destruct (now' >? expiry e')%Z.
  - unfold get. rewrite cleanup_lookup.
    destruct (c !! k') as [e|] eqn:Hk; [|done].
    destruct (Z.gtb_spec now (expiry e)) as [Hgt|_].
    + destruct (Z.gtb_spec now' (expiry e)) as [_|Hle']; [done|lia].
    + by destruct (now' >? expiry e)%Z.
Qed.

End Reads.

(** An entry that expired at 2000 is removed by a read at 2500; a read at
    3000 returns the same with and without that removal. *)
Lemma reads_and_sweeps_leave_no_trace_witness :
  let c := set 1000 (∅ : gmap jsstring (CacheEntry jsstring))
             (lit "k") (lit "v") (Some 1000%Z) in
  (get [] 3000 (get [] 2500 c (lit "k")).2 (lit "k")).1 = (get [] 3000 c (lit "k")).1
  ∧ (get [] 3000 (cleanup 2500 c) (lit "k")).1 = (get [] 3000 c (lit "k")).1.
Proof.
  apply (reads_and_sweeps_leave_no_trace (V := jsstring) []). lia.
Defined.

Section Requests.
Context {J : Type} (null : J) (truthy_value : J → bool)
  (stringify : J → jsstring) (empty_object : J).

Abbreviation request := (apiRequest null truthy_value stringify empty_object).
Abbreviation hit := (cache_hit null truthy_value stringify empty_object).
Abbreviation cached := (uses_cache truthy_value stringify empty_object).
Abbreviation key := (cache_key truthy_value stringify empty_object).

Lemma request_answered now store endpoint options ms r data :
  hit now store endpoint options = false →
  (ms < default 30000 (timeout options))%Z → ok r = true →
  json r = Resolves data →
  request now store endpoint options (Responds ms r)
  = (Resolves data,
     if cached endpoint options
     then set (now + ms) (cache_lookup null truthy_value stringify empty_object
                            now store endpoint options).2
            (key endpoint options) data (cacheTTL options)
     else (cache_lookup null truthy_value stringify empty_object
             now store endpoint options).2).
Proof.
  intros Hhit Hms Hok Hjson. unfold apiRequest. rewrite Hhit.
  unfold fetch. cbn [api_call abort_after].
  destruct (Z.ltb_spec ms (default 30000%Z (timeout options))); [|lia].
  rewrite Hok, Hjson. done.
Qed.

Lemma lookup_after_set now' t store endpoint options data :
  cached endpoint options = true →
  cache_lookup null truthy_value stringify empty_object now'
    (set t store (key endpoint options) data (cacheTTL options)) endpoint options
  = get null now' (set t store (key endpoint options) data (cacheTTL options))
      (key endpoint options).
Proof. intros Hc. unfold cache_lookup. by rewrite Hc. Qed.

(** A GET request made with the cache option, answered in time with a
    success and a truthy value, stores the value; the same request made
    again within the time to live is answered from the cache, whatever the
    network would do, and leaves the cache as it is. *)
Theorem cached_get_is_reused now store endpoint options ms r data now' net' :
  uses_cache truthy_value stringify empty_object endpoint options = true →
  cache_hit null truthy_value stringify empty_object now store endpoint options
  = false →
  (ms < default 30000 (timeout options))%Z → ok r = true →
  json r = Resolves data → truthy_value data = true →
  (now' ≤ now + ms + default DEFAULT_TTL (cacheTTL options))%Z →
  let first :=
    apiRequest null truthy_value stringify empty_object now store endpoint
      options (Responds ms r) in
  first.1 = Resolves data
  ∧ apiRequest null truthy_value stringify empty_object now' first.2 endpoint
      options net'
    = (Resolves data, first.2).
Proof.
  intros Hc Hhit Hms Hok Hjson Htruthy Hle first. subst first.
  rewrite (request_answered now store endpoint options ms r data) by done.
  rewrite Hc. cbn [fst snd].
  split; [done|].
  set (store1 := (cache_lookup null truthy_value stringify empty_object
                    now store endpoint options).2).
  assert (Hget : get null now'
            (set (now + ms) store1 (key endpoint options) data (cacheTTL options))
            (key endpoint options)
          = (data, set (now + ms) store1 (key endpoint options) data
                     (cacheTTL options))).
  { unfold get, set. rewrite lookup_insert_eq. cbn [expiry Cache.data].
    destruct (Z.gtb_spec now' (now + ms + default DEFAULT_TTL (cacheTTL options)))
      as [Hgt|_]; [lia|done]. }
  unfold apiRequest, cache_hit. rewrite lookup_after_set by done.
  rewrite Hc, Hget. cbn [fst snd andb]. by rewrite Htruthy.
Qed.

Lemma empty_cache_no_hit now endpoint options :
  truthy_value null = false → hit now ∅ endpoint options = false.
Proof.
  intros Hnull. unfold cache_hit, cache_lookup.
  destruct (cached endpoint options); [|done].
  unfold get. rewrite lookup_empty. cbn [fst andb]. exact Hnull.
Qed.

(** What is stored is not reused when it is falsy, nor once its time to
    live has passed: the same request is then answered as it is with an
    empty cache, by the network. *)
Theorem stale_or_falsy_entry_is_refetched
    now store endpoint options ms r data now' net' :
  uses_cache truthy_value stringify empty_object endpoint options = true →
  cache_hit null truthy_value stringify empty_object now store endpoint options
  = false →
  (ms < default 30000 (timeout options))%Z → ok r = true →
  json r = Resolves data →
  truthy_value null = false →
  truthy_value data = false
  ∨ (now' > now + ms + default DEFAULT_TTL (cacheTTL options))%Z →
  let first :=
    apiRequest null truthy_value stringify empty_object now store endpoint
      options (Responds ms r) in
  (apiRequest null truthy_value stringify empty_object now' first.2 endpoint
     options net').1
  = (apiRequest null truthy_value stringify empty_object now' ∅ endpoint
       options net').1.
Proof.
  intros Hc Hhit Hms Hok Hjson Hnull Hcase first. subst first.
  rewrite (request_answered now store endpoint options ms r data) by done.
  rewrite Hc. cbn [fst snd].
  set (store1 := (cache_lookup null truthy_value stringify empty_object
                    now store endpoint options).2).
  assert (Hh : hit now' (set (now + ms) store1 (key endpoint options) data
                           (cacheTTL options)) endpoint options = false).
  { unfold cache_hit. rewrite lookup_after_set by done. rewrite Hc.
    unfold get, set. rewrite lookup_insert_eq. cbn [expiry Cache.data andb].
    destruct (Z.gtb_spec now' (now + ms + default DEFAULT_TTL (cacheTTL options)))
      as [Hgt|Hle]; cbn [fst]; [done|].
    destruct Hcase as [Hf|Hgt]; [done|lia]. }
  rewrite !(NetSpec.apiRequest_no_hit null truthy_value stringify empty_object);
    [done|by apply empty_cache_no_hit|done].
Qed.

(** A request that does not resolve adds nothing to the cache. *)
Theorem failed_request_stores_nothing now store endpoint options net :
  (∀ v, (apiRequest null truthy_value stringify empty_object now store endpoint
           options net).1 ≠ Resolves v) →
  (apiRequest null truthy_value stringify empty_object now store endpoint
     options net).2 ⊆ store.
Proof.
  intros Hfail.
  assert (Hl : (cache_lookup null truthy_value stringify empty_object
                  now store endpoint options).2 ⊆ store).
  { unfold cache_lookup. destruct (cached endpoint options); [|done].
    unfold get. destruct (store !! key endpoint options) as [e|]; [|done].
    destruct (now >? expiry e)%Z; [|done]. apply delete_subseteq. }
  revert Hfail. unfold apiRequest.
  destruct (hit now store endpoint options).
  { intros Hfail. by specialize (Hfail _ eq_refl). }
  destruct (fetch _ net) as [r|e|]; [|done..].
  destruct (negb (ok r)); [done|].
  destruct (json r) as [v|e|]; [|done..].
  intros Hfail. by specialize (Hfail _ eq_refl).
Qed.

(** The timer is cleared when the response arrives, before its body is
    read: a request stays pending for ever exactly when the cache does not
    answer it and a response with a success status arrives in time whose
    body never completes.  In every other case it settles. *)
Theorem timeout_ends_with_the_response now store endpoint options net :
  (apiRequest null truthy_value stringify empty_object now store endpoint
     options net).1 = Hangs
  ↔ cache_hit null truthy_value stringify empty_object now store endpoint
      options = false
    ∧ ∃ ms r, net = Responds ms r
              ∧ (ms < default 30000 (timeout options))%Z
              ∧ ok r = true ∧ json r = Hangs.
Proof.
  split.
  - destruct (hit now store endpoint options) eqn:Hhit.
    { unfold apiRequest. by rewrite Hhit. }
    rewrite (NetSpec.apiRequest_no_hit null truthy_value stringify empty_object)
      by done.
    unfold fetch. cbn [api_call abort_after].
    destruct net as [ms r|ms e|]; [| |done].
    + destruct (Z.ltb_spec ms (default 30000%Z (timeout options))); [|done].
      destruct (ok r) eqn:Hok; [|done]. cbn [negb].
      destruct (json r) eqn:Hj; [done|done|]. intros _. split; [done|].
      by exists ms, r.
    + by destruct (ms <? _)%Z.
  - intros (Hhit & ms & r & -> & Hms & Hok & Hj).
    rewrite (NetSpec.apiRequest_no_hit null truthy_value stringify empty_object)
      by done.
    unfold fetch. cbn [api_call abort_after].
    destruct (Z.ltb_spec ms (default 30000%Z (timeout options))); [|lia].
    by rewrite Hok, Hj.
Qed.

End Requests.

(** The tags are fetched in 120 ms; 30 seconds later the same request is
    answered from the cache although the network is down. *)
Lemma cached_get_is_reused_witness :
  let first := apiRequest [] truthy id (lit "{}") 0 ∅ (lit "/api/tags") cached_get
                 (Responds 120 (answer (lit "[1]"))) in
  first.1 = Resolves (lit "[1]")
  ∧ apiRequest [] truthy id (lit "{}") 30000 first.2 (lit "/api/tags") cached_get
      (Fails 5 failed_to_fetch)
    = (Resolves (lit "[1]"), first.2).
Proof.
  apply (cached_get_is_reused (J := jsstring) [] truthy id (lit "{}") 0%Z ∅
           (lit "/api/tags") cached_get 120%Z (answer (lit "[1]")) (lit "[1]")
           30000%Z (Fails 5 failed_to_fetch));
    [reflexivity|reflexivity|simpl; lia|reflexivity|reflexivity|reflexivity
    |simpl; lia].
Defined.

(** An empty string is stored and not reused: 30 seconds later the network
    is asked again, and its failure is what the request reports. *)
Lemma stale_or_falsy_entry_is_refetched_witness :
  let first := apiRequest [] truthy id (lit "{}") 0 ∅ (lit "/api/tags") cached_get
                 (Responds 120 (answer [])) in
  (apiRequest [] truthy id (lit "{}") 30000 first.2 (lit "/api/tags") cached_get
     (Fails 5 failed_to_fetch)).1
  = (apiRequest [] truthy id (lit "{}") 30000 ∅ (lit "/api/tags") cached_get
       (Fails 5 failed_to_fetch)).1.
Proof.
  apply (stale_or_falsy_entry_is_refetched (J := jsstring) [] truthy id (lit "{}")
           0%Z ∅ (lit "/api/tags") cached_get 120%Z (answer []) [] 30000%Z
           (Fails 5 failed_to_fetch));
    [reflexivity|reflexivity|simpl; lia|reflexivity|reflexivity|reflexivity|by left].
Defined.

(** A cached GET request that fails leaves the empty cache empty. *)
Lemma failed_request_stores_nothing_witness :
  (apiRequest [] truthy id (lit "{}") 0 ∅ (lit "/api/tags") cached_get
     (Fails 5 failed_to_fetch)).2 ⊆ ∅.
Proof.
  apply (failed_request_stores_nothing (J := jsstring) [] truthy id (lit "{}") 0%Z ∅
           (lit "/api/tags") cached_get (Fails 5 failed_to_fetch)).
  intros v. vm_compute. discriminate.
Defined.

End CacheUse.

(** ** The queue makes progress *)

Module QueueProgress.
Import Queue QueueInvariant QueueFacts QueueScenario QueueProgressTerms.

Section Progress.
Context {V E : Type}.
Implicit Types (s : state V E) (t : task) (o : outcome V E) (ev : event V E).

Lemma finish_starts_head s t :
  wf s → t ∈ finishing s →
  started (finish t s) = started s ++ take 1 (queue s)
  ∧ queue (finish t s) = drop 1 (queue s)
  ∧ submitted (finish t s) = submitted s.
Proof.
  intros [_ _ _ _ _ Hcount Hceil] Hin. unfold finish, processQueue.
  cbn [activeRequests queue].
  assert (0 < length (finishing s))%nat.
  { destruct (finishing s); [by apply elem_of_nil in Hin|simpl; lia]. }
  unfold maxConcurrent in *.
  destruct (Nat.leb_spec 3 (Nat.pred (activeRequests s))) as [Hfull|_]; [lia|].
  destruct (queue s) as [|p rest]; simpl; [by rewrite app_nil_r|done].
Qed.

Lemma step_progress s ev s' :
  wf s → no_add ev → step s ev = Some s' →
  started s' = started s ++ take (completions [ev]) (queue s)
  ∧ queue s' = drop (completions [ev]) (queue s)
  ∧ submitted s' = submitted s.
Proof.
  intros Hwf Hno. destruct ev as [t|t o|t]; [done|..]; simpl;
    case_bool_decide as Hen; try discriminate; intros [= <-].
  - simpl. by rewrite app_nil_r.
  - by apply finish_starts_head.
Qed.

Lemma run_progress evs : ∀ s s',
  wf s → busy s → Forall no_add evs → run evs s = Some s' →
  started s' = started s ++ take (completions evs) (queue s)
  ∧ queue s' = drop (completions evs) (queue s)
  ∧ submitted s' = submitted s.
Proof.
  induction evs as [|ev evs IH]; intros s s' Hwf Hbusy Hno; simpl.
  - intros [= <-]. rewrite drop_0. simpl. by rewrite app_nil_r.
  - apply Forall_cons in Hno as [Hev Hno].
    destruct (step s ev) as [s1|] eqn:Hstep; [|discriminate]. intros Hrun.
    destruct (step_wf _ _ _ Hwf Hbusy Hstep) as [Hwf1 Hbusy1].
    destruct (step_progress _ _ _ Hwf Hev Hstep) as (Hs1 & Hq1 & Hsub1).
    destruct (IH _ _ Hwf1 Hbusy1 Hno Hrun) as (Hs & Hq & Hsub).
    rewrite Hs, Hq, Hsub, Hs1, Hq1, Hsub1. clear.
    destruct ev as [t|t o|t]; simpl; rewrite ?drop_0, ?app_nil_r; [done..|].
    destruct (queue s) as [|p rest]; simpl.
    + by rewrite take_nil, drop_nil, !app_nil_r.
    + by rewrite drop_0, <- app_assoc.
Qed.

Lemma drain_measure (o : task → outcome V E) : ∀ n s,
  wf s → busy s →
  (2 * length (queue s) + 2 * length (running s) + length (finishing s) ≤ n)%nat →
  ∃ evs s', Forall no_add evs ∧ run evs s = Some s'
            ∧ queue s' = [] ∧ running s' = [] ∧ finishing s' = []
            ∧ activeRequests s' = 0%nat.
Proof.
  induction n as [|n IH]; intros s Hwf Hbusy Hm.
  - exists [], s. destruct Hwf as [_ _ _ _ _ Hcount _].
    destruct (queue s) eqn:Hq, (running s) eqn:Hr, (finishing s) eqn:Hf;
      simpl in Hm; try lia.
    split; [constructor|]. by rewrite Hcount.
  - destruct (finishing s) as [|t f] eqn:Hf.
    + destruct (running s) as [|t r] eqn:Hr.
      * exists [], s. destruct Hwf as [_ _ _ _ _ Hcount _].
        rewrite Hr, Hf in Hcount. simpl in Hcount.
        destruct Hbusy as [Hq|Hfull]; [|unfold maxConcurrent in Hfull; lia].
        split; [constructor|]. by rewrite Hcount.
      * assert (Hstep : step s (Settle t (o t)) = Some (settle t (o t) s)).
        { simpl. rewrite bool_decide_eq_true_2; [done|]. rewrite Hr. by left. }
        destruct (step_wf _ _ _ Hwf Hbusy Hstep) as [Hwf1 Hbusy1].
        destruct (IH (settle t (o t) s) Hwf1 Hbusy1) as (evs & s' & Hno & Hrun & H).
        { simpl. rewrite Hr, Hf. simpl. rewrite Nat.eqb_refl.
          simpl in Hm. lia. }
        exists (Settle t (o t) :: evs), s'. split; [by constructor|].
        split; [|done]. cbn [run]. by rewrite Hstep.
    + assert (Hin : t ∈ finishing s) by (rewrite Hf; by left).
      assert (Hstep : step s (Finally t) = Some (finish t s)).
      { simpl. by rewrite bool_decide_eq_true_2. }
      destruct (step_wf _ _ _ Hwf Hbusy Hstep) as [Hwf1 Hbusy1].
      destruct (IH (finish t s) Hwf1 Hbusy1) as (evs & s' & Hno & Hrun & H).
      { pose proof (remove_first_length t (finishing s) Hin) as Hlen.
        destruct Hwf as [_ _ _ _ _ Hcount Hceil].
        unfold finish, processQueue. cbn [activeRequests queue].
        unfold maxConcurrent in *. rewrite Hf in Hlen, Hcount.
        simpl in Hm, Hlen, Hcount.
        destruct (Nat.leb_spec 3 (Nat.pred (activeRequests s))); [lia|].
        destruct (queue s) as [|p rest]; simpl; rewrite ?length_app, ?Hf;
          simpl in *; lia. }
      exists (Finally t :: evs), s'. split; [by constructor|].
      split; [|done]. cbn [run]. by rewrite Hstep.
Qed.

End Progress.

(** Once nothing more is added, each finally block starts the task at the
    head of the queue: after [n] of them the first [n] waiting tasks have
    been started, in their order, and the others still wait. *)
Theorem waiting_tasks_start_in_turn {V E : Type}
    (before after : list (event V E)) (s s' : state V E) :
  run before initial = Some s → Forall no_add after → run after s = Some s' →
  started s' = started s ++ take (completions after) (queue s)
  ∧ queue s' = drop (completions after) (queue s).
Proof.
  intros Hs Hno Hrun. destruct (reachable_wf _ _ Hs) as [Hwf Hbusy].
  destruct (run_progress _ _ _ Hwf Hbusy Hno Hrun) as (H1 & H2 & _). done.
Qed.

(** Five tasks added; when the first two have settled, the two that waited
    have been started. *)
Lemma waiting_tasks_start_in_turn_witness :
  ∃ s s', run [Add 1; Add 2; Add 3; Add 4; Add 5]%nat initial = Some s
          ∧ run two_completions s = Some s'
          ∧ started s' = [1; 2; 3; 4; 5]%nat ∧ queue s' = [].
Proof.
  eexists five_added, _. split; [reflexivity|]. split; [reflexivity|].
  refine (waiting_tasks_start_in_turn (V := nat) (E := nat)
            [Add 1; Add 2; Add 3; Add 4; Add 5]%nat two_completions
            five_added _ eq_refl _ eq_refl).
  repeat constructor.
Defined.

(** The queue cannot get stuck: from every state it reaches, the running
    tasks settling one after the other, whatever their outcomes, lead to a
    state in which every task added has been started, none runs, and the
    counter is back at zero. *)
Theorem queue_drains {V E : Type} (o : task → outcome V E)
    (before : list (event V E)) (s : state V E) :
  run before initial = Some s →
  ∃ after s', Forall no_add after ∧ run after s = Some s'
              ∧ started s' = submitted s ∧ queue s' = [] ∧ running s' = []
              ∧ activeRequests s' = 0%nat.
Proof.
  intros Hs. destruct (reachable_wf _ _ Hs) as [Hwf Hbusy].
  destruct (drain_measure o _ s Hwf Hbusy (Nat.le_refl _))
    as (evs & s' & Hno & Hrun & Hq & Hr & Hf & Ha).
  exists evs, s'. split; [done|]. split; [done|].
  destruct (run_wf _ _ _ Hwf Hbusy Hrun) as [[_ Hfifo _ _ _ _ _] _].
  destruct (run_progress _ _ _ Hwf Hbusy Hno Hrun) as (_ & _ & Hsub).
  rewrite <- Hsub, Hfifo, Hq, app_nil_r. done.
Qed.

(** From the state with three running and two waiting tasks. *)
Lemma queue_drains_witness :
  ∃ after s',
    Forall no_add after
    ∧ run after (five_added (V := nat) (E := nat)) = Some s'
    ∧ started s' = [1; 2; 3; 4; 5]%nat ∧ queue s' = [] ∧ running s' = []
    ∧ activeRequests s' = 0%nat.
Proof.
  apply (queue_drains (V := nat) (E := nat) (fun t => Fulfilled t)
           [Add 1; Add 2; Add 3; Add 4; Add 5]%nat).
  reflexivity.
Defined.

End QueueProgress.

(** ** The debounced function runs the last call *)

Module DebounceSpec.
Import Debounce DebounceTerms.

Section Facts.
Context {A : Type} (wait : Z).
Implicit Types (s : state A) (evs : list (event A)).

Lemma run_snoc evs ev s :
  run wait (evs ++ [ev]) s
  = match run wait evs s with
    | Some s' => step wait s' ev
    | None => None
    end.
Proof.
  revert s. induction evs as [|e evs IH]; intros s; simpl.
  - by destruct (step wait s ev).
  - destruct (step wait s e); [apply IH|done].
Qed.

Lemma run_pending evs : ∀ s,
  run wait evs initial = Some s → pending wait evs s.
Proof.
  induction evs as [|ev evs IH] using rev_ind; intros s.
  - intros [= <-]. reflexivity.
  - rewrite run_snoc. destruct (run wait evs initial) as [s0|]; [|done].
    specialize (IH s0 eq_refl). unfold pending in *. rewrite last_snoc.
    destruct ev as [now args|now id]; simpl.
    + intros [= <-]. exists (next_id s0). split; [done|]. simpl.
      assert (clearTimeout (timeout s0) (timers s0) = ∅) as ->;
        [|apply insert_empty].
      destruct (last evs) as [[t0 a0|t0 i0]|].
      * destruct IH as (id0 & -> & ->). simpl. apply delete_singleton_eq.
      * rewrite IH. destruct (timeout s0); simpl; [apply delete_empty|done].
      * rewrite IH. destruct (timeout s0); simpl; [apply delete_empty|done].
    + unfold fire. destruct (timers s0 !! id) as [[due args]|] eqn:Hid; [|done].
      destruct (due <=? now)%Z; [|done]. intros [= <-]. simpl.
      destruct (last evs) as [[t0 a0|t0 i0]|].
      * destruct IH as (id0 & _ & Ht). rewrite Ht in Hid |- *.
        apply lookup_singleton_Some in Hid as [<- _]. apply delete_singleton_eq.
      * rewrite IH. apply delete_empty.
      * rewrite IH. apply delete_empty.
Qed.

End Facts.

(** Whatever the calls and the timers that ran: at most one timer is set;
    a callback that runs is the one of the call just before it, at least
    [wait] milliseconds after that call, and it passes the arguments of
    that call to [func]: a call that is followed by another call before its
    timer ran never reaches [func]. *)
Theorem debounce_runs_last_call {A : Type} (wait : Z)
    (evs : list (event A)) (s : state A) :
  run wait evs initial = Some s →
  (size (timers s) ≤ 1)%nat
  ∧ ∀ now id s',
      step wait s (Fire now id) = Some s' →
      ∃ pre t args,
        evs = pre ++ [Call t args] ∧ (t + wait ≤ now)%Z
        ∧ invoked s' = invoked s ++ [(now, args)]
        ∧ timers s' = ∅.
Proof.
  intros Hrun. pose proof (run_pending wait evs s Hrun) as Hp.
  unfold pending in Hp. split.
  - destruct (last evs) as [[t0 a0|t0 i0]|].
    + destruct Hp as (id & _ & ->). by rewrite map_size_singleton.
    + rewrite Hp, map_size_empty. lia.
    + rewrite Hp, map_size_empty. lia.
  - intros now id s'. simpl. unfold fire.
    destruct (timers s !! id) as [[due args]|] eqn:Hid; [|done].
    destruct (Z.leb_spec due now) as [Hdue|]; [|done]. intros [= <-]. simpl.
    destruct (last evs) as [[t0 a0|t0 i0]|] eqn:Hlast.
    + destruct Hp as (id0 & _ & Ht). rewrite Ht in Hid |- *.
      apply lookup_singleton_Some in Hid as [<- [= <- <-]].
      apply last_Some in Hlast as [pre ->].
      exists pre, t0, a0. split; [done|]. split; [lia|].
      split; [done|]. apply delete_singleton_eq.
    + by rewrite Hp, lookup_empty in Hid.
    + by rewrite Hp, lookup_empty in Hid.
Qed.

(** After three calls within 300 ms of each other, the one timer set runs
    300 ms after the last call, and [func] gets the arguments of that call
    only. *)
Lemma debounce_runs_last_call_witness :
  ∃ s s', run 300 burst initial = Some s
          ∧ step 300 s (Fire 550 3) = Some s'
          ∧ invoked s' = [(550%Z, JS.lit "abc")].
Proof.
  eexists _, _. split; [reflexivity|]. split; [reflexivity|].
  destruct (debounce_runs_last_call 300 burst _ eq_refl) as [_ H].
  destruct (H 550%Z 3%nat _ eq_refl) as (pre & t & args & Hevs & _ & Hinv & _).
  change burst
    with ([Call 0 (JS.lit "a"); Call 100 (JS.lit "ab")]
          ++ [Call 250 (JS.lit "abc")]) in Hevs.
  apply app_inj_tail in Hevs as [_ [= _ <-]]. exact Hinv.
Defined.

End DebounceSpec.

(** ** The text of a copy button *)

Module ClipboardSpec.
Import JS Clipboard ClipboardTerms.

Lemma step_copy s now w :
  (clock s ≤ now)%Z → step s (Copy now w) = Some (copyToClipboard w now s).
Proof.
  intros H. unfold step. cbn [time_of].
  by destruct (Z.ltb_spec now (clock s)); [lia|].
Qed.

Lemma step_timer s now id due restore :
  (clock s ≤ now)%Z → timers s !! id = Some (due, restore) → (due ≤ now)%Z →
  step s (Timer now id)
  = Some {| button := {| textContent := restore; copied := false |};
            timers := delete id (timers s);
            next_id := next_id s;
            clock := now |}.
Proof.
  intros H Hid Hdue. unfold step, timer. cbn [time_of].
  destruct (Z.ltb_spec now (clock s)); [lia|]. rewrite Hid.
  by destruct (Z.leb_spec due now); [|lia].
Qed.

Lemma copy_then_timer w restore text t0 t1 :
  (t0 ≤ t1)%Z →
  button (copyToClipboard w t1 (fresh text t0))
  = {| textContent := lit "Copied!"; copied := true |} →
  timers (copyToClipboard w t1 (fresh text t0))
  = {[ 1%nat := ((t1 + 2000)%Z, restore) ]} →
  ∃ s, run [Copy t1 w; Timer (t1 + 2000) 1] (fresh text t0) = Some s
       ∧ button s = {| textContent := restore; copied := false |}
       ∧ timers s = ∅.
Proof.
  intros H01 Hb Ht. eexists. cbn [run]. rewrite step_copy by done.
  rewrite (step_timer _ _ _ (t1 + 2000)%Z restore).
  - split; [reflexivity|]. cbn [button timers]. split; [done|].
    rewrite Ht. apply delete_singleton_eq.
  - destruct w as [|[|]]; simpl; lia.
  - rewrite Ht. apply lookup_singleton_eq.
  - lia.
Qed.

(** One copy, then its timer: the button has its own text again, or [Copy]
    when the fallback did the copying.  Two copies, the second one before
    the timer of the first ran, then the two timers: the second copy found
    the text [Copied!] and its timer writes that back, so the button keeps
    showing [Copied!]. *)
Theorem copied_label_sticks (text : jsstring) (t0 t1 t2 : Z) :
  (t0 ≤ t1)%Z → (t1 ≤ t2)%Z → (t2 < t1 + 2000)%Z →
  (∃ s, run [Copy t1 Fulfilled; Timer (t1 + 2000) 1] (fresh text t0) = Some s
        ∧ button s = {| textContent := text; copied := false |}
        ∧ timers s = ∅)
  ∧ (∃ s, run [Copy t1 (Rejected false); Timer (t1 + 2000) 1] (fresh text t0) = Some s
          ∧ button s = {| textContent := lit "Copy"; copied := false |}
          ∧ timers s = ∅)
  ∧ (∃ s, run [Copy t1 Fulfilled; Copy t2 Fulfilled;
               Timer (t1 + 2000) 1; Timer (t2 + 2000) 2] (fresh text t0) = Some s
          ∧ button s = {| textContent := lit "Copied!"; copied := false |}
          ∧ timers s = ∅).
Proof.
  intros H01 H12 H2. split; [|split].
  - apply copy_then_timer; [done|done|]. cbn. apply insert_empty.
  - apply copy_then_timer; [done|done|]. cbn. apply insert_empty.
  - eexists. cbn [run]. rewrite step_copy by done.
    rewrite step_copy by (cbn; lia).
    rewrite (step_timer _ _ 1%nat (t1 + 2000)%Z text).
    + rewrite (step_timer _ _ 2%nat (t2 + 2000)%Z (lit "Copied!")).
      * split; [reflexivity|]. cbn [button timers]. split; [done|].
        cbn. apply map_eq. intros i. rewrite lookup_empty.
        destruct (decide (i = 2%nat)) as [->|]; [by rewrite lookup_delete_eq|].
        rewrite lookup_delete_ne by done.
        destruct (decide (i = 1%nat)) as [->|]; [by rewrite lookup_delete_eq|].
        rewrite lookup_delete_ne, !lookup_insert_ne by done. apply lookup_empty.
      * cbn. lia.
      * cbn. rewrite lookup_delete_ne by done. apply lookup_insert_eq.
      * lia.
    + cbn. lia.
    + cbn. rewrite lookup_insert_ne by done. apply lookup_insert_eq.
    + lia.
Qed.

(** A click at 500 ms and one at 800 ms on the button of the tags. *)
Lemma copied_label_sticks_witness :
  ∃ s, run [Copy 500 Fulfilled; Copy 800 Fulfilled; Timer 2500 1; Timer 2800 2]
         (fresh (lit "Copy All Tags") 0) = Some s
       ∧ button s = {| textContent := lit "Copied!"; copied := false |}
       ∧ timers s = ∅.
Proof.
  apply (copied_label_sticks (lit "Copy All Tags") 0 500 800); lia.
Defined.

End ClipboardSpec.

(** ** The handlers: what the page shows *)

Module AppSpec.
Import JS Parser ParserFacts Cache Net NetTerms NetSpec App AppTerms.

Section Handlers.
Context {J : Type} (null : J) (truthy_value : J → bool)
  (stringify : J → jsstring) (empty_object empty_array : J)
  (listing_request : jsstring → jsstring)
  (analysis_request : shown_analysis J → J)
  (faqs_of : J → option J)
  (renders_sources : J → bool)
  (renders : tool → J → bool).

Lemma loading_released b text :
  (loaders b ≤ 1)%nat →
  released text (setButtonLoading (setButtonLoading b true text) false text).
Proof.
  intros Hl. unfold released, setButtonLoading. simpl.
  destruct (loaders b) as [|[|n]]; simpl; [done|done|lia].
Qed.

Lemma loading_waiting b text :
  (loaders b ≤ 1)%nat → waiting (setButtonLoading b true text).
Proof.
  intros Hl. unfold waiting, setButtonLoading. simpl.
  destruct (loaders b) as [|[|n]]; simpl; [done|done|lia].
Qed.

Abbreviation first_run := (handleInitialGeneration empty_array listing_request
                           renders_sources).
Abbreviation follow_up := (handle_follow_up null truthy_value stringify empty_object
                             analysis_request faqs_of renders).

(** A listing that is not blank, an answer with a text that is not empty
    and with sources the template can be built from: the page shows the
    analysis the parser reads from the text, with those sources; the state
    holds it and the trimmed listing; the button is enabled again. *)
Theorem analysis_is_displayed value net generateBtn p content sources :
  trim value ≠ [] → (loaders generateBtn ≤ 1)%nat →
  generateAnalysis empty_array (listing_request (trim value)) net
  = Resolves (content, sources) →
  content ≠ [] → renders_sources sources = true →
  ∃ analysis,
    parseAnalysisFromText content = Normal analysis
    ∧ promise (first_run value net generateBtn p) = Resolves ()
    ∧ released (lit "Analyze Listing") (its_button (first_run value net generateBtn p))
    ∧ its_page (first_run value net generateBtn p)
      = {| results_container :=
             Results {| fields := analysis; web_sources := sources |} [];
           currentAnalysis := Some {| fields := analysis; web_sources := sources |};
           originalListing := Some (trim value);
           currentFAQs := currentFAQs p |}.
Proof.
  intros Hv Hl Hg Hc Hr. destruct (parse_fields content) as (a & Hp & _).
  exists a. split; [done|]. unfold handleInitialGeneration.
  destruct (trim value) as [|c l] eqn:Ht; [done|]. cbn [truthy negb].
  rewrite Hg. destruct content as [|d content]; [done|]. cbn [truthy].
  rewrite Hp. unfold displayResults. cbn [web_sources]. rewrite Hr.
  cbn [fst snd promise its_button its_page]. split; [done|].
  split; [by apply loading_released|done].
Qed.

Lemma initial_never_rejects value net generateBtn p e :
  promise (first_run value net generateBtn p) ≠ Rejects e.
Proof.
  unfold handleInitialGeneration. destruct (negb (truthy (trim value))); [done|].
  destruct (generateAnalysis _ _ net) as [[content sources]|e'|]; [|done..].
  destruct (truthy content); [|done].
  destruct (parseAnalysisFromText content); [|done].
  by destruct (displayResults _ _ _).2.
Qed.

Lemma follow_up_never_rejects t now store net button p e :
  promise (follow_up t now store net button p) ≠ Rejects e.
Proof.
  unfold handle_follow_up. destruct (currentAnalysis p); [|done].
  destruct (generate _ _ _ _ _ _ _ _ net).1 as [r|e'|]; [|done..].
  by destruct (display_result _ _ _ _ _).2.
Qed.

(** The first request carries no timer: when the server never answers a
    listing that is not blank, the handler never returns and its [finally]
    block is not reached; it leaves the button disabled, with its loader
    and the text of a running request, and the results empty.  The flag is
    not kept: [validateInput], run after the user has typed, sets it from
    the listing alone, so a listing that is not blank enables the button
    again while it still shows the loader and that text. *)
Theorem generation_without_answer_never_ends value typed generateBtn p :
  trim value ≠ [] → (loaders generateBtn ≤ 1)%nat →
  promise (first_run value Silent generateBtn p) = Hangs
  ∧ waiting (its_button (first_run value Silent generateBtn p))
  ∧ results_container (its_page (first_run value Silent generateBtn p)) = Cleared
  ∧ disabled (validateInput typed (its_button (first_run value Silent generateBtn p)))
    = negb (truthy (trim typed))
  ∧ loaders (validateInput typed (its_button (first_run value Silent generateBtn p)))
    = 1%nat
  ∧ btn_text (validateInput typed (its_button (first_run value Silent generateBtn p)))
    = lit "Generating...".
Proof.
  intros Hv Hl. unfold handleInitialGeneration.
  destruct (trim value) as [|c l] eqn:Ht; [done|]. cbn [truthy negb].
  cbn [generateAnalysis fetch generate_call abort_after promise its_button its_page
       results_container].
  destruct (loading_waiting generateBtn (lit "Analyze Listing") Hl)
    as (Hd & Hn & Htext).
  split; [done|]. split; [done|]. split; [done|].
  unfold validateInput. cbn [disabled loaders btn_text]. done.
Qed.

(** The handlers absorb what goes wrong: whatever the network does and
    whatever the display functions do with the answer, the promise of a
    handler is never rejected. *)
Theorem handlers_never_reject value t now store net button p e :
  promise (first_run value net button p) ≠ Rejects e
  ∧ promise (follow_up t now store net button p) ≠ Rejects e.
Proof.
  split; [apply initial_never_rejects|apply follow_up_never_rejects].
Qed.

Lemma generate_late t now store request (net : network (J := J)) :
  late 15000 net →
  (generate null truthy_value stringify empty_object t now store request net).1
  = Rejects request_timeout.
Proof.
  intros Hl. unfold generate.
  destruct t; unfold generateABTest, generatePromoContent, generateFAQs;
    rewrite (apiRequest_no_hit null truthy_value stringify empty_object)
      by reflexivity;
    by rewrite fetch_late.
Qed.

(** A follow-up request carries a timer of 15 seconds: when the server has
    not answered by then, the handler returns, the error message of its
    tool replaces the analysis on the page, and the button is enabled
    again.  The state keeps the analysis. *)
Theorem late_follow_up_replaces_analysis t now store net button p analysis :
  currentAnalysis p = Some analysis → (loaders button ≤ 1)%nat →
  late 15000 net →
  promise (follow_up t now store net button p) = Resolves ()
  ∧ released (default_text t) (its_button (follow_up t now store net button p))
  ∧ results_container (its_page (follow_up t now store net button p))
    = ErrorMessage (failure_message t)
  ∧ currentAnalysis (its_page (follow_up t now store net button p))
    = Some analysis.
Proof.
  intros Ha Hl Hlate. unfold handle_follow_up. rewrite Ha.
  rewrite generate_late by done. cbn [promise its_button its_page].
  split; [done|]. split; [by apply loading_released|]. split; [done|].
  exact Ha.
Qed.

End Handlers.

(** The sample answer, read and shown. *)
Lemma analysis_is_displayed_witness :
  ∃ analysis,
    parseAnalysisFromText (text_of ["## Overall Assessment"; "Good."])
    = Normal analysis
    ∧ its_page (handleInitialGeneration (lit "[]") id (fun _ => true)
                  (lit " Oak sign ") (Responds 900 (answer_text
                     (text_of ["## Overall Assessment"; "Good."])))
                  (fresh_button (lit "Analyze Listing")) fresh_page)
      = page_with {| fields := analysis; web_sources := lit "[]" |}.
Proof.
  destruct (analysis_is_displayed (J := jsstring) (lit "[]") id (fun _ => true)
              (lit " Oak sign ")
              (Responds 900 (answer_text (text_of ["## Overall Assessment"; "Good."])))
              (fresh_button (lit "Analyze Listing")) fresh_page
              (text_of ["## Overall Assessment"; "Good."]) (lit "[]"))
    as (a & Hp & _ & _ & Hpage).
  - vm_compute. discriminate.
  - simpl. lia.
  - reflexivity.
  - vm_compute. discriminate.
  - reflexivity.
  - exists a. split; [exact Hp|]. rewrite Hpage. vm_compute. reflexivity.
Defined.

(** The listing is sent and nothing comes back; the user then types a
    word, and the button that shows the loader can be pressed again. *)
Lemma generation_without_answer_never_ends_witness :
  promise (handleInitialGeneration (lit "[]") id (fun _ => true) (lit "Oak sign")
             Silent (fresh_button (lit "Analyze Listing")) fresh_page)
  = Hangs
  ∧ validateInput (lit "Oak sign, large")
      (its_button (handleInitialGeneration (lit "[]") id (fun _ => true)
                     (lit "Oak sign") Silent (fresh_button (lit "Analyze Listing"))
                     fresh_page))
    = {| disabled := false; loaders := 1; btn_text := lit "Generating...";
         hidden := false |}.
Proof.
  destruct (generation_without_answer_never_ends (J := jsstring) (lit "[]") id
              (fun _ => true) (lit "Oak sign") (lit "Oak sign, large")
              (fresh_button (lit "Analyze Listing")) fresh_page)
    as (Hp & _).
  - vm_compute. discriminate.
  - simpl. lia.
  - split; [exact Hp|]. vm_compute. reflexivity.
Defined.

(** The promo request is answered after 20 seconds: the analysis on the
    page has given way to the error message. *)
Lemma late_follow_up_replaces_analysis_witness :
  results_container
    (its_page (handlePromoGeneration [] truthy id (lit "{}")
                 (fun a => overall_assessment (fields a)) Some (fun _ _ => true)
                 0 ∅ (Responds 20000 (answer_text (lit "{}")))
                 (fresh_button (lit "Draft Promo Content"))
                 (page_with sample_analysis)))
  = ErrorMessage
      (lit "Sorry, there was an error generating promotional content.").
Proof.
  apply (late_follow_up_replaces_analysis (J := jsstring) [] truthy id (lit "{}")
           (fun a => overall_assessment (fields a)) Some (fun _ _ => true)
           Promo 0%Z ∅ (Responds 20000 (answer_text (lit "{}")))
           (fresh_button (lit "Draft Promo Content")) (page_with sample_analysis)
           sample_analysis).
  - reflexivity.
  - simpl. lia.
  - simpl. lia.
Defined.

(** However often and in whatever order the button is set loading and
    released, it never has more than one loader; after a call that releases
    it, it has none, is enabled and shows the text of that call.  In
    index.tsx each call that sets the button loading adds a loader. *)
Theorem loader_is_never_doubled (calls : list (bool * jsstring)) (b : button) :
  (loaders b ≤ 1)%nat →
  (loaders (set_loading_each setButtonLoading calls b) ≤ 1)%nat
  ∧ (∀ text, last calls = Some (false, text) →
       released text (set_loading_each setButtonLoading calls b))
  ∧ ∀ n text,
      loaders (set_loading_each FirstBuild.setButtonLoading
                 (replicate n (true, text)) b)
      = (loaders b + n)%nat.
Proof.
  intros Hb.
  assert (Hinv : ∀ calls b, (loaders b ≤ 1)%nat →
            (loaders (set_loading_each setButtonLoading calls b) ≤ 1)%nat).
  { clear. intros calls. induction calls as [|[l t] calls IH]; intros b Hb; [done|].
    apply IH. unfold setButtonLoading. simpl.
    destruct l; simpl; destruct (loaders b) as [|[|n]]; simpl; lia. }
  split; [by apply Hinv|]. split.
  - intros text Hlast. apply last_Some in Hlast as [pre ->].
    unfold set_loading_each. rewrite foldl_app. simpl.
    fold (set_loading_each setButtonLoading pre b).
    pose proof (Hinv pre b Hb) as Hpre. revert Hpre.
    generalize (set_loading_each setButtonLoading pre b). intros b' Hpre.
    unfold released, setButtonLoading. simpl.
    destruct (loaders b') as [|[|n]]; simpl; [done|done|lia].
  - clear. intros n text. revert b.
    induction n as [|n IH]; intros b; [simpl; lia|].
    change (set_loading_each FirstBuild.setButtonLoading
              (replicate (S n) (true, text)) b)
      with (set_loading_each FirstBuild.setButtonLoading (replicate n (true, text))
              (FirstBuild.setButtonLoading b true text)).
    rewrite IH. simpl. lia.
Qed.

(** Set loading twice, then released: no loader is left; in index.tsx two
    calls leave two loaders. *)
Lemma loader_is_never_doubled_witness :
  released (lit "Analyze Listing")
    (set_loading_each setButtonLoading
       [(true, lit "Analyze Listing"); (true, lit "Analyze Listing");
        (false, lit "Analyze Listing")]
       (fresh_button (lit "Analyze Listing")))
  ∧ loaders (set_loading_each FirstBuild.setButtonLoading
               (replicate 2 (true, lit "Analyze Listing"))
               (fresh_button (lit "Analyze Listing")))
    = 2%nat.
Proof.
  destruct (loader_is_never_doubled
              [(true, lit "Analyze Listing"); (true, lit "Analyze Listing");
               (false, lit "Analyze Listing")]
              (fresh_button (lit "Analyze Listing"))) as (_ & Hrel & Hfirst).
  - simpl. lia.
  - split; [by apply Hrel|apply (Hfirst 2%nat)].
Defined.

End AppSpec.
